(** * bunvas: a software rasterizer (src/src/image.ts)

    Shallow embedding of the [Image] pixel buffer and of the [ImageDrawer]
    drawing layer, with the properties of the specification proved or
    refuted on it.

    Modelling conventions.
    - A JavaScript number is an exact rational extended with the two
      infinities and NaN ([number]).  Binary64 rounding error and the sign
      of zero are outside the model; every constant that the statements
      below evaluate (bytes, small integers, halves) is exact in binary64,
      and the roundings of [Image.add] keep a margin of 1/510
      ([spec_blend_margin], [spec_blend_alpha_margin]).
    - Pixel coordinates, radii and the line thickness handed in by a caller
      are finite rationals ([Q]); [Math.round] takes them to [Z].
    - The counters of the loops ([x++], [x0 += sx], [y--], [t += step])
      and the pixel index [(y * width + x) * 4] are computed exactly.
      The source computes the same on integers below [2 ^ 53] in
      absolute value and departs from it beyond, where [x++] no longer
      advances, and on fractions that binary64 rounds.  A statement
      that depends on a counter reaching its bound, or on the value of
      a computed index, keeps its inputs in the range where both agree
      ([safe_coordinate], [safe_factor], [dyadic]).
    - A string is a sequence of code units below 256 ([string]).
    - The [Uint8ClampedArray] is a [list Z] of bytes; an out-of-range store
      is dropped and an out-of-range load gives [undefined], which the
      arithmetic that consumes it turns into NaN.
    - The pending-write [Map] is an association list that keeps the
      insertion order of its keys, as a JavaScript [Map] does.
    - A thrown [Error] leaves the mutations made so far in place: every
      outcome carries the state reached. *)

From Stdlib Require Import ZArith QArith Qround Qabs Qminmax Lia Lqa Bool Ascii String.
From stdpp Require Import list strings.

Open Scope Z_scope.

(** ** Numbers *)

Inductive number : Type :=
| Num (q : Q)
| PInf
| NInf
| NaN.

Definition ofZ (z : Z) : number := Num (inject_Z z).

Module Js.

Definition neg (a : number) : number :=
  match a with
  | Num q => Num (- q)
  | PInf => NInf
  | NInf => PInf
  | NaN => NaN
  end.

Definition add (a b : number) : number :=
  match a, b with
  | NaN, _ | _, NaN => NaN
  | Num p, Num q => Num (p + q)
  | PInf, NInf | NInf, PInf => NaN
  | PInf, _ | _, PInf => PInf
  | NInf, _ | _, NInf => NInf
  end.

Definition sub (a b : number) : number := add a (neg b).

(** The infinity of the sign of [q], NaN for zero, flipped when [flip]. *)
Definition inf_of_sign (q : Q) (flip : bool) : number :=
  match (q ?= 0)%Q with
  | Eq => NaN
  | Gt => if flip then NInf else PInf
  | Lt => if flip then PInf else NInf
  end.

Definition mul (a b : number) : number :=
  match a, b with
  | NaN, _ | _, NaN => NaN
  | Num p, Num q => Num (p * q)
  | Num p, PInf | PInf, Num p => inf_of_sign p false
  | Num p, NInf | NInf, Num p => inf_of_sign p true
  | PInf, PInf | NInf, NInf => PInf
  | PInf, NInf | NInf, PInf => NInf
  end.

Definition div (a b : number) : number :=
  match a, b with
  | NaN, _ | _, NaN => NaN
  | Num p, Num q =>
      if Qeq_bool q 0 then inf_of_sign p false else Num (p / q)
  | Num _, (PInf | NInf) => Num 0
  | PInf, Num q => if Qle_bool 0 q then PInf else NInf
  | NInf, Num q => if Qle_bool 0 q then NInf else PInf
  | (PInf | NInf), (PInf | NInf) => NaN
  end.

Definition abs (a : number) : number :=
  match a with
  | Num q => Num (Qabs q)
  | PInf | NInf => PInf
  | NaN => NaN
  end.

(** [a < b]; any comparison with NaN is false. *)
Definition lt (a b : number) : bool :=
  match a, b with
  | NaN, _ | _, NaN => false
  | Num p, Num q => negb (Qle_bool q p)
  | NInf, (Num _ | PInf) => true
  | Num _, PInf => true
  | _, _ => false
  end.

Definition le (a b : number) : bool :=
  match a, b with
  | NaN, _ | _, NaN => false
  | Num p, Num q => Qle_bool p q
  | NInf, _ => true
  | _, PInf => true
  | _, _ => false
  end.

(** Truncation toward zero. *)
Definition Qtrunc (q : Q) : Z :=
  if Qle_bool 0 q then Qfloor q else Qceiling q.

(** The [%] operator: the remainder has the sign of the dividend. *)
Definition rem (a b : number) : number :=
  match a, b with
  | NaN, _ | _, NaN => NaN
  | (PInf | NInf), _ => NaN
  | Num p, (PInf | NInf) => Num p
  | Num p, Num q =>
      if Qeq_bool q 0 then NaN
      else Num (p - q * inject_Z (Qtrunc (p / q)))
  end.

End Js.

(** [Math.round] on a finite number: the nearest integer, a tie going
    toward plus infinity. *)
Definition Math_round (q : Q) : Z := Qfloor (q + (1 # 2)).

Definition Math_round_number (a : number) : number :=
  match a with
  | Num q => ofZ (Math_round q)
  | other => other
  end.

(** The conversion a [Uint8ClampedArray] applies to a stored value
    (ToUint8Clamp): NaN becomes 0, the value is clamped to [0, 255] and
    rounded to the nearest integer, a tie going to the even one. *)
Definition round_half_even (q : Q) : Z :=
  let f := Qfloor q in
  match (q - inject_Z f ?= 1 # 2)%Q with
  | Lt => f
  | Gt => f + 1
  | Eq => if Z.even f then f else f + 1
  end.

Definition ToUint8Clamp (a : number) : Z :=
  match a with
  | NaN => 0
  | NInf => 0
  | PInf => 255
  | Num q =>
      if Qle_bool q 0 then 0
      else if Qle_bool 255 q then 255
      else round_half_even q
  end.

(** ** Strings *)

Definition code (c : ascii) : Z := Z.of_nat (nat_of_ascii c).

(** White space below code unit 256, as [\s] and [parseInt] take it. *)
Definition is_space (c : ascii) : bool :=
  let n := code c in
  ((9 <=? n) && (n <=? 13)) || (n =? 32) || (n =? 160).

(** [\d] *)
Definition is_digit (c : ascii) : bool :=
  let n := code c in (48 <=? n) && (n <=? 57).

(** Value of a digit in a radix up to 36. *)
Definition digit_value (c : ascii) : option Z :=
  let n := code c in
  if (48 <=? n) && (n <=? 57) then Some (n - 48)
  else if (97 <=? n) && (n <=? 122) then Some (n - 97 + 10)
  else if (65 <=? n) && (n <=? 90) then Some (n - 65 + 10)
  else None.

Fixpoint span (p : ascii -> bool) (s : string) : string * string :=
  match s with
  | EmptyString => (EmptyString, EmptyString)
  | String c s' =>
      if p c then let (a, b) := span p s' in (String c a, b)
      else (EmptyString, s)
  end.

Fixpoint strip_prefix (p s : string) : option string :=
  match p, s with
  | EmptyString, _ => Some s
  | String a p', String b s' =>
      if Ascii.eqb a b then strip_prefix p' s' else None
  | String _ _, EmptyString => None
  end.

Definition startsWith (s p : string) : bool :=
  match strip_prefix p s with Some _ => true | None => false end.

Definition str_length (s : string) : Z := Z.of_nat (String.length s).

(** [s.slice(i, j)] for [0 <= i <= j]. *)
Definition slice (s : string) (i j : nat) : string :=
  String.substring i (j - i) s.

(** [s.replace(c, '')] for a one-character pattern: the first occurrence
    is removed. *)
Fixpoint remove_first (c : ascii) (s : string) : string :=
  match s with
  | EmptyString => EmptyString
  | String a s' => if Ascii.eqb a c then s' else String a (remove_first c s')
  end.

(** The longest prefix of [s] made of digits of [radix], read as a number;
    [acc] is the value read so far, [None] before the first digit. *)
Fixpoint read_digits (radix : Z) (s : string) (acc : option Z) : option Z :=
  match s with
  | EmptyString => acc
  | String c s' =>
      match digit_value c with
      | Some d =>
          if d <? radix
          then read_digits radix s' (Some (radix * default 0 acc + d))
          else acc
      | None => acc
      end
  end.

(** [parseInt(s)] ([radix = None]) and [parseInt(s, 16)]
    ([radix = Some 16]): leading white space is skipped, a sign is read,
    a [0x] prefix is skipped when the radix is 16 or absent, then the
    longest run of digits is read; no digit gives NaN.  Nothing is
    thrown. *)
Definition parseInt (s : string) (radix : option Z) : number :=
  let s1 := snd (span is_space s) in
  let '(sign, s2) :=
    match s1 with
    | String "-" r => (-1, r)
    | String "+" r => (1, r)
    | _ => (1, s1)
    end in
  let '(R, s3) :=
    match s2 with
    | String "0" (String x r) =>
        if (Ascii.eqb x "x" || Ascii.eqb x "X")
           && (match radix with None => true | Some r16 => r16 =? 16 end)
        then (16, r) else (default 10 radix, s2)
    | _ => (default 10 radix, s2)
    end in
  match read_digits R s3 None with
  | None => NaN
  | Some n => ofZ (sign * n)
  end.

(** The groups of [/^hsl\((\d+),\s*(\d+),\s*(\d+)\)$/]. *)
Definition match_hsl (s : string) : option (string * string * string) :=
  match strip_prefix "hsl(" s with
  | None => None
  | Some s1 =>
      let (d1, s2) := span is_digit s1 in
      match d1, s2 with
      | String _ _, String "," s3 =>
          let (d2, s5) := span is_digit (snd (span is_space s3)) in
          match d2, s5 with
          | String _ _, String "," s6 =>
              let (d3, s8) := span is_digit (snd (span is_space s6)) in
              match d3, s8 with
              | String _ _, String ")" EmptyString => Some (d1, d2, d3)
              | _, _ => None
              end
          | _, _ => None
          end
      | _, _ => None
      end
  end.

(** ** Colors *)

Inductive Color : Type :=
| ColorArray (channels : list number)
| ColorString (s : string).

Definition FullColorArray : Type := number * number * number * number.

Inductive Error : Type :=
| InvalidColor   (* new Error('Invalid color') *)
| InvalidPoints. (* new Error('Invalid points') *)

Inductive attempt (A : Type) : Type :=
| Returns (a : A)
| Throws (e : Error).
Arguments Returns {A} a.
Arguments Throws {A} e.

(** [Image.util.toColor] *)
Definition toColor (color : Color) : attempt FullColorArray :=
  match color with
  | ColorArray cs =>
      match cs with
      | [r; g; b] => Returns (r, g, b, ofZ 255)
      | [r; g; b; a] => Returns (r, g, b, a)
      | _ => Throws InvalidColor
      end
  | ColorString color =>
      if startsWith color "hsl(" then
        match match_hsl color with
        | None => Throws InvalidColor
        | Some (m1, m2, m3) =>
            let h := parseInt m1 None in
            let s := parseInt m2 None in
            let l := parseInt m3 None in
            let c := Js.div (Js.mul (Js.div l (ofZ 100)) s) (ofZ 100) in
            let x :=
              Js.mul c
                (Js.sub (ofZ 1)
                   (Js.abs (Js.sub (Js.rem (Js.div h (ofZ 60)) (ofZ 2))
                              (ofZ 1)))) in
            let m := Js.sub (Js.div l (ofZ 100)) c in
            let '(r, g, b) :=
              if Js.lt h (ofZ 60) then (c, x, ofZ 0)
              else if Js.lt h (ofZ 120) then (x, c, ofZ 0)
              else if Js.lt h (ofZ 180) then (ofZ 0, c, x)
              else if Js.lt h (ofZ 240) then (ofZ 0, x, c)
              else if Js.lt h (ofZ 300) then (x, ofZ 0, c)
              else if Js.lt h (ofZ 360) then (c, ofZ 0, x)
              else (ofZ 0, ofZ 0, ofZ 0) in
            Returns
              (Math_round_number (Js.mul (Js.add r m) (ofZ 255)),
               Math_round_number (Js.mul (Js.add g m) (ofZ 255)),
               Math_round_number (Js.mul (Js.add b m) (ofZ 255)),
               ofZ 255)
        end
      else if startsWith color "#" then
        if negb (str_length color =? 7) && negb (str_length color =? 9)
        then Throws InvalidColor
        else
          let hex := remove_first "#" color in
          let r := parseInt (slice hex 0 2) (Some 16) in
          let g := parseInt (slice hex 2 4) (Some 16) in
          let b := parseInt (slice hex 4 6) (Some 16) in
          let a :=
            if str_length hex =? 8
            then parseInt (slice hex 6 8) (Some 16) else ofZ 255 in
          Returns (r, g, b, a)
      else Throws InvalidColor
  end.

(** ** The pixel buffer: class [Image] *)

Definition Point : Type := Q * Q.

Definition Qlt_bool (a b : Q) : bool := negb (Qle_bool b a).

Record Image : Type := mkImage {
  width : Z;
  height : Z;
  buffer : list Z
}.

(** [new Image(width, height)]: a zeroed buffer of [width * height * 4]
    bytes.  The sides are integers; with a negative product the
    constructor of the array throws a RangeError, which is left out. *)
Definition new_Image (w h : Z) : Image :=
  mkImage w h (replicate (Z.to_nat (w * h * 4)) 0).

(** [buffer[i]] read with a number for index: [undefined] (NaN here)
    unless [i] is an integer index of the array. *)
Definition typed_load (b : list Z) (i : Q) : number :=
  if Qeq_bool (inject_Z (Qfloor i)) i && (0 <=? Qfloor i) then
    match b !! Z.to_nat (Qfloor i) with
    | Some v => ofZ v
    | None => NaN
    end
  else NaN.

(** [buffer[i] = v] with an integer index: dropped when out of range. *)
Definition typed_store (b : list Z) (i : Z) (v : number) : list Z :=
  if 0 <=? i then <[Z.to_nat i := ToUint8Clamp v]> b else b.

(** [get]: four loads at [(y * width + x) * 4] and after, without a
    test of the coordinates.  The index is computed exactly; it is the
    index of the source when no sum or product in it is rounded, as
    for the pixels of the image and for integers up to [2 ^ 24]. *)
Definition Image_get (img : Image) (pixel : Point) : FullColorArray :=
  let '(x, y) := pixel in
  let index := ((y * inject_Z (width img) + x) * 4)%Q in
  (typed_load (buffer img) (index + 0)%Q,
   typed_load (buffer img) (index + 1)%Q,
   typed_load (buffer img) (index + 2)%Q,
   typed_load (buffer img) (index + 3)%Q).

Definition Image_set (img : Image) (pixel : Point) (color : Color)
  : attempt Image :=
  match toColor color with
  | Throws e => Throws e
  | Returns (c0, c1, c2, c3) =>
      let x := Math_round (fst pixel) in
      let y := Math_round (snd pixel) in
      if (x <? 0) || (x >=? width img) || (y <? 0) || (y >=? height img)
      then Returns img
      else
        let index := (y * width img + x) * 4 in
        let b0 := typed_store (buffer img) (index + 0) c0 in
        let b1 := typed_store b0 (index + 1) c1 in
        let b2 := typed_store b1 (index + 2) c2 in
        let b3 := typed_store b2 (index + 3) c3 in
        Returns (mkImage (width img) (height img) b3)
  end.

(** Sets a pixel with alpha blending. *)
Definition Image_add (img : Image) (pixel : Point) (color : Color)
  : attempt Image :=
  let currentColor := Image_get img pixel in
  match toColor color with
  | Throws e => Throws e
  | Returns colorNormalized =>
      let alpha := Js.div (snd colorNormalized) (ofZ 255) in
      let alphaComplement := Js.sub (ofZ 1) alpha in
      let '(r, g, b, a) := currentColor in
      let '(r2, g2, b2, a2) := colorNormalized in
      let r3 :=
        Math_round_number
          (Js.add (Js.mul r alphaComplement) (Js.mul r2 alpha)) in
      let g3 :=
        Math_round_number
          (Js.add (Js.mul g alphaComplement) (Js.mul g2 alpha)) in
      let b3 :=
        Math_round_number
          (Js.add (Js.mul b alphaComplement) (Js.mul b2 alpha)) in
      let a3 := Js.add a (Js.mul a2 alphaComplement) in
      Image_set img pixel (ColorArray [r3; g3; b3; a3])
  end.

(** ** The drawing layer: class [ImageDrawer] *)

Record ImageDrawer : Type := mkDrawer {
  image : Image;
  blending : bool;
  lineThickness : Q;
  temporaryBuffer : list (Z * Color);
  flushDisablers : Z
}.

(** [image.drawer] of a new image. *)
Definition new_ImageDrawer (img : Image) : ImageDrawer :=
  mkDrawer img true 1 [] 0.

Definition set_image (img : Image) (d : ImageDrawer) : ImageDrawer :=
  mkDrawer img (blending d) (lineThickness d) (temporaryBuffer d)
    (flushDisablers d).

Definition set_temporaryBuffer (m : list (Z * Color)) (d : ImageDrawer)
  : ImageDrawer :=
  mkDrawer (image d) (blending d) (lineThickness d) m (flushDisablers d).

Definition set_flushDisablers (n : Z) (d : ImageDrawer) : ImageDrawer :=
  mkDrawer (image d) (blending d) (lineThickness d) (temporaryBuffer d) n.

(** [Map.prototype.set]: the value of a present key is replaced where the
    key stands, a new key goes to the end. *)
Fixpoint map_set (k : Z) (v : Color) (m : list (Z * Color))
  : list (Z * Color) :=
  match m with
  | [] => [(k, v)]
  | (k', v') :: m' =>
      if k =? k' then (k, v) :: m' else (k', v') :: map_set k v m'
  end.

(** *** Outcomes of a method call

    A call returns, throws, or does not return.  The drawer reached is
    kept in the first two cases: nothing rolls a mutation back. *)

Inductive outcome (A : Type) : Type :=
| Done (a : A) (d : ImageDrawer)
| Raised (e : Error) (d : ImageDrawer)
| NoReturn.
Arguments Done {A} a d.
Arguments Raised {A} e d.
Arguments NoReturn {A}.

Definition M (A : Type) : Type := ImageDrawer -> outcome A.

Definition ret {A} (a : A) : M A := fun d => Done a d.

Definition bind {A B} (m : M A) (k : A -> M B) : M B :=
  fun d =>
    match m d with
    | Done a d' => k a d'
    | Raised e d' => Raised e d'
    | NoReturn => NoReturn
    end.

Definition throw {A} (e : Error) : M A := fun d => Raised e d.

(** A method body that cannot throw. *)
Definition modify (f : ImageDrawer -> ImageDrawer) : M unit :=
  fun d => Done tt (f d).

Declare Scope drawer_scope.
Delimit Scope drawer_scope with drawer.
Notation "x <- m ;; k" := (bind m (fun x => k))
  (at level 100, m at next level, right associativity) : drawer_scope.
Notation "m ;; k" := (bind m (fun _ => k))
  (at level 100, right associativity) : drawer_scope.
Open Scope drawer_scope.

(** [this.flushDisablers++] and [this.flushDisablers--] *)
Definition incr_flushDisablers : M unit :=
  modify (fun d => set_flushDisablers (flushDisablers d + 1) d).
Definition decr_flushDisablers : M unit :=
  modify (fun d => set_flushDisablers (flushDisablers d - 1) d).

(** [setPixel]: the bounds are tested on the coordinates as given, which
    are rounded afterwards. *)
Definition setPixel (pixel : Point) (color : Color) (d : ImageDrawer)
  : ImageDrawer :=
  let '(px, py) := pixel in
  if Qlt_bool px 0 || Qle_bool (inject_Z (width (image d))) px
     || Qlt_bool py 0 || Qle_bool (inject_Z (height (image d))) py
  then d
  else
    let x := Math_round px in
    let y := Math_round py in
    let index := y * width (image d) + x in
    set_temporaryBuffer (map_set (index + 0) color (temporaryBuffer d)) d.

(** The loop of [flush] over the entries in insertion order, with
    [index % width] and [Math.floor(index / width)] on the integers (a
    key is staged only when the width is positive).  The image is
    mutated in place, so the entries applied before a throw stay
    applied. *)
Fixpoint flush_loop (blend : bool) (entries : list (Z * Color))
  (img : Image) : Image * option Error :=
  match entries with
  | [] => (img, None)
  | (index, color) :: rest =>
      let pixel : Point :=
        (inject_Z (Z.rem index (width img)),
         inject_Z (index / width img)) in
      match (if blend then Image_add img pixel color
             else Image_set img pixel color) with
      | Throws e => (img, Some e)
      | Returns img' => flush_loop blend rest img'
      end
  end.

Definition flush : M unit := fun d =>
  if negb (flushDisablers d =? 0) then Done tt d
  else
    match flush_loop (blending d) (temporaryBuffer d) (image d) with
    | (img, Some e) => Raised e (set_image img d)
    | (img, None) => Done tt (set_temporaryBuffer [] (set_image img d))
    end.

(** *** Loops

    A loop is a recursion on a fuel that bounds its number of
    iterations; the test of the loop is evaluated at every iteration, as
    in the source.  The fuel chosen is never the reason a loop stops:
    more fuel gives the same result ([For_fuel], [circle_fuel],
    [edge_fuel], [fill_fuel], [lerp_fuel]) and the loop of a line ends
    before its fuel does ([drawLine_returns]).  The one loop that may be
    endless, the one of [drawBezier], takes its fuel from the caller
    ([drawBezier_returns], [bezier_loop_endless]).

    A counter is an exact number here and [i + 1] is the next one.  In
    the source [i++] is the next integer as long as the counter stays
    below [2 ^ 53] in absolute value; a statement that depends on a
    counter reaching its bound keeps its inputs in that range. *)

(** [for (let i = lo; i <= hi; i++) body(i)] *)
Fixpoint for_le (fuel : nat) (i hi : Q)
  (body : Q -> ImageDrawer -> ImageDrawer) (d : ImageDrawer) : ImageDrawer :=
  match fuel with
  | O => d
  | S fuel' =>
      if Qle_bool i hi then for_le fuel' (i + 1)%Q hi body (body i d)
      else d
  end.

Definition fuel_le (lo hi : Q) : nat := S (Z.to_nat (Qfloor (hi - lo) + 1)).

Definition For (lo hi : Q) (body : Q -> ImageDrawer -> ImageDrawer)
  : ImageDrawer -> ImageDrawer :=
  for_le (fuel_le lo hi) lo hi body.

Definition drawFilledRectangle (start end_ : Point) (color : Color)
  : M unit :=
  let '(x0, y0) := start in
  let '(x1, y1) := end_ in
  modify (For y0 y1 (fun y => For x0 x1 (fun x => setPixel (x, y) color)));;
  flush.

Definition drawRectangle (start end_ : Point) (color : Color) : M unit :=
  let '(x0, y0) := start in
  let '(x1, y1) := end_ in
  modify (For x0 x1 (fun x d =>
            setPixel (x, y1) color (setPixel (x, y0) color d)));;
  modify (For y0 y1 (fun y d =>
            setPixel (x1, y) color (setPixel (x0, y) color d)));;
  flush.

(** The loop shared by the two circle algorithms:
    [for (let x = 0; x <= y; x++) { body; if (d > 0) { y--; ... } ... }] *)
Fixpoint circle_loop (fuel : nat)
  (body : Q -> Q -> ImageDrawer -> ImageDrawer)
  (x y d : Q) (dr : ImageDrawer) : ImageDrawer :=
  match fuel with
  | O => dr
  | S fuel' =>
      if Qle_bool x y then
        let dr' := body x y dr in
        if Qlt_bool 0 d then
          let y' := (y - 1)%Q in
          circle_loop fuel' body (x + 1)%Q y' (d + 4 * (x - y') + 10)%Q dr'
        else
          circle_loop fuel' body (x + 1)%Q y (d + 4 * x + 6)%Q dr'
      else dr
  end.

Definition fuel_circle (radius : Q) : nat :=
  S (Z.to_nat (Qfloor radius + 1)).

Definition circle_points (xc yc : Q) (color : Color) (x y : Q)
  (d : ImageDrawer) : ImageDrawer :=
  let d := setPixel (xc + x, yc + y)%Q color d in
  let d := setPixel (xc - x, yc + y)%Q color d in
  let d := setPixel (xc + x, yc - y)%Q color d in
  let d := setPixel (xc - x, yc - y)%Q color d in
  let d := setPixel (xc + y, yc + x)%Q color d in
  let d := setPixel (xc - y, yc + x)%Q color d in
  let d := setPixel (xc + y, yc - x)%Q color d in
  setPixel (xc - y, yc - x)%Q color d.

(** Implements Bresenham's circle algorithm. *)
Definition drawCircle (center : Point) (radius : Q) (color : Color)
  : M unit :=
  let '(xc, yc) := center in
  modify (circle_loop (fuel_circle radius) (circle_points xc yc color)
            0 radius (3 - 2 * radius)%Q);;
  flush.

Definition circle_spans (xc yc : Q) (color : Color) (x y : Q)
  (d : ImageDrawer) : ImageDrawer :=
  let d :=
    For (xc - x) (xc + x)
      (fun i d => setPixel (i, yc - y)%Q color
                    (setPixel (i, yc + y)%Q color d)) d in
  For (xc - y) (xc + y)
    (fun i d => setPixel (i, yc - x)%Q color
                  (setPixel (i, yc + x)%Q color d)) d.

Definition drawFilledCircle (center : Point) (radius : Q) (color : Color)
  : M unit :=
  let '(xc, yc) := center in
  modify (circle_loop (fuel_circle radius) (circle_spans xc yc color)
            0 radius (3 - 2 * radius)%Q);;
  flush.

(** The pixel of one step of a line: a filled circle under suppression
    when the line is thick, a single staged pixel otherwise. *)
Definition line_point (x0 y0 : Z) (color : Color) : M unit := fun d =>
  if Qlt_bool 1 (lineThickness d) then
    (incr_flushDisablers;;
     drawFilledCircle (inject_Z x0, inject_Z y0) (lineThickness d / 2)%Q
       color;;
     decr_flushDisablers) d
  else modify (setPixel (inject_Z x0, inject_Z y0) color) d.

(** The [while (true)] loop of [drawLine]. *)
Fixpoint line_loop (fuel : nat) (x0 y0 x1 y1 dx dy sx sy err : Z)
  (color : Color) : M unit :=
  match fuel with
  | O => fun _ => NoReturn
  | S fuel' =>
      line_point x0 y0 color;;
      if (x0 =? x1) && (y0 =? y1) then ret tt
      else
        let e2 := 2 * err in
        let '(err, x0) :=
          if e2 >? - dy then (err - dy, x0 + sx) else (err, x0) in
        let '(err, y0) :=
          if e2 <? dx then (err + dx, y0 + sy) else (err, y0) in
        line_loop fuel' x0 y0 x1 y1 dx dy sx sy err color
  end.

(** Implements Bresenham's line algorithm. *)
Definition drawLine (start end_ : Point) (color : Color) : M unit :=
  let x0 := Math_round (fst start) in
  let y0 := Math_round (snd start) in
  let x1 := Math_round (fst end_) in
  let y1 := Math_round (snd end_) in
  let dx := Z.abs (x1 - x0) in
  let dy := Z.abs (y1 - y0) in
  let sx := if x0 <? x1 then 1 else -1 in
  let sy := if y0 <? y1 then 1 else -1 in
  let err := dx - dy in
  line_loop (S (Z.to_nat (dx + dy))) x0 y0 x1 y1 dx dy sx sy err color;;
  flush.

(** The inner loop of [drawTriangle],
    [for (let x = Math.round(xStart); x <= Math.round(xEnd); x++)],
    whose bounds may be infinite or NaN: the loop is then empty or
    endless. *)
Definition scanline (xStart xEnd : number) (y : Q) (color : Color)
  : M unit :=
  match Math_round_number xStart, Math_round_number xEnd with
  | Num a, Num b => modify (For a b (fun x => setPixel (x, y) color))
  | NaN, _ | _, NaN => ret tt
  | Num _, NInf | PInf, (Num _ | NInf) => ret tt
  | Num _, PInf | PInf, PInf | NInf, _ => fun _ => NoReturn
  end.

(** [for (let y = from; y < to; y++) { scanline; xStart += dx1;
    xEnd += dx2 }], returning the two bounds it leaves. *)
Fixpoint edge_loop (fuel : nat) (y to : Q) (xStart xEnd dx1 dx2 : number)
  (color : Color) : M (number * number) :=
  match fuel with
  | O => fun _ => NoReturn
  | S fuel' =>
      if Qlt_bool y to then
        scanline xStart xEnd y color;;
        edge_loop fuel' (y + 1)%Q to (Js.add xStart dx1) (Js.add xEnd dx2)
          dx1 dx2 color
      else ret (xStart, xEnd)
  end.

Definition fuel_lt (lo hi : Q) : nat := S (Z.to_nat (Qceiling (hi - lo))).

Definition Triangle : Type := Point * Point * Point.

(** This function implements scanline rasterization. *)
Definition drawTriangle (triangle : Triangle) (color : Color) : M unit :=
  let '((x0, y0), (x1, y1), (x2, y2)) := triangle in
  let dx1 := Js.div (Num (x1 - x0)) (Num (y1 - y0)) in
  let dx2 := Js.div (Num (x2 - x0)) (Num (y2 - y0)) in
  bounds <- edge_loop (fuel_lt y0 y1) y0 y1 (Num x0) (Num x0) dx1 dx2 color;;
  let dx1 := Js.div (Num (x2 - x1)) (Num (y2 - y1)) in
  edge_loop (fuel_lt y1 y2) y1 y2 (fst bounds) (Num x1) dx1 dx2 color;;
  flush.

(** The loop of [drawPath] over [points.slice(1)]. *)
Fixpoint path_loop (lastPoint : Point) (points : list Point) (color : Color)
  : M unit :=
  match points with
  | [] => ret tt
  | point :: rest =>
      drawLine lastPoint point color;;
      path_loop point rest color
  end.

Definition drawPath (points : list Point) (color : Color) : M unit :=
  match points with
  | [] | [_] => throw InvalidPoints
  | p0 :: rest =>
      incr_flushDisablers;;
      path_loop p0 rest color;;
      decr_flushDisablers;;
      flush
  end.

(** One pass of [lerpPoints]: the pairwise interpolations, on exact
    rationals.  The source rounds each product and each sum; the two
    agree where these are exact, as at [t = 0], [t = 1] and [t = 1/2]
    on integer points. *)
Fixpoint lerp_pass (points : list Point) (t : Q) : list Point :=
  match points with
  | (x1, y1) :: (((x2, y2) :: _) as rest) =>
      (x1 + (x2 - x1) * t, y1 + (y2 - y1) * t)%Q :: lerp_pass rest t
  | _ => []
  end.

Fixpoint lerp_loop (fuel : nat) (points : list Point) (t : Q) : list Point :=
  match fuel with
  | O => points
  | S fuel' =>
      if (1 <? length points)%nat then lerp_loop fuel' (lerp_pass points t) t
      else points
  end.

(** [points[0]] after the passes; the list is never empty when the caller
    hands in a point. *)
Definition lerpPoints (points : list Point) (t : Q) : Point :=
  match lerp_loop (length points) points t with
  | p :: _ => p
  | [] => (0, 0)%Q
  end.

(** [for (let t = step; t <= 1; t += step)] for a finite [step]; the loop
    is endless when [step <= 0].  The sum [t + step] is exact here; the
    source rounds it, so the two agree on the rounds of a step that
    binary64 adds exactly, such as 1. *)
Fixpoint bezier_loop (fuel : nat) (points : list Point) (color : Color)
  (t step : Q) (lastPoint : Point) : M unit :=
  match fuel with
  | O => fun d => if Qle_bool t 1 then NoReturn else Done tt d
  | S fuel' =>
      if Qle_bool t 1 then
        let point := lerpPoints points t in
        drawLine lastPoint point color;;
        bezier_loop fuel' points color (t + step)%Q step point
      else ret tt
  end.

Definition drawBezier (fuel : nat) (points : list Point) (color : Color)
  (step : option Q) : M unit :=
  match points with
  | [] | [_] => throw InvalidPoints
  | p0 :: rest =>
      let '(x0, y0) :=
        fold_left (fun a b => (Qmin (fst a) (fst b), Qmin (snd a) (snd b)))
          rest p0 in
      let '(x1, y1) :=
        fold_left (fun a b => (Qmax (fst a) (fst b), Qmax (snd a) (snd b)))
          rest p0 in
      let step :=
        match step with
        | Some s => Num s
        | None =>
            Js.div (ofZ 1) (Num (Qabs (Qabs (x1 - x0) - Qabs (y1 - y0))))
        end in
      incr_flushDisablers;;
      match step with
      | Num s => bezier_loop fuel points color s s p0
      | PInf | NaN => ret tt
      | NInf => fun _ => NoReturn
      end;;
      decr_flushDisablers;;
      flush
  end.

(** [TypedArray.prototype.set(array, offset)] with a four-element array;
    the length of the buffer is a multiple of 4, so the four elements fit
    when [offset] is below it. *)
Definition typed_set4 (b : list Z) (i : Z) (c : FullColorArray) : list Z :=
  let '(c0, c1, c2, c3) := c in
  typed_store
    (typed_store (typed_store (typed_store b (i + 0) c0) (i + 1) c1)
       (i + 2) c2) (i + 3) c3.

Fixpoint fill_loop (fuel : nat) (i : Z) (c : FullColorArray) (b : list Z)
  : list Z :=
  match fuel with
  | O => b
  | S fuel' =>
      if i <? Z.of_nat (length b)
      then fill_loop fuel' (i + 4) c (typed_set4 b i c)
      else b
  end.

(** Fills the whole image. *)
Definition fill (color : Color) : M unit :=
  modify (set_temporaryBuffer []);;
  fun d =>
    match toColor color with
    | Throws e => Raised e d
    | Returns normalizedColor =>
        let img := image d in
        Done tt
          (set_image
             (mkImage (width img) (height img)
                (fill_loop (S (length (buffer img))) 0 normalizedColor
                   (buffer img))) d)
    end.

(** The public drawing operations. *)
Inductive DrawOp : Type :=
| OpLine (start end_ : Point) (color : Color)
| OpFilledRectangle (start end_ : Point) (color : Color)
| OpRectangle (start end_ : Point) (color : Color)
| OpCircle (center : Point) (radius : Q) (color : Color)
| OpFilledCircle (center : Point) (radius : Q) (color : Color)
| OpTriangle (triangle : Triangle) (color : Color)
| OpPath (points : list Point) (color : Color)
| OpBezier (points : list Point) (color : Color) (step : option Q)
| OpFill (color : Color).

Definition run (fuel : nat) (op : DrawOp) : M unit :=
  match op with
  | OpLine s e c => drawLine s e c
  | OpFilledRectangle s e c => drawFilledRectangle s e c
  | OpRectangle s e c => drawRectangle s e c
  | OpCircle p r c => drawCircle p r c
  | OpFilledCircle p r c => drawFilledCircle p r c
  | OpTriangle t c => drawTriangle t c
  | OpPath ps c => drawPath ps c
  | OpBezier ps c st => drawBezier fuel ps c st
  | OpFill c => fill c
  end.

(** ** Definitions used by the statements *)

(** The conversion in the words of the specification: the standard HSL to
    RGB formula with chroma [C = (1 - |2L/100 - 1|) * S/100] and offset
    [m = L/100 - C/2].  It is compared with [toColor], not used by it. *)
Definition spec_hsl_to_rgb (H S L : Q) : Z * Z * Z :=
  let C := ((1 - Qabs (2 * L / 100 - 1)) * S / 100)%Q in
  let h' := (H / 60)%Q in
  let X := (C * (1 - Qabs (h' - 2 * inject_Z (Qfloor (h' / 2)) - 1)))%Q in
  let m := (L / 100 - C / 2)%Q in
  let '(r, g, b) :=
    if Qlt_bool H 60 then (C, X, 0%Q)
    else if Qlt_bool H 120 then (X, C, 0%Q)
    else if Qlt_bool H 180 then (0%Q, C, X)
    else if Qlt_bool H 240 then (0%Q, X, C)
    else if Qlt_bool H 300 then (X, 0%Q, C)
    else (C, 0%Q, X) in
  (Math_round ((r + m) * 255), Math_round ((g + m) * 255),
   Math_round ((b + m) * 255)).

(** A base-16 digit, and the byte two of them denote. *)
Definition hex_digit_value (c : ascii) : option Z :=
  match digit_value c with
  | Some d => if d <? 16 then Some d else None
  | None => None
  end.

Definition hex_pair_value (c1 c2 : ascii) : option Z :=
  match hex_digit_value c1, hex_digit_value c2 with
  | Some hi, Some lo => Some (16 * hi + lo)
  | _, _ => None
  end.

(** The byte denoted by the two characters of [s] at [i] and [i + 1]. *)
Definition hex_byte_at (s : string) (i : nat) : option Z :=
  match String.get i s, String.get (S i) s with
  | Some c1, Some c2 => hex_pair_value c1 c2
  | _, _ => None
  end.

(** Every character, for a case analysis by evaluation. *)
Definition all_ascii : list ascii := map ascii_of_nat (seq 0 256).

(** [n] is the integer [v], as a test. *)
Definition is_ofZ (n : number) (v : Z) : bool :=
  match n with
  | Num (a # b) => (a =? v) && (b =? 1)%positive
  | _ => false
  end.

(** The drawer a call leaves behind, when the call ends. *)
Definition final {A} (o : outcome A) : option ImageDrawer :=
  match o with
  | Done _ d | Raised _ d => Some d
  | NoReturn => None
  end.

(** [m] keeps the suppression depth: entered at a depth that is not
    negative, it ends at the depth it was entered at, and it throws at
    depth 0 only. *)
Definition disciplined {A} (m : M A) : Prop :=
  forall d, 0 <= flushDisablers d ->
    match m d with
    | Done _ d' => flushDisablers d' = flushDisablers d
    | Raised _ d' =>
        flushDisablers d' = flushDisablers d /\ flushDisablers d = 0
    | NoReturn => True
    end.

(** [m] throws nothing but [InvalidColor]. *)
Definition throws_InvalidColor_only {A} (m : M A) : Prop :=
  forall d e d', m d = Raised e d' -> e = InvalidColor.

(** Staging the points of a list, in order, with one color. *)
Definition stage_all (color : Color) (points : list Point)
  (d : ImageDrawer) : ImageDrawer :=
  fold_left (fun d p => setPixel p color d) points d.

(** [f] does nothing but stage a sequence of points with [color]; the
    sequence does not depend on the drawer. *)
Definition stager (color : Color) (f : ImageDrawer -> ImageDrawer) : Prop :=
  exists points, forall d, f d = stage_all color points d.

(** [m], entered at depth 0, returns with the pending writes cleared. *)
Definition clears {A} (m : M A) : Prop :=
  forall d a d',
    flushDisablers d = 0 -> m d = Done a d' -> temporaryBuffer d' = [].

(** The scenario of the specification: a 10 x 10 buffer filled with
    [#000000], then a line from (0, 0) to (9, 9) in [#FFFFFF]. *)
Definition diagonal_scenario : outcome unit :=
  (fill (ColorString "#000000");;
   drawLine (0, 0)%Q (9, 9)%Q (ColorString "#FFFFFF"))
    (new_ImageDrawer (new_Image 10 10)).

Definition white : FullColorArray := (ofZ 255, ofZ 255, ofZ 255, ofZ 255).
Definition black : FullColorArray := (ofZ 0, ofZ 0, ofZ 0, ofZ 255).

(** An image as [new Image] builds it: positive sides and a buffer of
    [width * height * 4] bytes. *)
Definition wf_image (img : Image) : Prop :=
  0 < width img /\ 0 < height img
  /\ Z.of_nat (length (buffer img)) = width img * height img * 4.

Definition is_byte (z : Z) : Prop := 0 <= z <= 255.

(** The four values read at the integer index [i]. *)
Definition load4 (b : list Z) (i : Z) : FullColorArray :=
  (typed_load b (inject_Z (i + 0)), typed_load b (inject_Z (i + 1)),
   typed_load b (inject_Z (i + 2)), typed_load b (inject_Z (i + 3))).

(** The blend in the words of the specification, for a channel [c] of
    the destination, the channel [c2] and the alpha [a2] of the incoming
    color: [round(c * (1 - a2/255) + c2 * (a2/255))]; and the alpha
    [a + a2 * (1 - a2/255)], which the storage rounds to an integer and
    clamps to 255. *)
Definition spec_blend (c c2 a2 : Z) : Z :=
  Math_round
    (inject_Z c * (1 - inject_Z a2 / 255) + inject_Z c2 * (inject_Z a2 / 255)).

Definition spec_blend_alpha (a a2 : Z) : Z :=
  Z.min 255
    (round_half_even (inject_Z a + inject_Z a2 * (1 - inject_Z a2 / 255))).

(** The color [Image.add] hands to [Image.set], from the color read and
    the normalized incoming color. *)
Definition blend (currentColor colorNormalized : FullColorArray)
  : FullColorArray :=
  let alpha := Js.div (snd colorNormalized) (ofZ 255) in
  let alphaComplement := Js.sub (ofZ 1) alpha in
  let '(r, g, b, a) := currentColor in
  let '(r2, g2, b2, a2) := colorNormalized in
  (Math_round_number (Js.add (Js.mul r alphaComplement) (Js.mul r2 alpha)),
   Math_round_number (Js.add (Js.mul g alphaComplement) (Js.mul g2 alpha)),
   Math_round_number (Js.add (Js.mul b alphaComplement) (Js.mul b2 alpha)),
   Js.add a (Js.mul a2 alphaComplement)).

(** The bytes a color is stored as. *)
Definition stored (c : FullColorArray) : FullColorArray :=
  let '(c0, c1, c2, c3) := c in
  (ofZ (ToUint8Clamp c0), ofZ (ToUint8Clamp c1), ofZ (ToUint8Clamp c2),
   ofZ (ToUint8Clamp c3)).

(** What one step of a line stages at [(x0, y0)], as a function of the
    line thickness. *)
Definition line_stage (x0 y0 : Z) (color : Color) (thickness : Q)
  : ImageDrawer -> ImageDrawer :=
  if Qlt_bool 1 thickness then
    circle_loop (fuel_circle (thickness / 2))
      (circle_spans (inject_Z x0) (inject_Z y0) color)
      0 (thickness / 2) (3 - 2 * (thickness / 2))%Q
  else setPixel (inject_Z x0, inject_Z y0) color.

(** The pending writes of one operation: one entry for a key, every key
    a pixel index that is not negative, every color the color of the
    operation. *)
Definition pending_ok (color : Color) (m : list (Z * Color)) : Prop :=
  NoDup (map fst m) /\ Forall (fun e => 0 <= fst e /\ snd e = color) m.

(** The test and the key of [setPixel]. *)
Definition outside (img : Image) (pixel : Point) : bool :=
  Qlt_bool (fst pixel) 0 || Qle_bool (inject_Z (width img)) (fst pixel)
  || Qlt_bool (snd pixel) 0 || Qle_bool (inject_Z (height img)) (snd pixel).

Definition key_of (img : Image) (pixel : Point) : Z :=
  Math_round (snd pixel) * width img + Math_round (fst pixel) + 0.

(** The color a shape operation draws with, and the operations that are
    shapes: all but [fill], which overwrites the buffer directly. *)
Definition op_color (op : DrawOp) : Color :=
  match op with
  | OpLine _ _ c | OpFilledRectangle _ _ c | OpRectangle _ _ c
  | OpCircle _ _ c | OpFilledCircle _ _ c | OpTriangle _ c
  | OpPath _ c | OpBezier _ c _ | OpFill c => c
  end.

Definition is_shape (op : DrawOp) : bool :=
  match op with OpFill _ => false | _ => true end.

(** Entered at a depth of [depth] or more, [m] does not throw and does
    nothing but stage points with [color]. *)
Definition only_stages {A} (depth : Z) (color : Color) (m : M A) : Prop :=
  forall d, depth <= flushDisablers d ->
    m d = NoReturn \/ exists a ps, m d = Done a (stage_all color ps d).

(** ** Definitions used by the further properties *)

(** Every element of the buffer is a byte. *)
Definition bytes_image (img : Image) : Prop := Forall is_byte (buffer img).

(** [img'] has the sides of [img] and a buffer of the same length. *)
Definition same_shape (img img' : Image) : Prop :=
  width img' = width img /\ height img' = height img
  /\ length (buffer img') = length (buffer img).

(** What a flushed entry writes over the color [cur] of its pixel: the
    blend when blending is on, the normalized color itself otherwise. *)
Definition written (blend_on : bool) (cur cn : FullColorArray)
  : FullColorArray :=
  if blend_on then blend cur cn else cn.

(** Some point of [points] is staged by [setPixel] under the key of the
    pixel [(x, y)]: it passes the test of [setPixel] and its key is the
    index of that pixel. *)
Definition hits (img : Image) (points : list Point) (x y : Z) : Prop :=
  exists p, In p points /\ outside img p = false
            /\ key_of img p = y * width img + x.

(** The values a [for] loop gives to its counter, in order. *)
Fixpoint for_le_list (fuel : nat) (i hi : Q) : list Q :=
  match fuel with
  | O => []
  | S fuel' =>
      if Qle_bool i hi then i :: for_le_list fuel' (i + 1)%Q hi else []
  end.

Definition For_list (lo hi : Q) : list Q := for_le_list (fuel_le lo hi) lo hi.

(** The pixels at which the loop of [drawLine] calls its body, in order:
    the loop of [line_loop] with the body left out. *)
Fixpoint line_trace (fuel : nat) (x0 y0 x1 y1 dx dy sx sy err : Z)
  : list (Z * Z) :=
  match fuel with
  | O => []
  | S fuel' =>
      (x0, y0) ::
      if (x0 =? x1) && (y0 =? y1) then []
      else
        let e2 := 2 * err in
        let '(err, x0) :=
          if e2 >? - dy then (err - dy, x0 + sx) else (err, x0) in
        let '(err, y0) :=
          if e2 <? dx then (err + dx, y0 + sy) else (err, y0) in
        line_trace fuel' x0 y0 x1 y1 dx dy sx sy err
  end.

(** The pixels of the line between two pixels, with the setup of
    [drawLine]. *)
Definition line_pixels (x0 y0 x1 y1 : Z) : list (Z * Z) :=
  let dx := Z.abs (x1 - x0) in
  let dy := Z.abs (y1 - y0) in
  let sx := if x0 <? x1 then 1 else -1 in
  let sy := if y0 <? y1 then 1 else -1 in
  let err := dx - dy in
  line_trace (S (Z.to_nat (dx + dy))) x0 y0 x1 y1 dx dy sx sy err.

(** The point of a pixel. *)
Definition point_of (p : Z * Z) : Point := (inject_Z (fst p), inject_Z (snd p)).

(** With [D] the cross product of the direction of a line and the
    vector from a pixel to its end, the pixel is within half a pixel of
    the line along the minor axis, and on it when the line is
    diagonal. *)
Definition near_line (dx dy D : Z) : Prop :=
  (dy < dx /\ - dx <= 2 * D <= dx)
  \/ (dx < dy /\ - dy <= 2 * D <= dy)
  \/ (dx = dy /\ D = 0).

(** The pixel [p] has [rx'] and [ry'] steps left to the end [(x1, y1)],
    no more than [rx] and [ry], and lies near the line. *)
Definition on_the_way (x1 y1 dx dy sx sy rx ry : Z) (p : Z * Z) : Prop :=
  exists rx' ry',
    0 <= rx' <= rx /\ 0 <= ry' <= ry
    /\ x1 - fst p = sx * rx' /\ y1 - snd p = sy * ry'
    /\ near_line dx dy (rx' * dy - ry' * dx).

(** The pixels of the lines of a path from [lastPoint] through
    [points], in the order of [path_loop]. *)
Fixpoint segments (lastPoint : Point) (points : list Point)
  : list (Z * Z) :=
  match points with
  | [] => []
  | point :: rest =>
      line_pixels (Math_round (fst lastPoint)) (Math_round (snd lastPoint))
        (Math_round (fst point)) (Math_round (snd point))
      ++ segments point rest
  end.

(** The two corners [drawBezier] computes with [points.reduce]. *)
Definition reduce_min (p0 : Point) (rest : list Point) : Point :=
  fold_left (fun a b => (Qmin (fst a) (fst b), Qmin (snd a) (snd b))) rest p0.

Definition reduce_max (p0 : Point) (rest : list Point) : Point :=
  fold_left (fun a b => (Qmax (fst a) (fst b), Qmax (snd a) (snd b))) rest p0.

(** The two coordinates of [p] and [q] are equal as rationals. *)
Definition same_point (p q : Point) : Prop :=
  (fst p == fst q)%Q /\ (snd p == snd q)%Q.

(** The values [(x, y)] at which the loop of the two circle algorithms
    calls its body, in order: [circle_loop] with the body left out. *)
Fixpoint circle_list (fuel : nat) (x y d : Q) : list (Q * Q) :=
  match fuel with
  | O => []
  | S fuel' =>
      if Qle_bool x y then
        (x, y) ::
        if Qlt_bool 0 d then
          let y' := (y - 1)%Q in
          circle_list fuel' (x + 1)%Q y' (d + 4 * (x - y') + 10)%Q
        else
          circle_list fuel' (x + 1)%Q y (d + 4 * x + 6)%Q
      else []
  end.

(** The eight points of one round of [drawCircle], in the order staged. *)
Definition circle_points_list (xc yc x y : Q) : list Point :=
  [(xc + x, yc + y); (xc - x, yc + y); (xc + x, yc - y); (xc - x, yc - y);
   (xc + y, yc + x); (xc - y, yc + x); (xc + y, yc - x); (xc - y, yc - x)]%Q.

(** The points of the four spans of one round of [drawFilledCircle]. *)
Definition circle_spans_list (xc yc x y : Q) : list Point :=
  flat_map (fun i => [(i, yc + y); (i, yc - y)]%Q)
    (For_list (xc - x) (xc + x))
  ++ flat_map (fun i => [(i, yc + x); (i, yc - x)]%Q)
       (For_list (xc - y) (xc + y)).

(** The points [lerpPoints] gives to the loop of [drawBezier], in order:
    [bezier_loop] with the lines left out. *)
Fixpoint bezier_list (fuel : nat) (points : list Point) (t step : Q)
  : list Point :=
  match fuel with
  | O => []
  | S fuel' =>
      if Qle_bool t 1
      then lerpPoints points t :: bezier_list fuel' points (t + step)%Q step
      else []
  end.

(** The points a thick line stages around the pixel [p]: those of the
    filled circle of radius [R] that [drawLine] draws there. *)
Definition disc_points (R : Q) (p : Z * Z) : list Point :=
  flat_map
    (fun s =>
       circle_spans_list (inject_Z (fst p)) (inject_Z (snd p)) (fst s) (snd s))
    (circle_list (fuel_circle R) 0 R (3 - 2 * R)).

(** The range of the loops.  The numbers of the source are binary64
    and those of the model are exact; the two agree on every sum,
    difference and comparison of integers below [2 ^ 53] in absolute
    value, and there [i++] gives the next integer.  A coordinate up to
    [2 ^ 50] keeps the counters, the differences and the error term of
    the loops that start from it in that range.  An integer up to
    [2 ^ 24], a radius or a width, keeps in it also its products with
    another one and the decision variable of the circle algorithm,
    which stays below [4 r ^ 2 + 16 r + 16]. *)
Definition safe_coordinate (z : Z) : Prop := Z.abs z <= 2 ^ 50.

Definition safe_factor (z : Z) : Prop := Z.abs z <= 2 ^ 24.

Definition safe_pixel (p : Z * Z) : Prop :=
  safe_coordinate (fst p) /\ safe_coordinate (snd p).

(** A point that [Math.round] takes to such a pixel. *)
Definition safe_point (p : Point) : Prop :=
  safe_pixel (Math_round (fst p), Math_round (snd p)).

(** The number [a / 2 ^ k], which binary64 holds exactly when [a] is an
    integer up to [2 ^ 24] and [0 <= k <= 24]. *)
Definition dyadic (a k : Z) : Q := inject_Z a / inject_Z (2 ^ k).

(** * Properties *)

(** ** The model at work *)

Example Math_round_ties :
  Math_round (5 # 2) = 3 /\ Math_round (- (1 # 2)) = 0
  /\ Math_round (- (2 # 5)) = 0 /\ Math_round (- (3 # 5)) = -1.
Proof. repeat split. Qed.

Example ToUint8Clamp_values :
  ToUint8Clamp (Num (5 # 2)) = 2 /\ ToUint8Clamp (Num (7 # 2)) = 4
  /\ ToUint8Clamp (Num 300) = 255 /\ ToUint8Clamp (Num (- (4))) = 0
  /\ ToUint8Clamp NaN = 0.
Proof. repeat split. Qed.

Example parseInt_values :
  parseInt "ff" (Some 16) = ofZ 255 /\ parseInt "1G" (Some 16) = ofZ 1
  /\ parseInt "GG" (Some 16) = NaN /\ parseInt "0x" (Some 16) = NaN
  /\ parseInt " f" (Some 16) = ofZ 15 /\ parseInt "042" None = ofZ 42.
Proof. repeat split. Qed.

Example toColor_values :
  toColor (ColorArray [ofZ 1; ofZ 2; ofZ 3]) = Returns (ofZ 1, ofZ 2, ofZ 3, ofZ 255)
  /\ toColor (ColorArray [ofZ 1; ofZ 2]) = Throws InvalidColor
  /\ toColor (ColorString "#FF00ff80")
     = Returns (ofZ 255, ofZ 0, ofZ 255, ofZ 128)
  /\ toColor (ColorString "#FFF") = Throws InvalidColor
  /\ toColor (ColorString "hsl(0, 100, 100)")
     = Returns (ofZ 255, ofZ 0, ofZ 0, ofZ 255)
  /\ toColor (ColorString "hsl(0 100 100)") = Throws InvalidColor
  /\ toColor (ColorString "red") = Throws InvalidColor.
Proof. repeat split; vm_compute; reflexivity. Qed.

(** A filled circle of radius 0 stages its center and nothing else. *)
Example filled_circle_of_radius_0 :
  circle_loop (fuel_circle 0) (circle_spans 1 1 (ColorString "#FFFFFF")) 0 0 3
    (new_ImageDrawer (new_Image 4 4))
  = mkDrawer (new_Image 4 4) true 1 [(5, ColorString "#FFFFFF")] 0.
Proof. vm_compute. reflexivity. Qed.

(** ** Color normalization *)

Lemma toColor_throws_InvalidColor (color : Color) (e : Error) :
  toColor color = Throws e -> e = InvalidColor.
Proof.
  unfold toColor. intros H.
  repeat match type of H with
         | context [match ?x with _ => _ end] => destruct x
         end; congruence.
Qed.

(** The formula of the specification gives the pure primaries. *)
Lemma spec_hsl_primaries :
  spec_hsl_to_rgb 0 100 50 = (255, 0, 0)
  /\ spec_hsl_to_rgb 120 100 50 = (0, 255, 0)
  /\ spec_hsl_to_rgb 240 100 50 = (0, 0, 255).
Proof. repeat split; vm_compute; reflexivity. Qed.

(** C1 (refuted on the code).  [toColor] takes the chroma to be
    [L/100 * S/100] and the offset to be [L/100 - C]: at lightness 50 the
    primaries come out at half intensity, 128 instead of 255. *)
Theorem toColor_hsl_primaries_half_intensity :
  toColor (ColorString "hsl(0, 100, 50)")
  = Returns (ofZ 128, ofZ 0, ofZ 0, ofZ 255)
  /\ toColor (ColorString "hsl(120, 100, 50)")
     = Returns (ofZ 0, ofZ 128, ofZ 0, ofZ 255)
  /\ toColor (ColorString "hsl(240, 100, 50)")
     = Returns (ofZ 0, ofZ 0, ofZ 128, ofZ 255).
Proof. repeat split; vm_compute; reflexivity. Qed.

(** *** Hexadecimal strings *)

Lemma forall_ascii (P : ascii -> bool) :
  forallb P all_ascii = true -> forall c, P c = true.
Proof.
  intros H c. rewrite forallb_forall in H. apply H.
  rewrite <- (ascii_nat_embedding c). unfold all_ascii.
  apply in_map, in_seq. pose proof (nat_ascii_bounded c). lia.
Qed.

Lemma is_ofZ_eq (n : number) (v : Z) : is_ofZ n v = true -> n = ofZ v.
Proof.
  destruct n as [[a b] | | |]; unfold is_ofZ; try discriminate.
  intros [Ha Hb]%andb_prop. apply Z.eqb_eq in Ha. apply Pos.eqb_eq in Hb.
  subst. reflexivity.
Qed.

(** [parseInt] reads two base-16 digits as the byte they denote. *)
Lemma parseInt_hex_pair (c1 c2 : ascii) (v : Z) :
  hex_pair_value c1 c2 = Some v ->
  parseInt (String c1 (String c2 EmptyString)) (Some 16) = ofZ v.
Proof.
  pose (check := fun c1 c2 =>
    match hex_pair_value c1 c2 with
    | Some v =>
        is_ofZ (parseInt (String c1 (String c2 EmptyString)) (Some 16)) v
    | None => true
    end).
  assert (Hall : forall a b, check a b = true).
  { intros a. apply forall_ascii. revert a.
    apply (forall_ascii (fun a => forallb (check a) all_ascii)).
    vm_compute. reflexivity. }
  intros Hv. specialize (Hall c1 c2). unfold check in Hall.
  rewrite Hv in Hall. apply is_ofZ_eq, Hall.
Qed.

Lemma hex_pair_value_byte (c1 c2 : ascii) (v : Z) :
  hex_pair_value c1 c2 = Some v -> 0 <= v <= 255.
Proof.
  unfold hex_pair_value, hex_digit_value, digit_value.
  pose proof (nat_ascii_bounded c1). pose proof (nat_ascii_bounded c2).
  unfold code.
  repeat match goal with
         | |- context [if ?b then _ else _] => destruct b eqn:?
         end; intros [= <-]; lia.
Qed.

Lemma toColor_hex6 (c1 c2 c3 c4 c5 c6 : ascii) :
  toColor
    (ColorString
       (String "#" (String c1 (String c2 (String c3 (String c4
          (String c5 (String c6 EmptyString))))))))
  = Returns
      (parseInt (String c1 (String c2 EmptyString)) (Some 16),
       parseInt (String c3 (String c4 EmptyString)) (Some 16),
       parseInt (String c5 (String c6 EmptyString)) (Some 16),
       ofZ 255).
Proof. reflexivity. Qed.

Lemma toColor_hex8 (c1 c2 c3 c4 c5 c6 c7 c8 : ascii) :
  toColor
    (ColorString
       (String "#" (String c1 (String c2 (String c3 (String c4
          (String c5 (String c6 (String c7 (String c8 EmptyString))))))))))
  = Returns
      (parseInt (String c1 (String c2 EmptyString)) (Some 16),
       parseInt (String c3 (String c4 EmptyString)) (Some 16),
       parseInt (String c5 (String c6 EmptyString)) (Some 16),
       parseInt (String c7 (String c8 EmptyString)) (Some 16)).
Proof. reflexivity. Qed.

Lemma startsWith_hash (s : string) :
  startsWith s "#" = true -> exists s', s = String "#" s'.
Proof.
  destruct s as [|c s']; [discriminate|].
  unfold startsWith. cbn [strip_prefix].
  destruct (Ascii.eqb "#" c) eqn:E; [|discriminate].
  apply Ascii.eqb_eq in E. subst. eauto.
Qed.

Lemma toColor_hash_length (s' : string) :
  toColor (ColorString (String "#" s'))
  = if negb (str_length (String "#" s') =? 7)
       && negb (str_length (String "#" s') =? 9)
    then Throws InvalidColor
    else
      let hex := s' in
      Returns
        (parseInt (slice hex 0 2) (Some 16),
         parseInt (slice hex 2 4) (Some 16),
         parseInt (slice hex 4 6) (Some 16),
         if str_length hex =? 8
         then parseInt (slice hex 6 8) (Some 16) else ofZ 255).
Proof. reflexivity. Qed.

(** C6 (counterexample).  A string of the accepted length whose pairs
    are no base-16 digits is not rejected: [parseInt] gives NaN and
    [toColor] returns. *)
Lemma toColor_hex_malformed_returns :
  hex_byte_at "#GGGGGG" 1 = None
  /\ toColor (ColorString "#GGGGGG") = Returns (NaN, NaN, NaN, ofZ 255)
  /\ toColor (ColorString "#GGGGGG") <> Throws InvalidColor.
Proof. repeat split; vm_compute; try reflexivity; discriminate. Qed.

(** C6 (amended).  For a string that starts with [#], [toColor] throws
    exactly when the length is neither 7 nor 9, whatever the characters;
    when it returns, a pair of base-16 digits is read as the byte it
    denotes, the alpha of the 7-character form is 255 and the alpha of
    the 9-character form is the byte of its last pair. *)
Theorem toColor_hex_length_only (s : string) :
  startsWith s "#" = true ->
  (toColor (ColorString s) = Throws InvalidColor
   <-> str_length s <> 7 /\ str_length s <> 9)
  /\ (forall r g b a,
        toColor (ColorString s) = Returns (r, g, b, a) ->
        (forall v, hex_byte_at s 1 = Some v -> r = ofZ v)
        /\ (forall v, hex_byte_at s 3 = Some v -> g = ofZ v)
        /\ (forall v, hex_byte_at s 5 = Some v -> b = ofZ v)
        /\ (str_length s = 7 -> a = ofZ 255)
        /\ (str_length s = 9 ->
            forall v, hex_byte_at s 7 = Some v -> a = ofZ v)).
Proof.
  intros [s' ->]%startsWith_hash. split.
  - rewrite toColor_hash_length.
    destruct (str_length (String "#" s') =? 7) eqn:E7;
      destruct (str_length (String "#" s') =? 9) eqn:E9; simpl;
      rewrite ?Z.eqb_eq, ?Z.eqb_neq in *; split;
      try discriminate; try tauto; try lia.
  - intros r g b a Hret.
    assert (Hlen : str_length (String "#" s') = 7
                   \/ str_length (String "#" s') = 9).
    { rewrite toColor_hash_length in Hret.
      destruct (str_length (String "#" s') =? 7) eqn:E7;
        destruct (str_length (String "#" s') =? 9) eqn:E9; simpl in Hret;
        rewrite ?Z.eqb_eq, ?Z.eqb_neq in *; try discriminate; tauto. }
    unfold str_length in Hlen.
    destruct Hlen as [Hlen | Hlen].
    + destruct s' as [|c1 [|c2 [|c3 [|c4 [|c5 [|c6 [|c7 s']]]]]]];
        simpl in Hlen; try lia.
      rewrite toColor_hex6 in Hret. injection Hret as <- <- <- <-.
      unfold hex_byte_at, str_length; simpl.
      repeat split; try (intros v Hv; apply parseInt_hex_pair, Hv);
        try discriminate; lia.
    + destruct s' as [|c1 [|c2 [|c3 [|c4 [|c5 [|c6 [|c7 [|c8 [|c9 s']]]]]]]]];
        simpl in Hlen; try lia.
      rewrite toColor_hex8 in Hret. injection Hret as <- <- <- <-.
      unfold hex_byte_at, str_length; simpl.
      repeat split; try (intros v Hv; apply parseInt_hex_pair, Hv);
        try discriminate; try lia.
      intros _ v Hv. apply parseInt_hex_pair, Hv.
Qed.

Lemma toColor_hex_length_only_witness :
  startsWith "#FF00ff80" "#" = true
  /\ forall r g b a,
       toColor (ColorString "#FF00ff80") = Returns (r, g, b, a) ->
       r = ofZ 255 /\ a = ofZ 128.
Proof.
  split; [reflexivity|]. intros r g b a Hret.
  destruct (toColor_hex_length_only "#FF00ff80" eq_refl) as [_ H].
  destruct (H r g b a Hret) as (Hr & _ & _ & _ & Ha).
  split; [apply Hr | apply Ha]; reflexivity.
Defined.

(** ** Rounding *)

Lemma Qlt_bool_iff (a b : Q) : Qlt_bool a b = true <-> (a < b)%Q.
Proof.
  unfold Qlt_bool. rewrite negb_true_iff, <- not_true_iff_false, Qle_bool_iff.
  split; [apply Qnot_le_lt | apply Qlt_not_le].
Qed.

Lemma Qlt_bool_false_iff (a b : Q) : Qlt_bool a b = false <-> (b <= a)%Q.
Proof.
  unfold Qlt_bool. rewrite negb_false_iff. apply Qle_bool_iff.
Qed.

Lemma Qle_bool_false_iff (a b : Q) : Qle_bool a b = false <-> (b < a)%Q.
Proof.
  rewrite <- not_true_iff_false, Qle_bool_iff.
  split; [apply Qnot_le_lt | apply Qlt_not_le].
Qed.

Lemma Qfloor_ge_iff (z : Z) (q : Q) : z <= Qfloor q <-> (inject_Z z <= q)%Q.
Proof.
  split; intros H.
  - apply Qle_trans with (inject_Z (Qfloor q)); [|apply Qfloor_le].
    rewrite <- Zle_Qle. exact H.
  - rewrite <- (Qfloor_Z z). apply Qfloor_resp_le, H.
Qed.

Lemma Qfloor_lt_iff (z : Z) (q : Q) : Qfloor q < z <-> (q < inject_Z z)%Q.
Proof.
  split; intros H.
  - apply Qlt_le_trans with (inject_Z (Qfloor q + 1)); [apply Qlt_floor|].
    rewrite <- Zle_Qle. lia.
  - apply Z.lt_nge. rewrite Qfloor_ge_iff. apply Qlt_not_le, H.
Qed.

Lemma Qfloor_unique (z : Z) (q : Q) :
  (inject_Z z <= q)%Q -> (q < inject_Z (z + 1))%Q -> Qfloor q = z.
Proof.
  intros H1%Qfloor_ge_iff H2%Qfloor_lt_iff. lia.
Qed.

Lemma Math_round_inject_Z (z : Z) : Math_round (inject_Z z) = z.
Proof.
  unfold Math_round. apply Qfloor_unique.
  - rewrite <- Qplus_0_r at 1. apply Qplus_le_r. discriminate.
  - rewrite inject_Z_plus. apply Qplus_lt_r. reflexivity.
Qed.

Lemma Math_round_neg_iff (x : Q) : Math_round x < 0 <-> (x < - (1 # 2))%Q.
Proof.
  unfold Math_round. rewrite Qfloor_lt_iff. change (inject_Z 0) with 0%Q.
  split; intros H; lra.
Qed.

Lemma Math_round_ge_iff (z : Z) (x : Q) :
  z <= Math_round x <-> (inject_Z z - (1 # 2) <= x)%Q.
Proof.
  unfold Math_round. rewrite Qfloor_ge_iff. split; intros H; lra.
Qed.

(** ** Writes outside the image *)

(** C2 (counterexample).  [Image.set] tests the bounds after rounding:
    the abscissa -0.4 lies outside [0, W) but rounds to column 0, and
    the pixel (0, 0) is overwritten. *)
Lemma Image_set_rounds_into_range :
  (- (2 # 5) < 0)%Q
  /\ Image_set (new_Image 2 2) (- (2 # 5), 0)%Q (ColorString "#FFFFFF")
     = Returns
         (mkImage 2 2 [255; 255; 255; 255; 0; 0; 0; 0; 0; 0; 0; 0; 0; 0; 0; 0])
  /\ buffer (new_Image 2 2) = [0; 0; 0; 0; 0; 0; 0; 0; 0; 0; 0; 0; 0; 0; 0; 0].
Proof. repeat split. Qed.

(** C2 (amended).  [Image.set] mutates nothing when the rounded point is
    outside the image, that is when [x < -1/2], [x >= W - 1/2],
    [y < -1/2] or [y >= H - 1/2]; a staged write is dropped, so that
    nothing reaches the buffer, when the point as given is outside
    [0, W) x [0, H). *)
Theorem out_of_range_writes_dropped
  (img : Image) (d : ImageDrawer) (x y : Q) (color : Color) :
  ((x < - (1 # 2) \/ inject_Z (width img) - (1 # 2) <= x
    \/ y < - (1 # 2) \/ inject_Z (height img) - (1 # 2) <= y)%Q ->
   forall img', Image_set img (x, y) color = Returns img' -> img' = img)
  /\ ((x < 0 \/ inject_Z (width (image d)) <= x
       \/ y < 0 \/ inject_Z (height (image d)) <= y)%Q ->
      setPixel (x, y) color d = d).
Proof.
  split.
  - intros Hout img'. unfold Image_set.
    destruct (toColor color) as [[[[c0 c1] c2] c3] | e]; [|discriminate].
    cbn [fst snd].
    rewrite <- Math_round_neg_iff, <- !Math_round_ge_iff,
      <- Math_round_neg_iff in Hout.
    destruct ((Math_round x <? 0) || (Math_round x >=? width img)
              || (Math_round y <? 0) || (Math_round y >=? height img)) eqn:E.
    + congruence.
    + rewrite !orb_false_iff in E. destruct E as [[[E1 E2] E3] E4].
      apply Z.ltb_ge in E1, E3. rewrite Z.geb_leb in E2, E4.
      apply Z.leb_gt in E2, E4. lia.
  - intros Hout. unfold setPixel.
    assert (E : Qlt_bool x 0 || Qle_bool (inject_Z (width (image d))) x
                || Qlt_bool y 0 || Qle_bool (inject_Z (height (image d))) y
                = true).
    { rewrite !orb_true_iff, !Qlt_bool_iff, !Qle_bool_iff. tauto. }
    rewrite E. reflexivity.
Qed.

Lemma out_of_range_writes_dropped_witness :
  (forall img',
     Image_set (new_Image 2 2) (- (3 # 5), 0)%Q (ColorString "#FFFFFF")
     = Returns img' -> img' = new_Image 2 2)
  /\ setPixel (- (2 # 5), 0)%Q (ColorString "#FFFFFF")
       (new_ImageDrawer (new_Image 2 2))
     = new_ImageDrawer (new_Image 2 2).
Proof.
  split.
  - apply (proj1 (out_of_range_writes_dropped (new_Image 2 2)
                    (new_ImageDrawer (new_Image 2 2)) (- (3 # 5)) 0
                    (ColorString "#FFFFFF"))).
    left. reflexivity.
  - apply (proj2 (out_of_range_writes_dropped (new_Image 2 2)
                    (new_ImageDrawer (new_Image 2 2)) (- (2 # 5)) 0
                    (ColorString "#FFFFFF"))).
    left. reflexivity.
Defined.

(** ** Staging *)

Section Staging.
Variable color : Color.

Lemma stage_all_app (ps qs : list Point) (d : ImageDrawer) :
  stage_all color (ps ++ qs) d = stage_all color qs (stage_all color ps d).
Proof. unfold stage_all. apply fold_left_app. Qed.

Lemma stager_id : stager color (fun d => d).
Proof. exists []. reflexivity. Qed.

Lemma stager_setPixel (p : Point) : stager color (setPixel p color).
Proof. exists [p]. reflexivity. Qed.

Lemma stager_compose (f g : ImageDrawer -> ImageDrawer) :
  stager color f -> stager color g -> stager color (fun d => g (f d)).
Proof.
  intros [ps Hf] [qs Hg]. exists (ps ++ qs). intros d.
  rewrite stage_all_app, Hf, Hg. reflexivity.
Qed.

Lemma stager_ext (f g : ImageDrawer -> ImageDrawer) :
  (forall d, f d = g d) -> stager color f -> stager color g.
Proof. intros E [ps Hf]. exists ps. intros d. rewrite <- E. apply Hf. Qed.

Lemma stager_for_le (fuel : nat) (i hi : Q)
  (body : Q -> ImageDrawer -> ImageDrawer) :
  (forall j, stager color (body j)) -> stager color (for_le fuel i hi body).
Proof.
  intros Hbody. revert i. induction fuel as [|fuel IH]; intros i.
  - apply stager_id.
  - cbn [for_le]. destruct (Qle_bool i hi).
    + apply (stager_compose (body i) (for_le fuel (i + 1) hi body));
        [apply Hbody | apply IH].
    + apply stager_id.
Qed.

Lemma stager_For (lo hi : Q) (body : Q -> ImageDrawer -> ImageDrawer) :
  (forall j, stager color (body j)) -> stager color (For lo hi body).
Proof. apply stager_for_le. Qed.

Lemma stager_circle_loop (fuel : nat)
  (body : Q -> Q -> ImageDrawer -> ImageDrawer) (x y d : Q) :
  (forall i j, stager color (body i j)) ->
  stager color (circle_loop fuel body x y d).
Proof.
  intros Hbody. revert x y d. induction fuel as [|fuel IH]; intros x y d.
  - apply stager_id.
  - cbn [circle_loop]. destruct (Qle_bool x y); [|apply stager_id].
    destruct (Qlt_bool 0 d).
    + apply (stager_compose (body x y)); [apply Hbody | apply IH].
    + apply (stager_compose (body x y)); [apply Hbody | apply IH].
Qed.

Lemma stager_circle_points (xc yc x y : Q) :
  stager color (circle_points xc yc color x y).
Proof.
  exists [(xc + x, yc + y); (xc - x, yc + y); (xc + x, yc - y);
          (xc - x, yc - y); (xc + y, yc + x); (xc - y, yc + x);
          (xc + y, yc - x); (xc - y, yc - x)]%Q.
  reflexivity.
Qed.

Lemma stager_circle_spans (xc yc x y : Q) :
  stager color (circle_spans xc yc color x y).
Proof.
  unfold circle_spans.
  apply (stager_compose (For _ _ _) (For _ _ _)); apply stager_For; intros j.
  - exists [(j, yc + y); (j, yc - y)]%Q. reflexivity.
  - exists [(j, yc + x); (j, yc - x)]%Q. reflexivity.
Qed.

(** What staging leaves alone. *)
Lemma setPixel_frame (p : Point) (d : ImageDrawer) :
  image (setPixel p color d) = image d
  /\ blending (setPixel p color d) = blending d
  /\ lineThickness (setPixel p color d) = lineThickness d
  /\ flushDisablers (setPixel p color d) = flushDisablers d.
Proof.
  unfold setPixel. destruct p as [px py].
  destruct (_ || _); repeat split.
Qed.

Lemma stage_all_frame (ps : list Point) (d : ImageDrawer) :
  image (stage_all color ps d) = image d
  /\ blending (stage_all color ps d) = blending d
  /\ lineThickness (stage_all color ps d) = lineThickness d
  /\ flushDisablers (stage_all color ps d) = flushDisablers d.
Proof.
  revert d. induction ps as [|p ps IH]; intros d; [repeat split|].
  cbn [stage_all fold_left]. fold (stage_all color ps (setPixel p color d)).
  destruct (IH (setPixel p color d)) as (-> & -> & -> & ->).
  apply setPixel_frame.
Qed.

Lemma stager_frame (f : ImageDrawer -> ImageDrawer) (d : ImageDrawer) :
  stager color f ->
  image (f d) = image d
  /\ blending (f d) = blending d
  /\ lineThickness (f d) = lineThickness d
  /\ flushDisablers (f d) = flushDisablers d.
Proof. intros [ps ->]. apply stage_all_frame. Qed.

End Staging.

(** ** The suppression depth *)

Lemma bind_Done_inv {A B} (m : M A) (k : A -> M B) d b d' :
  bind m k d = Done b d' -> exists a d1, m d = Done a d1 /\ k a d1 = Done b d'.
Proof. unfold bind. destruct (m d); [eauto | discriminate | discriminate]. Qed.

Lemma bind_Raised_inv {A B} (m : M A) (k : A -> M B) d e d' :
  bind m k d = Raised e d' ->
  m d = Raised e d' \/ exists a d1, m d = Done a d1 /\ k a d1 = Raised e d'.
Proof.
  unfold bind. destruct (m d); [eauto | | discriminate].
  intros [= -> ->]. auto.
Qed.

Lemma disciplined_ret {A} (a : A) : disciplined (ret a).
Proof. intros d _. reflexivity. Qed.

Lemma disciplined_NoReturn {A} : disciplined (fun _ => @NoReturn A).
Proof. intros d _. exact I. Qed.

Lemma disciplined_bind {A B} (m : M A) (k : A -> M B) :
  disciplined m -> (forall a, disciplined (k a)) -> disciplined (bind m k).
Proof.
  intros Hm Hk d Hd. unfold bind. specialize (Hm d Hd).
  destruct (m d) as [a d1 | e d1 |]; [| exact Hm | exact I].
  specialize (Hk a d1). rewrite Hm in Hk. exact (Hk Hd).
Qed.

Lemma disciplined_modify (f : ImageDrawer -> ImageDrawer) :
  (forall d, flushDisablers (f d) = flushDisablers d) ->
  disciplined (modify f).
Proof. intros Hf d _. apply Hf. Qed.

Lemma disciplined_stage (color : Color) (f : ImageDrawer -> ImageDrawer) :
  stager color f -> disciplined (modify f).
Proof.
  intros Hf. apply disciplined_modify. intros d.
  apply (stager_frame color f d Hf).
Qed.

Lemma disciplined_flush : disciplined flush.
Proof.
  intros d _. unfold flush.
  destruct (negb (flushDisablers d =? 0)) eqn:E; [reflexivity|].
  apply negb_false_iff, Z.eqb_eq in E.
  destruct (flush_loop _ _ _) as [img [e|]]; cbn; auto.
Qed.

(** A body run between [flushDisablers++] and [flushDisablers--] does not
    throw, and the depth is back where it was. *)
Lemma bracket_outcome {A} (m : M A) (d : ImageDrawer) :
  disciplined m -> 0 <= flushDisablers d ->
  match (incr_flushDisablers;; m;; decr_flushDisablers) d with
  | Done _ d' => flushDisablers d' = flushDisablers d
  | Raised _ _ => False
  | NoReturn => True
  end.
Proof.
  intros Hm Hd. unfold bind, incr_flushDisablers, decr_flushDisablers, modify.
  specialize (Hm (set_flushDisablers (flushDisablers d + 1) d)).
  cbn [flushDisablers set_flushDisablers] in Hm.
  destruct (m _) as [a d1 | e d1 |]; cbn; lia.
Qed.

Lemma disciplined_bracket {A} (m : M A) :
  disciplined m ->
  disciplined (incr_flushDisablers;; m;; decr_flushDisablers).
Proof.
  intros Hm d Hd. pose proof (bracket_outcome m d Hm Hd) as H.
  destruct ((incr_flushDisablers;; m;; decr_flushDisablers) d);
    [exact H | destruct H | exact I].
Qed.

Lemma disciplined_bracket_then {A B} (m : M A) (k : M B) :
  disciplined m -> disciplined k ->
  disciplined (incr_flushDisablers;; m;; decr_flushDisablers;; k).
Proof.
  intros Hm Hk d Hd. pose proof (bracket_outcome m d Hm Hd) as H.
  unfold bind, incr_flushDisablers, decr_flushDisablers, modify in *.
  destruct (m _) as [a d1 | e d1 |]; [| tauto | exact I].
  specialize (Hk (set_flushDisablers (flushDisablers d1 - 1) d1)).
  rewrite H in Hk. exact (Hk Hd).
Qed.

Lemma disciplined_drawCircle center radius color :
  disciplined (drawCircle center radius color).
Proof.
  destruct center as [xc yc]. apply disciplined_bind; intros.
  - apply (disciplined_stage color), stager_circle_loop.
    intros; apply stager_circle_points.
  - apply disciplined_flush.
Qed.

Lemma disciplined_drawFilledCircle center radius color :
  disciplined (drawFilledCircle center radius color).
Proof.
  destruct center as [xc yc]. apply disciplined_bind; intros.
  - apply (disciplined_stage color), stager_circle_loop.
    intros; apply stager_circle_spans.
  - apply disciplined_flush.
Qed.

Lemma disciplined_line_point x0 y0 color :
  disciplined (line_point x0 y0 color).
Proof.
  intros d Hd. unfold line_point. destruct (Qlt_bool 1 (lineThickness d)).
  - apply (disciplined_bracket
             (drawFilledCircle (inject_Z x0, inject_Z y0)
                (lineThickness d / 2) color));
      [apply disciplined_drawFilledCircle | exact Hd].
  - apply (disciplined_stage color); [apply stager_setPixel | exact Hd].
Qed.

Lemma disciplined_line_loop fuel x0 y0 x1 y1 dx dy sx sy err color :
  disciplined (line_loop fuel x0 y0 x1 y1 dx dy sx sy err color).
Proof.
  revert x0 y0 err. induction fuel as [|fuel IH]; intros x0 y0 err.
  - apply disciplined_NoReturn.
  - cbn [line_loop]. apply disciplined_bind; [apply disciplined_line_point|].
    intros _. destruct ((x0 =? x1) && (y0 =? y1)); [apply disciplined_ret|].
    destruct (2 * err >? - dy); destruct (_ <? dx); apply IH.
Qed.

Lemma disciplined_drawLine start end_ color :
  disciplined (drawLine start end_ color).
Proof.
  apply disciplined_bind;
    [apply disciplined_line_loop | intros; apply disciplined_flush].
Qed.

Lemma disciplined_path_loop lastPoint points color :
  disciplined (path_loop lastPoint points color).
Proof.
  revert lastPoint. induction points as [|p ps IH]; intros lastPoint.
  - apply disciplined_ret.
  - cbn [path_loop]. apply disciplined_bind;
      [apply disciplined_drawLine | intros; apply IH].
Qed.

Lemma disciplined_bezier_loop fuel points color t step lastPoint :
  disciplined (bezier_loop fuel points color t step lastPoint).
Proof.
  revert t lastPoint. induction fuel as [|fuel IH]; intros t lastPoint.
  - intros d _. cbn. destruct (Qle_bool t 1); [exact I | reflexivity].
  - cbn [bezier_loop]. destruct (Qle_bool t 1); [|apply disciplined_ret].
    apply disciplined_bind; [apply disciplined_drawLine | intros; apply IH].
Qed.

Lemma disciplined_scanline xStart xEnd y color :
  disciplined (scanline xStart xEnd y color).
Proof.
  unfold scanline.
  destruct (Math_round_number xStart), (Math_round_number xEnd);
    try apply disciplined_ret; try apply disciplined_NoReturn.
  apply (disciplined_stage color), stager_For. intros; apply stager_setPixel.
Qed.

Lemma disciplined_edge_loop fuel y to xStart xEnd dx1 dx2 color :
  disciplined (edge_loop fuel y to xStart xEnd dx1 dx2 color).
Proof.
  revert y xStart xEnd. induction fuel as [|fuel IH]; intros y xStart xEnd.
  - apply disciplined_NoReturn.
  - cbn [edge_loop]. destruct (Qlt_bool y to); [|apply disciplined_ret].
    apply disciplined_bind; [apply disciplined_scanline | intros; apply IH].
Qed.

Lemma disciplined_drawFilledRectangle start end_ color :
  disciplined (drawFilledRectangle start end_ color).
Proof.
  destruct start as [x0 y0], end_ as [x1 y1].
  apply disciplined_bind; [|intros; apply disciplined_flush].
  apply (disciplined_stage color), stager_For. intros y.
  apply stager_For. intros x. apply stager_setPixel.
Qed.

Lemma disciplined_drawRectangle start end_ color :
  disciplined (drawRectangle start end_ color).
Proof.
  destruct start as [x0 y0], end_ as [x1 y1].
  apply disciplined_bind; [|intros _; apply disciplined_bind;
                                      [|intros; apply disciplined_flush]].
  - apply (disciplined_stage color), stager_For. intros x.
    exists [(x, y0); (x, y1)]. reflexivity.
  - apply (disciplined_stage color), stager_For. intros y.
    exists [(x0, y); (x1, y)]. reflexivity.
Qed.

Lemma disciplined_drawTriangle triangle color :
  disciplined (drawTriangle triangle color).
Proof.
  destruct triangle as [[[x0 y0] [x1 y1]] [x2 y2]]. unfold drawTriangle.
  apply disciplined_bind; [apply disciplined_edge_loop|]. intros bounds.
  apply disciplined_bind; [apply disciplined_edge_loop|]. intros _.
  apply disciplined_flush.
Qed.

Lemma disciplined_bezier_steps fuel points color (step : number) p0 :
  disciplined
    (match step with
     | Num s => bezier_loop fuel points color s s p0
     | PInf | NaN => ret tt
     | NInf => fun _ => NoReturn
     end).
Proof.
  destruct step; [apply disciplined_bezier_loop | apply disciplined_ret
                 | apply disciplined_NoReturn | apply disciplined_ret].
Qed.

(** A public operation entered at depth 0 ends at depth 0, whether it
    returns or throws. *)
Lemma run_depth (fuel : nat) (op : DrawOp) (d : ImageDrawer) :
  flushDisablers d = 0 ->
  match run fuel op d with
  | Done _ d' | Raised _ d' => flushDisablers d' = 0
  | NoReturn => True
  end.
Proof.
  intros Hd.
  assert (Htop : forall m : M unit, disciplined m ->
            match m d with
            | Done _ d' | Raised _ d' => flushDisablers d' = 0
            | NoReturn => True
            end).
  { intros m Hm. specialize (Hm d). rewrite Hd in Hm.
    specialize (Hm (Z.le_refl 0)). destruct (m d); tauto. }
  destruct op; cbn [run].
  - apply Htop, disciplined_drawLine.
  - apply Htop, disciplined_drawFilledRectangle.
  - apply Htop, disciplined_drawRectangle.
  - apply Htop, disciplined_drawCircle.
  - apply Htop, disciplined_drawFilledCircle.
  - apply Htop, disciplined_drawTriangle.
  - destruct points as [|p0 [|p1 rest]]; try exact Hd.
    apply Htop. unfold drawPath.
    apply (disciplined_bracket_then (path_loop p0 (p1 :: rest) color) flush);
      [apply disciplined_path_loop | apply disciplined_flush].
  - destruct points as [|p0 [|p1 rest]]; try exact Hd.
    apply Htop. unfold drawBezier.
    destruct (fold_left _ _ _) as [x0 y0]. destruct (fold_left _ _ _) as [x1 y1].
    apply (disciplined_bracket_then _ flush);
      [apply disciplined_bezier_steps | apply disciplined_flush].
  - unfold fill, bind, modify. destruct (toColor color); exact Hd.
Qed.

(** C9.  The suppression depth is back at 0 on every exit path of every
    public drawing operation entered at depth 0: when the operation
    returns and when it throws (an invalid color met by [flush] or by
    [fill], too few points).  Nothing can throw while the depth is
    positive: [flush] is then a no-op, and only [flush], [fill] and the
    checks at entry throw. *)
Theorem flushDisablers_restored_on_every_exit
  (fuel : nat) (op : DrawOp) (d d' : ImageDrawer) :
  flushDisablers d = 0 ->
  final (run fuel op d) = Some d' ->
  flushDisablers d' = 0.
Proof.
  intros Hd Hfinal. pose proof (run_depth fuel op d Hd) as H.
  destruct (run fuel op d); cbn [final] in Hfinal; congruence.
Qed.

(** ** The pending writes *)

Lemma clears_flush : clears flush.
Proof.
  intros d a d' Hd. unfold flush. rewrite Hd. cbn.
  destruct (flush_loop _ _ _) as [img [e|]]; [discriminate|].
  intros [= <- <-]. reflexivity.
Qed.

Lemma clears_bind {A B} (m : M A) (k : A -> M B) :
  disciplined m -> (forall a, clears (k a)) -> clears (bind m k).
Proof.
  intros Hm Hk d b d' Hd (a & d1 & Hmd & Hkd)%bind_Done_inv.
  specialize (Hm d). rewrite Hmd, Hd in Hm.
  apply (Hk a d1 b d'); [apply Hm; lia | exact Hkd].
Qed.

Lemma clears_bracket_then {A B} (m : M A) (k : M B) :
  disciplined m -> clears k ->
  clears (incr_flushDisablers;; m;; decr_flushDisablers;; k).
Proof.
  intros Hm Hk d b d' Hd Hrun.
  assert (H0 : 0 <= flushDisablers d) by lia.
  pose proof (bracket_outcome m d Hm H0) as H.
  unfold bind, incr_flushDisablers, decr_flushDisablers, modify in *.
  destruct (m _) as [a d1 | e d1 |]; try discriminate.
  apply (Hk _ b d' (eq_trans H Hd) Hrun).
Qed.

Lemma clears_then_flush {A} (m : M A) :
  disciplined m -> clears (m;; flush).
Proof.
  intros Hm. apply clears_bind; [exact Hm | intros; apply clears_flush].
Qed.

(** C3 (counterexample).  A line with an invalid color on a fresh drawer:
    [flush] throws at the first entry and the two staged pixels stay in
    the pending-write set. *)
Lemma pending_writes_left_after_throw :
  temporaryBuffer (new_ImageDrawer (new_Image 2 2)) = []
  /\ drawLine (0, 0)%Q (1, 1)%Q (ColorString "red")
       (new_ImageDrawer (new_Image 2 2))
     = Raised InvalidColor
         (mkDrawer (new_Image 2 2) true 1
            [(0, ColorString "red"); (3, ColorString "red")] 0).
Proof. split; reflexivity. Qed.

(** Every public drawing operation that is entered at depth 0 and
    returns has cleared the pending-write set, whatever was pending. *)
Lemma run_clears (fuel : nat) (op : DrawOp) (d d' : ImageDrawer) :
  flushDisablers d = 0 ->
  run fuel op d = Done tt d' ->
  temporaryBuffer d' = [].
Proof.
  intros Hd Hrun.
  pose proof (@clears_then_flush unit) as Hthen.
  revert Hrun. destruct op; cbn [run]; intros Hrun.
  - apply (Hthen _ (disciplined_line_loop _ _ _ _ _ _ _ _ _ _ _) d tt d' Hd Hrun).
  - destruct start as [x0 y0], end_ as [x1 y1].
    refine (Hthen _ _ d tt d' Hd Hrun).
    apply (disciplined_stage color), stager_For. intros y.
    apply stager_For. intros x. apply stager_setPixel.
  - destruct start as [x0 y0], end_ as [x1 y1].
    refine (clears_bind _ _ _ _ d tt d' Hd Hrun).
    + apply (disciplined_stage color), stager_For. intros x.
      exists [(x, y0); (x, y1)]. reflexivity.
    + intros _. apply Hthen.
      apply (disciplined_stage color), stager_For. intros y.
      exists [(x0, y); (x1, y)]. reflexivity.
  - destruct center as [xc yc].
    refine (Hthen _ _ d tt d' Hd Hrun).
    apply (disciplined_stage color), stager_circle_loop.
    intros; apply stager_circle_points.
  - destruct center as [xc yc].
    refine (Hthen _ _ d tt d' Hd Hrun).
    apply (disciplined_stage color), stager_circle_loop.
    intros; apply stager_circle_spans.
  - destruct triangle as [[[x0 y0] [x1 y1]] [x2 y2]].
    refine (clears_bind _ _ _ _ d tt d' Hd Hrun);
      [apply disciplined_edge_loop|].
    intros bounds. cbv zeta.
    apply clears_then_flush, disciplined_edge_loop.
  - destruct points as [|p0 [|p1 rest]]; try discriminate.
    refine (clears_bracket_then _ flush _ _ d tt d' Hd Hrun);
      [apply disciplined_path_loop | apply clears_flush].
  - destruct points as [|p0 [|p1 rest]]; try discriminate.
    unfold drawBezier in Hrun.
    destruct (fold_left _ _ _) as [x0 y0]. destruct (fold_left _ _ _) as [x1 y1].
    refine (clears_bracket_then _ flush _ _ d tt d' Hd Hrun);
      [apply disciplined_bezier_steps | apply clears_flush].
  - unfold fill, bind, modify in Hrun. destruct (toColor color); [|discriminate].
    injection Hrun as <-. reflexivity.
Qed.

Lemma flushDisablers_restored_on_every_exit_witness :
  flushDisablers (new_ImageDrawer (new_Image 2 2)) = 0
  /\ final (run 0 (OpPath [(0, 0); (1, 1)]%Q (ColorString "red"))
             (new_ImageDrawer (new_Image 2 2)))
     = Some (mkDrawer (new_Image 2 2) true 1
               [(0, ColorString "red"); (3, ColorString "red")] 0)
  /\ flushDisablers
       (mkDrawer (new_Image 2 2) true 1
          [(0, ColorString "red"); (3, ColorString "red")] 0) = 0.
Proof.
  split; [reflexivity|]. split; [reflexivity|].
  apply (flushDisablers_restored_on_every_exit 0
           (OpPath [(0, 0); (1, 1)]%Q (ColorString "red"))
           (new_ImageDrawer (new_Image 2 2))); reflexivity.
Defined.

(** ** Errors *)

Lemma Image_set_throws img pixel color e :
  Image_set img pixel color = Throws e -> e = InvalidColor.
Proof.
  unfold Image_set.
  destruct (toColor color) as [[[[c0 c1] c2] c3] | e'] eqn:E.
  - destruct (_ || _); discriminate.
  - intros [= <-]. apply (toColor_throws_InvalidColor color), E.
Qed.

Lemma Image_add_throws img pixel color e :
  Image_add img pixel color = Throws e -> e = InvalidColor.
Proof.
  unfold Image_add. destruct (Image_get img pixel) as [[[r g] b] a].
  destruct (toColor color) as [[[[r2 g2] b2] a2] | e'] eqn:E.
  - apply Image_set_throws.
  - intros [= <-]. apply (toColor_throws_InvalidColor color), E.
Qed.

Lemma flush_loop_throws blend entries img img' e :
  flush_loop blend entries img = (img', Some e) -> e = InvalidColor.
Proof.
  revert img. induction entries as [|[index color] rest IH]; intros img.
  - discriminate.
  - cbn [flush_loop].
    destruct (if blend then _ else _) as [img1 | e1] eqn:E.
    + apply IH.
    + intros [= _ <-]. destruct blend;
        [apply (Image_add_throws _ _ _ _ E) | apply (Image_set_throws _ _ _ _ E)].
Qed.

Lemma only_ret {A} (a : A) : throws_InvalidColor_only (ret a).
Proof. intros d e d'. discriminate. Qed.

Lemma only_NoReturn {A} : throws_InvalidColor_only (fun _ => @NoReturn A).
Proof. intros d e d'. discriminate. Qed.

Lemma only_modify f : throws_InvalidColor_only (modify f).
Proof. intros d e d'. discriminate. Qed.

Lemma only_bind {A B} (m : M A) (k : A -> M B) :
  throws_InvalidColor_only m -> (forall a, throws_InvalidColor_only (k a)) ->
  throws_InvalidColor_only (bind m k).
Proof.
  intros Hm Hk d e d' [H | (a & d1 & _ & H)]%bind_Raised_inv;
    [apply (Hm _ _ _ H) | apply (Hk _ _ _ _ H)].
Qed.

Lemma only_flush : throws_InvalidColor_only flush.
Proof.
  intros d e d'. unfold flush. destruct (negb _); [discriminate|].
  destruct (flush_loop _ _ _) as [img [e1|]] eqn:E; [|discriminate].
  intros [= <- _]. apply (flush_loop_throws _ _ _ _ _ E).
Qed.

Create HintDb throws.
#[local] Hint Resolve only_ret only_NoReturn only_modify only_bind only_flush
  : throws.

Lemma only_drawFilledCircle center radius color :
  throws_InvalidColor_only (drawFilledCircle center radius color).
Proof. destruct center. unfold drawFilledCircle. auto with throws. Qed.

Lemma only_line_point x0 y0 color :
  throws_InvalidColor_only (line_point x0 y0 color).
Proof.
  intros d e d'. unfold line_point. destruct (Qlt_bool 1 (lineThickness d)).
  - assert (Hm : throws_InvalidColor_only
      (incr_flushDisablers;;
       drawFilledCircle (inject_Z x0, inject_Z y0) (lineThickness d / 2) color;;
       decr_flushDisablers)).
    { unfold incr_flushDisablers, decr_flushDisablers.
      pose proof only_drawFilledCircle. auto with throws. }
    apply Hm.
  - discriminate.
Qed.

Lemma only_line_loop fuel x0 y0 x1 y1 dx dy sx sy err color :
  throws_InvalidColor_only (line_loop fuel x0 y0 x1 y1 dx dy sx sy err color).
Proof.
  revert x0 y0 err. induction fuel as [|fuel IH]; intros x0 y0 err.
  - apply only_NoReturn.
  - cbn [line_loop]. apply only_bind; [apply only_line_point|]. intros _.
    destruct ((x0 =? x1) && (y0 =? y1)); [apply only_ret|].
    destruct (2 * err >? - dy); destruct (_ <? dx); apply IH.
Qed.

Lemma only_drawLine start end_ color :
  throws_InvalidColor_only (drawLine start end_ color).
Proof.
  unfold drawLine. pose proof only_line_loop. auto with throws.
Qed.

Lemma only_path_loop lastPoint points color :
  throws_InvalidColor_only (path_loop lastPoint points color).
Proof.
  revert lastPoint. induction points as [|p ps IH]; intros lastPoint.
  - apply only_ret.
  - cbn [path_loop]. apply only_bind; [apply only_drawLine | intros; apply IH].
Qed.

Lemma only_bezier_loop fuel points color t step lastPoint :
  throws_InvalidColor_only (bezier_loop fuel points color t step lastPoint).
Proof.
  revert t lastPoint. induction fuel as [|fuel IH]; intros t lastPoint.
  - intros d e d'. cbn. destruct (Qle_bool t 1); discriminate.
  - cbn [bezier_loop]. destruct (Qle_bool t 1); [|apply only_ret].
    apply only_bind; [apply only_drawLine | intros; apply IH].
Qed.

(** C7.  [drawPath] and [drawBezier] throw the error of invalid points
    exactly when they are given fewer than two points, and they then
    throw at entry: the drawer (pending writes, depth and pixel buffer)
    is the one they were called on. *)
Theorem InvalidPoints_iff_fewer_than_two_points
  (fuel : nat) (points : list Point) (color : Color) (step : option Q)
  (d : ImageDrawer) :
  ((exists d', drawPath points color d = Raised InvalidPoints d')
   <-> (length points < 2)%nat)
  /\ ((exists d', drawBezier fuel points color step d
                  = Raised InvalidPoints d')
      <-> (length points < 2)%nat)
  /\ ((length points < 2)%nat ->
      drawPath points color d = Raised InvalidPoints d
      /\ drawBezier fuel points color step d = Raised InvalidPoints d).
Proof.
  assert (Hfew : (length points < 2)%nat ->
                 drawPath points color d = Raised InvalidPoints d
                 /\ drawBezier fuel points color step d
                    = Raised InvalidPoints d).
  { destruct points as [|p0 [|p1 rest]]; cbn; intros; try lia; auto. }
  repeat split; try (intros H; apply Hfew in H as [H1 H2]; eauto; fail).
  - intros [d' H]. destruct points as [|p0 [|p1 rest]]; cbn; try lia.
    exfalso. cut (InvalidPoints = InvalidColor); [discriminate|].
    revert H. unfold drawPath. generalize d InvalidPoints d'.
    fold (throws_InvalidColor_only
            (incr_flushDisablers;; path_loop p0 (p1 :: rest) color;;
             decr_flushDisablers;; flush)).
    unfold incr_flushDisablers, decr_flushDisablers.
    pose proof only_path_loop. auto with throws.
  - intros [d' H]. destruct points as [|p0 [|p1 rest]]; cbn; try lia.
    exfalso. cut (InvalidPoints = InvalidColor); [discriminate|].
    revert H. unfold drawBezier.
    destruct (fold_left _ _ _) as [x0 y0]. destruct (fold_left _ _ _) as [x1 y1].
    generalize d InvalidPoints d'.
    match goal with
    | |- forall d e d', ?m d = Raised e d' -> _ =>
        fold (throws_InvalidColor_only m)
    end.
    unfold incr_flushDisablers, decr_flushDisablers.
    apply only_bind; [apply only_modify|]. intros _.
    apply only_bind; [|auto with throws].
    destruct (match step with Some s => Num s | None => _ end);
      auto using only_bezier_loop with throws.
  - apply Hfew; assumption.
  - apply Hfew; assumption.
Qed.

Lemma InvalidPoints_iff_fewer_than_two_points_witness :
  (length [(1, 1)%Q] < 2)%nat
  /\ drawPath [(1, 1)%Q] (ColorString "#FFFFFF")
       (new_ImageDrawer (new_Image 2 2))
     = Raised InvalidPoints (new_ImageDrawer (new_Image 2 2))
  /\ drawBezier 0 [(1, 1)%Q] (ColorString "#FFFFFF") None
       (new_ImageDrawer (new_Image 2 2))
     = Raised InvalidPoints (new_ImageDrawer (new_Image 2 2)).
Proof.
  split; [repeat constructor|].
  apply (InvalidPoints_iff_fewer_than_two_points 0 [(1, 1)%Q]
           (ColorString "#FFFFFF") None (new_ImageDrawer (new_Image 2 2))).
  repeat constructor.
Defined.

(** ** Circles of negative radius *)

Lemma flush_nothing_pending (d : ImageDrawer) :
  temporaryBuffer d = [] -> flush d = Done tt d.
Proof.
  intros Hd. unfold flush. destruct (negb _); [reflexivity|].
  rewrite Hd. cbn. destruct d as [img bl th tb fd]. cbn in *. subst tb.
  reflexivity.
Qed.

Lemma circle_loop_negative fuel body (radius d : Q) (dr : ImageDrawer) :
  (radius < 0)%Q -> circle_loop (S fuel) body 0 radius d dr = dr.
Proof.
  intros Hr. cbn [circle_loop].
  apply Qle_bool_false_iff in Hr. rewrite Hr. reflexivity.
Qed.

(** C10 (counterexample).  A negative radius is not always a no-op.  On
    a new 2 x 2 image a line with the invalid color [red] throws in its
    [flush] and leaves its two writes pending.  [drawCircle] and
    [drawFilledCircle] with radius -3 then replay them and throw
    [InvalidColor].  And once a line from (0, 0) to itself has replaced
    the first pending color by the valid [#FFFFFF80], the same two
    calls blend that color onto the pixel (0, 0) once more, changing
    its four bytes, before they throw. *)
Lemma negative_radius_replays_pending_writes :
  drawLine (0, 0)%Q (1, 1)%Q (ColorString "red")
    (new_ImageDrawer (new_Image 2 2))
  = Raised InvalidColor
      (mkDrawer (new_Image 2 2) true 1
         [(0, ColorString "red"); (3, ColorString "red")] 0)
  /\ drawCircle (1, 1)%Q (- (3)) (ColorString "#FFFFFF")
       (mkDrawer (new_Image 2 2) true 1
          [(0, ColorString "red"); (3, ColorString "red")] 0)
     = Raised InvalidColor
         (mkDrawer (new_Image 2 2) true 1
            [(0, ColorString "red"); (3, ColorString "red")] 0)
  /\ drawFilledCircle (1, 1)%Q (- (3)) (ColorString "#FFFFFF")
       (mkDrawer (new_Image 2 2) true 1
          [(0, ColorString "red"); (3, ColorString "red")] 0)
     = Raised InvalidColor
         (mkDrawer (new_Image 2 2) true 1
            [(0, ColorString "red"); (3, ColorString "red")] 0)
  /\ drawLine (0, 0)%Q (0, 0)%Q (ColorString "#FFFFFF80")
       (mkDrawer (new_Image 2 2) true 1
          [(0, ColorString "red"); (3, ColorString "red")] 0)
     = Raised InvalidColor
         (mkDrawer
            (mkImage 2 2
               [128; 128; 128; 64; 0; 0; 0; 0; 0; 0; 0; 0; 0; 0; 0; 0])
            true 1
            [(0, ColorString "#FFFFFF80"); (3, ColorString "red")] 0)
  /\ drawCircle (1, 1)%Q (- (3)) (ColorString "#FFFFFF")
       (mkDrawer
          (mkImage 2 2
             [128; 128; 128; 64; 0; 0; 0; 0; 0; 0; 0; 0; 0; 0; 0; 0])
          true 1
          [(0, ColorString "#FFFFFF80"); (3, ColorString "red")] 0)
     = Raised InvalidColor
         (mkDrawer
            (mkImage 2 2
               [192; 192; 192; 128; 0; 0; 0; 0; 0; 0; 0; 0; 0; 0; 0; 0])
            true 1
            [(0, ColorString "#FFFFFF80"); (3, ColorString "red")] 0)
  /\ drawFilledCircle (1, 1)%Q (- (3)) (ColorString "#FFFFFF")
       (mkDrawer
          (mkImage 2 2
             [128; 128; 128; 64; 0; 0; 0; 0; 0; 0; 0; 0; 0; 0; 0; 0])
          true 1
          [(0, ColorString "#FFFFFF80"); (3, ColorString "red")] 0)
     = Raised InvalidColor
         (mkDrawer
            (mkImage 2 2
               [192; 192; 192; 128; 0; 0; 0; 0; 0; 0; 0; 0; 0; 0; 0; 0])
            true 1
            [(0, ColorString "#FFFFFF80"); (3, ColorString "red")] 0).
Proof. repeat split; vm_compute; reflexivity. Qed.

(** C10 (amended).  With a negative radius the loop of [drawCircle] and
    of [drawFilledCircle] tests [0 <= radius] and is not entered: no
    pixel is staged, and the call is its final [flush] of whatever was
    pending before.  When nothing is pending, or when flushes are
    suppressed, the call returns the drawer as it was, every byte of
    the buffer unchanged, and throws nothing. *)
Theorem negative_radius_only_flushes
  (xc yc radius : Q) (color : Color) (d : ImageDrawer) :
  (radius < 0)%Q ->
  circle_loop (fuel_circle radius) (circle_points xc yc color)
    0 radius (3 - 2 * radius)%Q d = d
  /\ circle_loop (fuel_circle radius) (circle_spans xc yc color)
       0 radius (3 - 2 * radius)%Q d = d
  /\ drawCircle (xc, yc) radius color d = flush d
  /\ drawFilledCircle (xc, yc) radius color d = flush d
  /\ (temporaryBuffer d = [] \/ flushDisablers d <> 0 ->
      drawCircle (xc, yc) radius color d = Done tt d
      /\ drawFilledCircle (xc, yc) radius color d = Done tt d).
Proof.
  intros Hr. unfold drawCircle, drawFilledCircle, bind, modify, fuel_circle.
  rewrite !circle_loop_negative by exact Hr.
  repeat split; try reflexivity.
  all: destruct H as [H | H];
    [apply flush_nothing_pending, H |
     unfold flush; apply Z.eqb_neq in H; rewrite H; reflexivity].
Qed.

Lemma negative_radius_only_flushes_witness :
  (- (3) < 0)%Q
  /\ (temporaryBuffer (new_ImageDrawer (new_Image 4 4)) = []
      \/ flushDisablers (new_ImageDrawer (new_Image 4 4)) <> 0)
  /\ drawCircle (1, 1)%Q (- (3)) (ColorString "#FFFFFF")
       (new_ImageDrawer (new_Image 4 4))
     = Done tt (new_ImageDrawer (new_Image 4 4))
  /\ drawFilledCircle (1, 1)%Q (- (3)) (ColorString "#FFFFFF")
       (new_ImageDrawer (new_Image 4 4))
     = Done tt (new_ImageDrawer (new_Image 4 4)).
Proof.
  split; [reflexivity|]. split; [left; reflexivity|].
  apply (negative_radius_only_flushes 1 1 (- (3)) (ColorString "#FFFFFF")
           (new_ImageDrawer (new_Image 4 4)));
    [reflexivity | left; reflexivity].
Defined.

(** ** The diagonal scenario *)

(** C8.  On a 10 x 10 buffer filled with [#000000], the line from (0, 0)
    to (9, 9) in [#FFFFFF] returns, and afterwards the pixel (x, y) is
    white when [x = y] and black otherwise. *)
Theorem diagonal_line_on_black (x y : Z) :
  0 <= x < 10 -> 0 <= y < 10 ->
  exists d',
    diagonal_scenario = Done tt d'
    /\ Image_get (image d') (inject_Z x, inject_Z y)
       = if x =? y then white else black.
Proof.
  intros Hx Hy. eexists. split; [vm_compute; reflexivity|].
  assert (Ex : x = 0 \/ x = 1 \/ x = 2 \/ x = 3 \/ x = 4 \/ x = 5 \/ x = 6
               \/ x = 7 \/ x = 8 \/ x = 9) by lia.
  assert (Ey : y = 0 \/ y = 1 \/ y = 2 \/ y = 3 \/ y = 4 \/ y = 5 \/ y = 6
               \/ y = 7 \/ y = 8 \/ y = 9) by lia.
  clear Hx Hy.
  repeat (destruct Ex as [-> | Ex]); try subst x;
    repeat (destruct Ey as [-> | Ey]); try subst y;
    vm_compute; reflexivity.
Qed.

Lemma diagonal_line_on_black_witness :
  (exists d',
     diagonal_scenario = Done tt d'
     /\ Image_get (image d') (inject_Z 3, inject_Z 3) = white)
  /\ (exists d',
        diagonal_scenario = Done tt d'
        /\ Image_get (image d') (inject_Z 3, inject_Z 4) = black).
Proof.
  split.
  - apply (diagonal_line_on_black 3 3); lia.
  - apply (diagonal_line_on_black 3 4); lia.
Defined.

(** ** Reading and writing pixels *)

Lemma typed_load_Qeq (b : list Z) (i j : Q) :
  (i == j)%Q -> typed_load b i = typed_load b j.
Proof.
  intros E. unfold typed_load. rewrite (Qfloor_comp _ _ E).
  assert (Eb : Qeq_bool (inject_Z (Qfloor j)) i
               = Qeq_bool (inject_Z (Qfloor j)) j).
  { destruct (Qeq_bool (inject_Z (Qfloor j)) j) eqn:Ej.
    - apply Qeq_bool_iff. apply Qeq_bool_iff in Ej. rewrite Ej, E. reflexivity.
    - apply not_true_iff_false. intros Ei%Qeq_bool_iff.
      apply not_true_iff_false in Ej. apply Ej, Qeq_bool_iff.
      rewrite Ei. exact E. }
  rewrite Eb. reflexivity.
Qed.

Lemma typed_load_Z (b : list Z) (k : Z) :
  0 <= k ->
  typed_load b (inject_Z k)
  = match b !! Z.to_nat k with Some v => ofZ v | None => NaN end.
Proof.
  intros Hk. unfold typed_load. rewrite Qfloor_Z.
  assert (E : Qeq_bool (inject_Z k) (inject_Z k) = true)
    by (apply Qeq_bool_iff; reflexivity).
  rewrite E. apply Z.leb_le in Hk. rewrite Hk. reflexivity.
Qed.

Lemma index_Qeq (W x y k : Z) :
  ((inject_Z y * inject_Z W + inject_Z x) * 4 + inject_Z k
   == inject_Z ((y * W + x) * 4 + k))%Q.
Proof.
  repeat (rewrite inject_Z_plus || rewrite inject_Z_mult). reflexivity.
Qed.

Lemma Image_get_Z (img : Image) (x y : Z) :
  Image_get img (inject_Z x, inject_Z y)
  = load4 (buffer img) ((y * width img + x) * 4).
Proof.
  unfold Image_get, load4. pose proof (index_Qeq (width img) x y) as E.
  rewrite <- (typed_load_Qeq _ _ _ (E 0)), <- (typed_load_Qeq _ _ _ (E 1)),
    <- (typed_load_Qeq _ _ _ (E 2)), <- (typed_load_Qeq _ _ _ (E 3)).
  reflexivity.
Qed.

Lemma typed_store_length (b : list Z) (i : Z) (v : number) :
  length (typed_store b i v) = length b.
Proof. unfold typed_store. destruct (0 <=? i); [apply length_insert | reflexivity]. Qed.

Lemma typed_load_store_same (b : list Z) (i : Z) (v : number) :
  0 <= i < Z.of_nat (length b) ->
  typed_load (typed_store b i v) (inject_Z i) = ofZ (ToUint8Clamp v).
Proof.
  intros Hi. rewrite typed_load_Z by lia. unfold typed_store.
  destruct (0 <=? i) eqn:E; [|lia].
  rewrite list_lookup_insert_eq by lia. reflexivity.
Qed.

Lemma typed_load_store_other (b : list Z) (i j : Z) (v : number) :
  0 <= j -> i <> j ->
  typed_load (typed_store b i v) (inject_Z j) = typed_load b (inject_Z j).
Proof.
  intros Hj Hij. rewrite !typed_load_Z by lia. unfold typed_store.
  destruct (0 <=? i) eqn:E; [|reflexivity].
  rewrite list_lookup_insert_ne by lia. reflexivity.
Qed.

Lemma typed_set4_length (b : list Z) (i : Z) (c : FullColorArray) :
  length (typed_set4 b i c) = length b.
Proof.
  destruct c as [[[c0 c1] c2] c3]. unfold typed_set4.
  rewrite !typed_store_length. reflexivity.
Qed.

Lemma load4_set4_same (b : list Z) (i : Z) (c0 c1 c2 c3 : number) :
  0 <= i -> i + 3 < Z.of_nat (length b) ->
  load4 (typed_set4 b i (c0, c1, c2, c3)) i
  = (ofZ (ToUint8Clamp c0), ofZ (ToUint8Clamp c1),
     ofZ (ToUint8Clamp c2), ofZ (ToUint8Clamp c3)).
Proof.
  intros H0 H3. unfold load4, typed_set4.
  repeat f_equal.
  - rewrite !typed_load_store_other by lia.
    apply typed_load_store_same. lia.
  - rewrite !typed_load_store_other by lia.
    apply typed_load_store_same. rewrite !typed_store_length. lia.
  - rewrite !typed_load_store_other by lia.
    apply typed_load_store_same. rewrite !typed_store_length. lia.
  - apply typed_load_store_same. rewrite !typed_store_length. lia.
Qed.

Lemma load4_set4_other (b : list Z) (i j : Z) (c : FullColorArray) :
  0 <= j -> (j + 3 < i \/ i + 3 < j) ->
  load4 (typed_set4 b i c) j = load4 b j.
Proof.
  intros H0 Hij. destruct c as [[[c0 c1] c2] c3]. unfold load4, typed_set4.
  f_equal; [f_equal; [f_equal|]|];
    rewrite !typed_load_store_other by lia; reflexivity.
Qed.

(** [Image.set] on a pixel of the image. *)
Lemma Image_set_in_range (img : Image) (x y : Z) (color : Color)
  (c : FullColorArray) :
  0 <= x < width img -> 0 <= y < height img ->
  toColor color = Returns c ->
  Image_set img (inject_Z x, inject_Z y) color
  = Returns
      (mkImage (width img) (height img)
         (typed_set4 (buffer img) ((y * width img + x) * 4) c)).
Proof.
  intros Hx Hy Hc. unfold Image_set. rewrite Hc.
  destruct c as [[[c0 c1] c2] c3]. cbn [fst snd].
  rewrite !Math_round_inject_Z.
  assert (E : (x <? 0) || (x >=? width img) || (y <? 0) || (y >=? height img)
              = false).
  { rewrite !orb_false_iff, !Z.geb_leb, !Z.ltb_ge, !Z.leb_gt. lia. }
  rewrite E. reflexivity.
Qed.

(** [Image.set] beside the image. *)
Lemma Image_set_out_of_range (img : Image) (x y : Z) (color : Color)
  (c : FullColorArray) :
  ~ (0 <= x < width img /\ 0 <= y < height img) ->
  toColor color = Returns c ->
  Image_set img (inject_Z x, inject_Z y) color = Returns img.
Proof.
  intros Hout Hc. unfold Image_set. rewrite Hc.
  destruct c as [[[c0 c1] c2] c3]. cbn [fst snd].
  rewrite !Math_round_inject_Z.
  assert (E : (x <? 0) || (x >=? width img) || (y <? 0) || (y >=? height img)
              = true).
  { rewrite !orb_true_iff, !Z.geb_leb, !Z.ltb_lt, !Z.leb_le. lia. }
  rewrite E. reflexivity.
Qed.

Lemma pixel_index_bounds (img : Image) (x y : Z) :
  wf_image img -> 0 <= x < width img -> 0 <= y < height img ->
  0 <= (y * width img + x) * 4
  /\ (y * width img + x) * 4 + 3 < Z.of_nat (length (buffer img)).
Proof. intros (HW & HH & ->) Hx Hy. nia. Qed.

(** ** Blending *)

Lemma Image_add_blend (img : Image) (pixel : Point) (color : Color)
  (cn : FullColorArray) :
  toColor color = Returns cn ->
  exists r3 g3 b3 a3,
    blend (Image_get img pixel) cn = (r3, g3, b3, a3)
    /\ Image_add img pixel color
       = Image_set img pixel (ColorArray [r3; g3; b3; a3]).
Proof.
  intros Hc. unfold Image_add, blend. rewrite Hc.
  destruct (Image_get img pixel) as [[[r g] b] a].
  destruct cn as [[[r2 g2] b2] a2]. cbn [snd].
  do 4 eexists. split; reflexivity.
Qed.

(** [Image.add] on a pixel of the image: the pixel becomes the stored
    blend of what it held, every other byte stays. *)
Lemma Image_add_in_range (img : Image) (x y : Z) (color : Color)
  (cn : FullColorArray) :
  0 <= x < width img -> 0 <= y < height img ->
  toColor color = Returns cn ->
  Image_add img (inject_Z x, inject_Z y) color
  = Returns
      (mkImage (width img) (height img)
         (typed_set4 (buffer img) ((y * width img + x) * 4)
            (blend (Image_get img (inject_Z x, inject_Z y)) cn))).
Proof.
  intros Hx Hy Hc.
  destruct (Image_add_blend img (inject_Z x, inject_Z y) color cn Hc)
    as (r3 & g3 & b3 & a3 & -> & ->).
  apply Image_set_in_range; [exact Hx | exact Hy | reflexivity].
Qed.

Lemma Image_add_out_of_range (img : Image) (x y : Z) (color : Color)
  (cn : FullColorArray) :
  ~ (0 <= x < width img /\ 0 <= y < height img) ->
  toColor color = Returns cn ->
  Image_add img (inject_Z x, inject_Z y) color = Returns img.
Proof.
  intros Hout Hc.
  destruct (Image_add_blend img (inject_Z x, inject_Z y) color cn Hc)
    as (r3 & g3 & b3 & a3 & _ & ->).
  eapply Image_set_out_of_range; [exact Hout | reflexivity].
Qed.

Lemma inject_Z_byte (z : Z) : is_byte z -> (0 <= inject_Z z <= 255)%Q.
Proof.
  intros [H0 H255]. split.
  - change 0%Q with (inject_Z 0). rewrite <- Zle_Qle. exact H0.
  - change 255%Q with (inject_Z 255). rewrite <- Zle_Qle. exact H255.
Qed.

Lemma round_half_even_bounds (q : Q) :
  Qfloor q <= round_half_even q <= Qfloor q + 1.
Proof.
  unfold round_half_even. destruct (_ ?= _)%Q; [destruct (Z.even _)| |]; lia.
Qed.

Lemma round_half_even_inject_Z (z : Z) : round_half_even (inject_Z z) = z.
Proof.
  unfold round_half_even. rewrite Qfloor_Z.
  assert (E : (inject_Z z - inject_Z z ?= 1 # 2)%Q = Lt).
  { rewrite <- Qlt_alt. lra. }
  rewrite E. reflexivity.
Qed.

Lemma ToUint8Clamp_byte (z : Z) : is_byte z -> ToUint8Clamp (ofZ z) = z.
Proof.
  intros [H0 H255]. unfold ToUint8Clamp, ofZ.
  destruct (Qle_bool (inject_Z z) 0) eqn:E0.
  - apply Qle_bool_iff in E0. change 0%Q with (inject_Z 0) in E0.
    rewrite <- Zle_Qle in E0. lia.
  - destruct (Qle_bool 255 (inject_Z z)) eqn:E255.
    + apply Qle_bool_iff in E255. change 255%Q with (inject_Z 255) in E255.
      rewrite <- Zle_Qle in E255. lia.
    + apply round_half_even_inject_Z.
Qed.

(** Storing a number that is not negative rounds it to an integer and
    clamps it to 255. *)
Lemma ToUint8Clamp_nonneg (q : Q) :
  (0 <= q)%Q -> ToUint8Clamp (Num q) = Z.min 255 (round_half_even q).
Proof.
  intros Hq. unfold ToUint8Clamp.
  pose proof (round_half_even_bounds q) as Hb.
  destruct (Qle_bool q 0) eqn:E0.
  - apply Qle_bool_iff in E0.
    assert (Eq : (q == inject_Z 0)%Q) by (apply Qle_antisym; assumption).
    unfold round_half_even. rewrite (Qfloor_comp _ _ Eq), Qfloor_Z.
    assert (E : (q - inject_Z 0 ?= 1 # 2)%Q = Lt).
    { rewrite <- Qlt_alt. change (inject_Z 0) with 0%Q in *. lra. }
    rewrite E. reflexivity.
  - destruct (Qle_bool 255 q) eqn:E255.
    + apply Qle_bool_iff in E255. change 255%Q with (inject_Z 255) in E255.
      apply Qfloor_ge_iff in E255. lia.
    + apply Qle_bool_false_iff in E255. change 255%Q with (inject_Z 255) in E255.
      apply Qfloor_lt_iff in E255. lia.
Qed.

Lemma Math_round_Qeq (p q : Q) : (p == q)%Q -> Math_round p = Math_round q.
Proof. intros E. unfold Math_round. apply Qfloor_comp. rewrite E. reflexivity. Qed.

Lemma spec_blend_byte (c c2 a2 : Z) :
  is_byte c -> is_byte c2 -> is_byte a2 -> is_byte (spec_blend c c2 a2).
Proof.
  intros Hc%inject_Z_byte Hc2%inject_Z_byte Ha%inject_Z_byte.
  unfold spec_blend, Math_round, is_byte.
  set (C := inject_Z c) in *. set (C2 := inject_Z c2) in *.
  set (A := inject_Z a2) in *.
  assert (Hq : (0 <= C * (1 - A / 255) + C2 * (A / 255) <= 255)%Q).
  { set (al := (A / 255)%Q).
    assert (Hal : (0 <= al <= 1)%Q).
    { unfold al. split;
        [apply Qle_shift_div_l | apply Qle_shift_div_r]; try reflexivity; lra. }
    clearbody al. nra. }
  split.
  - apply Qfloor_ge_iff. change (inject_Z 0) with 0%Q. lra.
  - apply Z.lt_succ_r. apply Qfloor_lt_iff.
    change (inject_Z (Z.succ 255)) with 256%Q. lra.
Qed.

Lemma spec_blend_alpha_0 (c c2 : Z) : spec_blend c c2 0 = c.
Proof.
  unfold spec_blend. rewrite <- (Math_round_inject_Z c) at 2.
  apply Math_round_Qeq. change (inject_Z 0) with 0%Q. field.
Qed.

Lemma blend_bytes (r g b a r2 g2 b2 a2 : Z) :
  blend (ofZ r, ofZ g, ofZ b, ofZ a) (ofZ r2, ofZ g2, ofZ b2, ofZ a2)
  = (ofZ (spec_blend r r2 a2), ofZ (spec_blend g g2 a2),
     ofZ (spec_blend b b2 a2),
     Num (inject_Z a + inject_Z a2 * (1 - inject_Z a2 / 255))).
Proof. reflexivity. Qed.

Lemma blend_alpha_nonneg (a a2 : Z) :
  is_byte a -> is_byte a2 ->
  (0 <= inject_Z a + inject_Z a2 * (1 - inject_Z a2 / 255))%Q.
Proof.
  intros Ha%inject_Z_byte Ha2%inject_Z_byte.
  set (A := inject_Z a) in *. set (A2 := inject_Z a2) in *.
  set (al := (A2 / 255)%Q).
  assert (Hal : (0 <= al <= 1)%Q).
  { unfold al. split;
      [apply Qle_shift_div_l | apply Qle_shift_div_r]; try reflexivity; lra. }
  clearbody al. nra.
Qed.

(** C5.  On a pixel of the image that holds the bytes (r, g, b, a), with
    an incoming color that normalizes to the bytes (r2, g2, b2, a2),
    [Image.add] returns and the pixel then holds
    [round(r * (1 - a2/255) + r2 * (a2/255))], likewise for green and
    blue, and the alpha [a + a2 * (1 - a2/255)] as the byte array stores
    it, rounded to an integer and clamped to 255.  With [a2 = 0] the
    three color channels are the ones the pixel held. *)
Theorem Image_add_stores_blend
  (img : Image) (x y : Z) (color : Color) (r g b a r2 g2 b2 a2 : Z) :
  wf_image img ->
  0 <= x < width img -> 0 <= y < height img ->
  Image_get img (inject_Z x, inject_Z y) = (ofZ r, ofZ g, ofZ b, ofZ a) ->
  is_byte r -> is_byte g -> is_byte b -> is_byte a ->
  toColor color = Returns (ofZ r2, ofZ g2, ofZ b2, ofZ a2) ->
  is_byte r2 -> is_byte g2 -> is_byte b2 -> is_byte a2 ->
  exists img',
    Image_add img (inject_Z x, inject_Z y) color = Returns img'
    /\ Image_get img' (inject_Z x, inject_Z y)
       = (ofZ (spec_blend r r2 a2), ofZ (spec_blend g g2 a2),
          ofZ (spec_blend b b2 a2), ofZ (spec_blend_alpha a a2))
    /\ (a2 = 0 ->
        exists a', Image_get img' (inject_Z x, inject_Z y)
                   = (ofZ r, ofZ g, ofZ b, a')).
Proof.
  intros Hwf Hx Hy Hget Hr Hg Hb Ha Hc Hr2 Hg2 Hb2 Ha2.
  destruct (pixel_index_bounds img x y Hwf Hx Hy) as [Hi0 Hi3].
  eexists. split; [apply (Image_add_in_range img x y color _ Hx Hy Hc)|].
  assert (Hafter :
    Image_get
      (mkImage (width img) (height img)
         (typed_set4 (buffer img) ((y * width img + x) * 4)
            (blend (Image_get img (inject_Z x, inject_Z y))
               (ofZ r2, ofZ g2, ofZ b2, ofZ a2))))
      (inject_Z x, inject_Z y)
    = (ofZ (spec_blend r r2 a2), ofZ (spec_blend g g2 a2),
       ofZ (spec_blend b b2 a2), ofZ (spec_blend_alpha a a2))).
  { rewrite Image_get_Z, Hget, blend_bytes. cbn [buffer width].
    rewrite load4_set4_same by assumption.
    rewrite !ToUint8Clamp_byte by (apply spec_blend_byte; assumption).
    rewrite ToUint8Clamp_nonneg by (apply blend_alpha_nonneg; assumption).
    reflexivity. }
  split; [exact Hafter|].
  intros ->. rewrite Hafter, !spec_blend_alpha_0. eauto.
Qed.

Lemma Image_add_stores_blend_witness :
  exists img',
    Image_add (mkImage 1 1 [10; 20; 30; 40]) (inject_Z 0, inject_Z 0)
      (ColorString "#FF000080") = Returns img'
    /\ Image_get img' (inject_Z 0, inject_Z 0)
       = (ofZ (spec_blend 10 255 128), ofZ (spec_blend 20 0 128),
          ofZ (spec_blend 30 0 128), ofZ (spec_blend_alpha 40 128))
    /\ (128 = 0 ->
        exists a', Image_get img' (inject_Z 0, inject_Z 0)
                   = (ofZ 10, ofZ 20, ofZ 30, a')).
Proof.
  apply (Image_add_stores_blend (mkImage 1 1 [10; 20; 30; 40]) 0 0
           (ColorString "#FF000080") 10 20 30 40 255 0 0 128);
    try reflexivity; unfold wf_image, is_byte; cbn; lia.
Defined.

(** ** Staging twice *)

Lemma map_set_idem (k : Z) (v : Color) (m : list (Z * Color)) :
  map_set k v (map_set k v m) = map_set k v m.
Proof.
  induction m as [|[k' v'] m IH]; cbn.
  - rewrite Z.eqb_refl. reflexivity.
  - destruct (k =? k') eqn:E; cbn; rewrite ?Z.eqb_refl, ?E, ?IH; reflexivity.
Qed.

Lemma map_set_covered (k q : Z) (v : Color) (m : list (Z * Color)) :
  map_set k v m = m -> map_set k v (map_set q v m) = map_set q v m.
Proof.
  induction m as [|[k' v'] m IH]; cbn [map_set]; [discriminate|].
  destruct (k =? k') eqn:Ek, (q =? k') eqn:Eq; cbn [map_set]; intros H.
  - apply Z.eqb_eq in Ek, Eq. subst. rewrite Z.eqb_refl. reflexivity.
  - rewrite Ek. injection H as -> ->. reflexivity.
  - apply Z.eqb_eq in Eq. subst q. rewrite Ek. injection H as ->.
    reflexivity.
  - rewrite Ek. injection H as H. rewrite IH by exact H. reflexivity.
Qed.

Section StagingTwice.
Variable color : Color.

Lemma setPixel_eq (p : Point) (d : ImageDrawer) :
  setPixel p color d
  = if outside (image d) p then d
    else set_temporaryBuffer
           (map_set (key_of (image d) p) color (temporaryBuffer d)) d.
Proof. destruct p as [px py]. reflexivity. Qed.

Lemma setPixel_idem (p : Point) (d : ImageDrawer) :
  setPixel p color (setPixel p color d) = setPixel p color d.
Proof.
  rewrite (setPixel_eq p d).
  destruct (outside (image d) p) eqn:E; rewrite setPixel_eq;
    cbn [image set_temporaryBuffer temporaryBuffer]; rewrite E;
    [reflexivity|].
  unfold set_temporaryBuffer. cbn. rewrite map_set_idem. reflexivity.
Qed.

Lemma setPixel_covered (p q : Point) (d : ImageDrawer) :
  setPixel p color d = d ->
  setPixel p color (setPixel q color d) = setPixel q color d.
Proof.
  rewrite (setPixel_eq p d), (setPixel_eq q d).
  destruct (outside (image d) q) eqn:Eq;
    [rewrite setPixel_eq; tauto|].
  rewrite setPixel_eq. cbn [image set_temporaryBuffer temporaryBuffer].
  destruct (outside (image d) p) eqn:Ep; [reflexivity|].
  destruct d as [img bl th tb fd]. unfold set_temporaryBuffer. cbn.
  intros [= H]. rewrite map_set_covered by exact H. reflexivity.
Qed.

Lemma stage_all_covered (ps : list Point) (p : Point) (d : ImageDrawer) :
  setPixel p color d = d ->
  setPixel p color (stage_all color ps d) = stage_all color ps d.
Proof.
  revert d. induction ps as [|q ps IH]; intros d H; [exact H|].
  cbn [stage_all fold_left]. apply IH, setPixel_covered, H.
Qed.

Lemma stage_all_covers (ps : list Point) (p : Point) (d : ImageDrawer) :
  In p ps -> setPixel p color (stage_all color ps d) = stage_all color ps d.
Proof.
  revert d. induction ps as [|q ps IH]; intros d; [intros []|].
  intros [-> | Hin]; cbn [stage_all fold_left].
  - apply stage_all_covered, setPixel_idem.
  - apply IH, Hin.
Qed.

Lemma stage_all_nothing_new (ps : list Point) (d : ImageDrawer) :
  (forall p, In p ps -> setPixel p color d = d) -> stage_all color ps d = d.
Proof.
  induction ps as [|q ps IH]; intros H; [reflexivity|].
  cbn [stage_all fold_left]. rewrite (H q) by (left; reflexivity).
  apply IH. intros p Hp. apply H. right. exact Hp.
Qed.

Lemma stage_all_idem (ps : list Point) (d : ImageDrawer) :
  stage_all color ps (stage_all color ps d) = stage_all color ps d.
Proof. apply stage_all_nothing_new. intros p Hp. apply stage_all_covers, Hp. Qed.

Lemma stager_idem (f : ImageDrawer -> ImageDrawer) (d : ImageDrawer) :
  stager color f -> f (f d) = f d.
Proof. intros [ps Hf]. rewrite !Hf. apply stage_all_idem. Qed.

Lemma setPixel_set_flushDisablers (p : Point) (n : Z) (d : ImageDrawer) :
  setPixel p color (set_flushDisablers n d)
  = set_flushDisablers n (setPixel p color d).
Proof.
  rewrite !setPixel_eq. cbn [image set_flushDisablers temporaryBuffer].
  destruct (outside (image d) p); reflexivity.
Qed.

Lemma stage_all_set_flushDisablers (ps : list Point) (n : Z) (d : ImageDrawer) :
  stage_all color ps (set_flushDisablers n d)
  = set_flushDisablers n (stage_all color ps d).
Proof.
  revert d. induction ps as [|p ps IH]; intros d; [reflexivity|].
  cbn [stage_all fold_left]. rewrite setPixel_set_flushDisablers. apply IH.
Qed.

Lemma stager_line_stage (x0 y0 : Z) (thickness : Q) :
  stager color (line_stage x0 y0 color thickness).
Proof.
  unfold line_stage. destruct (Qlt_bool 1 thickness).
  - apply stager_circle_loop. intros; apply stager_circle_spans.
  - apply stager_setPixel.
Qed.

End StagingTwice.

(** ** Lines under suppression *)

Lemma flush_suppressed (d : ImageDrawer) :
  flushDisablers d <> 0 -> flush d = Done tt d.
Proof.
  intros H. unfold flush. apply Z.eqb_neq in H. rewrite H. reflexivity.
Qed.

Lemma set_flushDisablers_back (n : Z) (d : ImageDrawer) :
  set_flushDisablers (flushDisablers d) (set_flushDisablers n d) = d.
Proof. destruct d. reflexivity. Qed.

(** Under suppression a filled circle only stages. *)
Lemma bracket_stage (color : Color) (f : ImageDrawer -> ImageDrawer)
  (d : ImageDrawer) :
  stager color f -> 0 <= flushDisablers d ->
  (incr_flushDisablers;; (modify f;; flush);; decr_flushDisablers) d
  = Done tt (f d).
Proof.
  intros [ps Hf] Hd.
  unfold bind, incr_flushDisablers, decr_flushDisablers, modify.
  rewrite !Hf, stage_all_set_flushDisablers.
  destruct (stage_all_frame color ps d) as (_ & _ & _ & Hfd).
  rewrite flush_suppressed by (cbn [flushDisablers set_flushDisablers]; lia).
  f_equal. cbn [flushDisablers set_flushDisablers].
  replace (flushDisablers d + 1 - 1) with (flushDisablers d) by lia.
  rewrite <- Hfd. destruct (stage_all color ps d); reflexivity.
Qed.

Lemma line_point_suppressed (x0 y0 : Z) (color : Color) (d : ImageDrawer) :
  0 <= flushDisablers d ->
  line_point x0 y0 color d
  = Done tt (line_stage x0 y0 color (lineThickness d) d).
Proof.
  intros Hd. unfold line_point, line_stage.
  destruct (Qlt_bool 1 (lineThickness d)); [|reflexivity].
  apply (bracket_stage color); [|exact Hd].
  apply stager_circle_loop. intros; apply stager_circle_spans.
Qed.

Lemma line_stage_frame x0 y0 color thickness d :
  image (line_stage x0 y0 color thickness d) = image d
  /\ blending (line_stage x0 y0 color thickness d) = blending d
  /\ lineThickness (line_stage x0 y0 color thickness d) = lineThickness d
  /\ flushDisablers (line_stage x0 y0 color thickness d) = flushDisablers d.
Proof. apply (stager_frame color), stager_line_stage. Qed.

(** A line that returns has staged its end point last. *)
Lemma line_loop_ends fuel x0 y0 x1 y1 dx dy sx sy err color d d' :
  0 <= flushDisablers d ->
  line_loop fuel x0 y0 x1 y1 dx dy sx sy err color d = Done tt d' ->
  line_stage x1 y1 color (lineThickness d') d' = d'
  /\ flushDisablers d' = flushDisablers d.
Proof.
  revert x0 y0 err d. induction fuel as [|fuel IH]; intros x0 y0 err d Hd;
    [discriminate|].
  cbn [line_loop]. unfold bind at 1. rewrite line_point_suppressed by exact Hd.
  destruct (line_stage_frame x0 y0 color (lineThickness d) d)
    as (_ & _ & Hth & Hfd).
  destruct ((x0 =? x1) && (y0 =? y1)) eqn:E.
  - intros [= <-]. apply andb_prop in E as [->%Z.eqb_eq ->%Z.eqb_eq].
    rewrite Hth. split; [|exact Hfd].
    apply (stager_idem color), stager_line_stage.
  - intros H. rewrite <- Hfd.
    destruct (2 * err >? - dy); destruct (2 * err <? dx);
      apply IH in H; try lia; exact H.
Qed.

Lemma drawLine_same_point (p : Point) (color : Color) (d : ImageDrawer) :
  0 < flushDisablers d ->
  drawLine p p color d
  = Done tt
      (line_stage (Math_round (fst p)) (Math_round (snd p)) color
         (lineThickness d) d).
Proof.
  intros Hd. unfold drawLine. rewrite !Z.sub_diag. cbn [Z.abs Z.add Z.to_nat].
  cbn [line_loop]. unfold bind.
  rewrite line_point_suppressed by lia. rewrite !Z.eqb_refl.
  cbn [andb ret]. apply flush_suppressed.
  destruct (line_stage_frame (Math_round (fst p)) (Math_round (snd p)) color
              (lineThickness d) d) as (_ & _ & _ & ->). lia.
Qed.

Lemma drawLine_ends (q p : Point) (color : Color) (d d' : ImageDrawer) :
  0 < flushDisablers d ->
  drawLine q p color d = Done tt d' ->
  line_stage (Math_round (fst p)) (Math_round (snd p)) color
    (lineThickness d') d' = d'
  /\ flushDisablers d' = flushDisablers d.
Proof.
  intros Hd. unfold drawLine.
  intros (a & d1 & Hloop & Hflush)%bind_Done_inv. destruct a.
  apply line_loop_ends in Hloop as [Hend Hfd]; [|lia].
  rewrite flush_suppressed in Hflush by lia. injection Hflush as <-.
  split; assumption.
Qed.

(** A line that starts where the pixels were just staged. *)
Lemma line_loop_after_start fuel x0 y0 x1 y1 dx dy sx sy err color d :
  0 <= flushDisablers d ->
  line_loop (S fuel) x0 y0 x1 y1 dx dy sx sy err color
    (line_stage x0 y0 color (lineThickness d) d)
  = line_loop (S fuel) x0 y0 x1 y1 dx dy sx sy err color d.
Proof.
  intros Hd. cbn [line_loop]. unfold bind.
  destruct (line_stage_frame x0 y0 color (lineThickness d) d)
    as (_ & _ & Hth & Hfd).
  rewrite !line_point_suppressed by lia.
  rewrite Hth, (stager_idem color) by apply stager_line_stage.
  reflexivity.
Qed.

Lemma drawLine_after_start (p q : Point) (color : Color) (d : ImageDrawer) :
  0 < flushDisablers d ->
  drawLine p q color
    (line_stage (Math_round (fst p)) (Math_round (snd p)) color
       (lineThickness d) d)
  = drawLine p q color d.
Proof.
  intros Hd. unfold drawLine. cbv zeta. unfold bind.
  rewrite line_loop_after_start by lia. reflexivity.
Qed.

Lemma path_loop_repeat_mid (q p : Point) (l2 : list Point) (color : Color)
  (d : ImageDrawer) :
  0 < flushDisablers d ->
  path_loop q (p :: p :: l2) color d = path_loop q (p :: l2) color d.
Proof.
  intros Hd. cbn [path_loop]. unfold bind at 1 3.
  destruct (drawLine q p color d) as [[] d1 | e d1 |] eqn:E; try reflexivity.
  apply drawLine_ends in E as [Hend Hfd]; [|exact Hd].
  unfold bind. rewrite drawLine_same_point by lia. rewrite Hend. reflexivity.
Qed.

Lemma path_loop_repeat (q p : Point) (l1 l2 : list Point) (color : Color)
  (d : ImageDrawer) :
  0 < flushDisablers d ->
  path_loop q (l1 ++ p :: p :: l2) color d
  = path_loop q (l1 ++ p :: l2) color d.
Proof.
  revert q d. induction l1 as [|a l1 IH]; intros q d Hd.
  - apply path_loop_repeat_mid, Hd.
  - cbn [app path_loop]. unfold bind.
    pose proof (disciplined_drawLine q a color d) as Hdis.
    destruct (drawLine q a color d) as [[] d1 | e d1 |]; try reflexivity.
    apply IH. rewrite Hdis; lia.
Qed.

Lemma path_loop_repeat_first (p q : Point) (l : list Point) (color : Color)
  (d : ImageDrawer) :
  0 < flushDisablers d ->
  path_loop p (p :: q :: l) color d = path_loop p (q :: l) color d.
Proof.
  intros Hd. cbn [path_loop]. unfold bind at 1.
  rewrite drawLine_same_point by exact Hd.
  unfold bind. rewrite drawLine_after_start by exact Hd. reflexivity.
Qed.

(** Repeating a point of a path changes nothing. *)
Lemma drawPath_repeat (p : Point) (l1 l2 : list Point) (color : Color)
  (d : ImageDrawer) :
  flushDisablers d = 0 ->
  (2 <= length (l1 ++ p :: l2))%nat ->
  drawPath (l1 ++ p :: p :: l2) color d = drawPath (l1 ++ p :: l2) color d.
Proof.
  intros Hd Hlen.
  assert (H1 : 0 < flushDisablers
                     (set_flushDisablers (flushDisablers d + 1) d))
    by (cbn; lia).
  destruct l1 as [|a l1].
  - destruct l2 as [|q l2]; [cbn in Hlen; lia|].
    cbn [app]. unfold drawPath, bind at 1 5, incr_flushDisablers, modify.
    unfold bind at 1 3. rewrite path_loop_repeat_first by exact H1.
    reflexivity.
  - assert (E : forall ps, drawPath (a :: l1 ++ p :: ps) color d
                = (incr_flushDisablers;;
                   path_loop a (l1 ++ p :: ps) color;;
                   decr_flushDisablers;; flush) d).
    { intros ps. destruct l1; reflexivity. }
    cbn [app]. rewrite !E. unfold bind at 1 5, incr_flushDisablers, modify.
    unfold bind at 1 3. rewrite path_loop_repeat by exact H1.
    reflexivity.
Qed.

(** ** The pending writes of one operation *)

Lemma map_set_keys (k : Z) (v : Color) (m : list (Z * Color)) :
  map fst (map_set k v m)
  = if decide (elem_of k (map fst m)) then map fst m else map fst m ++ [k].
Proof.
  induction m as [|[k' v'] m IH]; cbn [map_set map fst].
  - destruct (decide (elem_of k [])) as [Hin|]; [inversion Hin | reflexivity].
  - destruct (k =? k') eqn:E.
    + apply Z.eqb_eq in E. subst k'. cbn [map fst].
      destruct (decide (elem_of k (k :: map fst m))) as [|n]; [reflexivity|].
      exfalso. apply n. left.
    + apply Z.eqb_neq in E. cbn [map fst]. rewrite IH.
      destruct (decide (elem_of k (map fst m))) as [i|n];
        destruct (decide (elem_of k (k' :: map fst m))) as [i'|n'];
        try reflexivity.
      * exfalso. apply n'. right. exact i.
      * exfalso. apply elem_of_cons in i' as [->|i'];
          [apply E; reflexivity | apply n, i'].
Qed.

Lemma map_set_entries (k : Z) (v : Color) (P : Z * Color -> Prop)
  (m : list (Z * Color)) :
  P (k, v) -> Forall P m -> Forall P (map_set k v m).
Proof.
  intros Hk. induction 1 as [|[k' v'] m Hx Hm IH]; cbn [map_set].
  - repeat constructor. exact Hk.
  - destruct (k =? k'); constructor; assumption.
Qed.

Lemma pending_ok_nil (color : Color) : pending_ok color [].
Proof. split; constructor. Qed.

Lemma pending_ok_map_set (color : Color) (k : Z) (m : list (Z * Color)) :
  0 <= k -> pending_ok color m -> pending_ok color (map_set k color m).
Proof.
  intros Hk [Hnd Hall]. split.
  - rewrite map_set_keys. destruct (decide _) as [|n]; [exact Hnd|].
    apply NoDup_app. split; [exact Hnd|]. split.
    + intros x Hx ->%list_elem_of_singleton. apply n, Hx.
    + apply NoDup_singleton.
  - apply map_set_entries; [split; [exact Hk | reflexivity] | exact Hall].
Qed.

Lemma key_of_nonneg (img : Image) (p : Point) :
  outside img p = false -> 0 <= key_of img p.
Proof.
  unfold outside, key_of. rewrite !orb_false_iff.
  rewrite !Qlt_bool_false_iff, !Qle_bool_false_iff.
  intros [[[Hx0 HxW] Hy0] HyH].
  assert (Hx : 0 <= Math_round (fst p)).
  { apply Math_round_ge_iff. change (inject_Z 0) with 0%Q. lra. }
  assert (Hy : 0 <= Math_round (snd p)).
  { apply Math_round_ge_iff. change (inject_Z 0) with 0%Q. lra. }
  assert (HW : 0 < width img).
  { apply Z.lt_nge. intros HW. rewrite Zle_Qle in HW.
    change (inject_Z 0) with 0%Q in HW. lra. }
  nia.
Qed.

Lemma pending_ok_setPixel (color : Color) (p : Point) (d : ImageDrawer) :
  pending_ok color (temporaryBuffer d) ->
  pending_ok color (temporaryBuffer (setPixel p color d)).
Proof.
  intros H. rewrite setPixel_eq. destruct (outside (image d) p) eqn:E;
    [exact H|].
  cbn [temporaryBuffer set_temporaryBuffer].
  apply pending_ok_map_set; [apply key_of_nonneg, E | exact H].
Qed.

Lemma pending_ok_stage_all (color : Color) (ps : list Point) (d : ImageDrawer) :
  pending_ok color (temporaryBuffer d) ->
  pending_ok color (temporaryBuffer (stage_all color ps d)).
Proof.
  revert d. induction ps as [|p ps IH]; intros d H; [exact H|].
  cbn [stage_all fold_left]. apply IH, pending_ok_setPixel, H.
Qed.

(** ** Flushing with blending *)

Lemma load4_set4_stored (b : list Z) (i : Z) (c : FullColorArray) :
  0 <= i -> i + 3 < Z.of_nat (length b) ->
  load4 (typed_set4 b i c) i = stored c.
Proof. destruct c as [[[c0 c1] c2] c3]. apply load4_set4_same. Qed.

Lemma key_decompose (W k : Z) :
  0 < W -> 0 <= k ->
  0 <= Z.rem k W < W /\ 0 <= k / W /\ k / W * W + Z.rem k W = k.
Proof.
  intros HW Hk. rewrite Z.rem_mod_nonneg by lia.
  pose proof (Z.mod_pos_bound k W HW). pose proof (Z.div_pos k W Hk HW).
  pose proof (Z.div_mod k W). lia.
Qed.

Lemma pixel_key_inj (W x y x' y' : Z) :
  0 < W -> 0 <= x < W -> 0 <= x' < W ->
  y * W + x = y' * W + x' -> x = x' /\ y = y'.
Proof.
  intros HW Hx Hx' E.
  assert (y = y') by (destruct (Z.lt_trichotomy y y') as [|[|]]; nia).
  subst. lia.
Qed.

(** One entry of the pending writes, flushed with blending: the pixel of
    the key becomes the stored blend of what it held, the others stay. *)
Lemma Image_add_key (img : Image) (k : Z) (color : Color)
  (cn : FullColorArray) :
  wf_image img -> 0 <= k -> toColor color = Returns cn ->
  exists img1,
    Image_add img (inject_Z (Z.rem k (width img)), inject_Z (k / width img))
      color = Returns img1
    /\ wf_image img1
    /\ width img1 = width img /\ height img1 = height img
    /\ forall x y, 0 <= x < width img -> 0 <= y < height img ->
         (y * width img + x = k ->
          Image_get img1 (inject_Z x, inject_Z y)
          = stored (blend (Image_get img (inject_Z x, inject_Z y)) cn))
         /\ (y * width img + x <> k ->
             Image_get img1 (inject_Z x, inject_Z y)
             = Image_get img (inject_Z x, inject_Z y)).
Proof.
  intros Hwf Hk Hc. pose proof Hwf as (HW & HH & Hlen).
  destruct (key_decompose (width img) k HW Hk) as (Hx & Hy & Hkey).
  set (xk := Z.rem k (width img)) in *. set (yk := k / width img) in *.
  clearbody xk yk.
  destruct (Z_lt_dec yk (height img)) as [Hin | Hout].
  - eexists. split; [apply (Image_add_in_range img xk yk color cn); [lia | lia | exact Hc]|].
    split; [|split; [reflexivity | split; [reflexivity|]]].
    + unfold wf_image. cbn [width height buffer].
      rewrite typed_set4_length. auto.
    + intros x y Hxr Hyr.
      destruct (pixel_index_bounds img x y Hwf Hxr Hyr) as [Hi0 Hi3].
      rewrite !Image_get_Z. cbn [width buffer]. split.
      * intros Hxy.
        destruct (pixel_key_inj (width img) x y xk yk) as [-> ->];
          [lia | lia | lia | lia |].
        apply load4_set4_stored; assumption.
      * intros Hxy. apply load4_set4_other; [exact Hi0 | lia].
  - exists img. split;
      [apply (Image_add_out_of_range img xk yk color cn); [lia | exact Hc]|].
    split; [exact Hwf | split; [reflexivity | split; [reflexivity|]]].
    intros x y Hxr Hyr. split; [|reflexivity].
    intros Hxy.
    destruct (pixel_key_inj (width img) x y xk yk) as [-> ->]; lia.
Qed.

Lemma flush_loop_blend (color : Color) (entries : list (Z * Color))
  (img img' : Image) (oe : option Error) :
  wf_image img -> pending_ok color entries ->
  flush_loop true entries img = (img', oe) ->
  forall x y, 0 <= x < width img -> 0 <= y < height img ->
    (~ elem_of (y * width img + x) (map fst entries) ->
     Image_get img' (inject_Z x, inject_Z y)
     = Image_get img (inject_Z x, inject_Z y))
    /\ (Image_get img' (inject_Z x, inject_Z y)
        = Image_get img (inject_Z x, inject_Z y)
        \/ exists cn,
             toColor color = Returns cn
             /\ Image_get img' (inject_Z x, inject_Z y)
                = stored (blend (Image_get img (inject_Z x, inject_Z y)) cn)).
Proof.
  revert img. induction entries as [|[k c] rest IH]; intros img Hwf Hok.
  - intros [= <- _] x y _ _. auto.
  - destruct Hok as [Hnd Hall]. cbn [map fst] in Hnd.
    apply NoDup_cons in Hnd as [Hk Hnd].
    apply Forall_cons in Hall as [[Hk0 Hc] Hall]. cbn [fst snd] in Hk0, Hc.
    subst c. cbn [flush_loop].
    destruct (toColor color) as [cn | e] eqn:Ecolor.
    + destruct (Image_add_key img k color cn Hwf Hk0 Ecolor)
        as (img1 & -> & Hwf1 & HW1 & HH1 & Hpix).
      intros Hloop x y Hx Hy.
      specialize (IH img1 Hwf1 (conj Hnd Hall) Hloop x y).
      rewrite HW1, HH1 in IH. destruct (IH Hx Hy) as [IHa IHb].
      destruct (Hpix x y Hx Hy) as [Hsame Hother].
      destruct (Z.eq_dec (y * width img + x) k) as [Ek | Ek].
      * split; [intros Hn; exfalso; apply Hn; rewrite Ek; left|].
        right. exists cn. split; [reflexivity|].
        rewrite IHa by (rewrite Ek; exact Hk). apply Hsame, Ek.
      * rewrite (Hother Ek) in IHa, IHb. split; [|exact IHb].
        intros Hn. apply IHa. intros Hin. apply Hn. right. exact Hin.
    + assert (Hthrow : exists e', Image_add img
                (inject_Z (Z.rem k (width img)), inject_Z (k / width img))
                color = Throws e').
      { unfold Image_add. rewrite Ecolor. eauto. }
      destruct Hthrow as [e' ->]. intros [= <- _] x y _ _. auto.
Qed.

Lemma drawPath_unfold (p0 p1 : Point) (rest : list Point) (color : Color)
  (d : ImageDrawer) :
  drawPath (p0 :: p1 :: rest) color d
  = match path_loop p0 (p1 :: rest) color
            (set_flushDisablers (flushDisablers d + 1) d) with
    | Done _ d2 => flush (set_flushDisablers (flushDisablers d2 - 1) d2)
    | Raised e d2 => Raised e d2
    | NoReturn => NoReturn
    end.
Proof.
  unfold drawPath, bind, incr_flushDisablers, decr_flushDisablers, modify.
  destruct (path_loop _ _ _ _); reflexivity.
Qed.

(** ** Shapes stage, then flush once *)

Section OnlyStages.
Variable color : Color.

Lemma only_stages_ret {A} depth (a : A) : only_stages depth color (ret a).
Proof. intros d _. right. exists a, []. reflexivity. Qed.

Lemma only_stages_NoReturn {A} depth :
  only_stages depth color (fun _ => @NoReturn A).
Proof. intros d _. left. reflexivity. Qed.

Lemma only_stages_weaken {A} depth depth' (m : M A) :
  depth <= depth' -> only_stages depth color m -> only_stages depth' color m.
Proof. intros Hle Hm d Hd. apply Hm. lia. Qed.

Lemma only_stages_bind {A B} depth (m : M A) (k : A -> M B) :
  only_stages depth color m -> (forall a, only_stages depth color (k a)) ->
  only_stages depth color (bind m k).
Proof.
  intros Hm Hk d Hd. unfold bind.
  destruct (Hm d Hd) as [-> | (a & ps & ->)]; [left; reflexivity|].
  destruct (stage_all_frame color ps d) as (_ & _ & _ & Hfd).
  destruct (Hk a (stage_all color ps d)) as [-> | (b & qs & ->)];
    [lia | left; reflexivity|].
  right. exists b, (ps ++ qs). rewrite stage_all_app. reflexivity.
Qed.

Lemma only_stages_modify depth (f : ImageDrawer -> ImageDrawer) :
  stager color f -> only_stages depth color (modify f).
Proof. intros [ps Hf] d _. right. exists tt, ps. unfold modify. rewrite Hf. reflexivity. Qed.

Lemma only_stages_flush : only_stages 1 color flush.
Proof.
  intros d Hd. right. exists tt, []. cbn [stage_all fold_left].
  apply flush_suppressed. lia.
Qed.

Lemma only_stages_line_point x0 y0 : only_stages 0 color (line_point x0 y0 color).
Proof.
  intros d Hd. right. rewrite line_point_suppressed by exact Hd.
  destruct (stager_line_stage color x0 y0 (lineThickness d)) as [ps ->].
  exists tt, ps. reflexivity.
Qed.

Lemma only_stages_line_loop fuel x0 y0 x1 y1 dx dy sx sy err :
  only_stages 0 color (line_loop fuel x0 y0 x1 y1 dx dy sx sy err color).
Proof.
  revert x0 y0 err. induction fuel as [|fuel IH]; intros x0 y0 err;
    [apply only_stages_NoReturn|].
  cbn [line_loop]. apply only_stages_bind; [apply only_stages_line_point|].
  intros _. destruct ((x0 =? x1) && (y0 =? y1)); [apply only_stages_ret|].
  destruct (2 * err >? - dy); destruct (_ <? dx); apply IH.
Qed.

Lemma only_stages_drawLine start end_ :
  only_stages 1 color (drawLine start end_ color).
Proof.
  apply only_stages_bind; [|intros; apply only_stages_flush].
  apply (only_stages_weaken 0); [lia | apply only_stages_line_loop].
Qed.

Lemma only_stages_path_loop lastPoint points :
  only_stages 1 color (path_loop lastPoint points color).
Proof.
  revert lastPoint. induction points as [|p ps IH]; intros lastPoint;
    [apply only_stages_ret|].
  cbn [path_loop]. apply only_stages_bind;
    [apply only_stages_drawLine | intros; apply IH].
Qed.

Lemma only_stages_bezier_loop fuel points t step lastPoint :
  only_stages 1 color (bezier_loop fuel points color t step lastPoint).
Proof.
  revert t lastPoint. induction fuel as [|fuel IH]; intros t lastPoint.
  - intros d _. cbn [bezier_loop]. destruct (Qle_bool t 1);
      [left; reflexivity | right; exists tt, []; reflexivity].
  - cbn [bezier_loop]. destruct (Qle_bool t 1); [|apply only_stages_ret].
    apply only_stages_bind; [apply only_stages_drawLine | intros; apply IH].
Qed.

Lemma only_stages_scanline xStart xEnd y :
  only_stages 0 color (scanline xStart xEnd y color).
Proof.
  unfold scanline.
  destruct (Math_round_number xStart), (Math_round_number xEnd);
    try apply only_stages_ret; try apply only_stages_NoReturn.
  apply only_stages_modify, stager_For. intros; apply stager_setPixel.
Qed.

Lemma only_stages_edge_loop fuel y to xStart xEnd dx1 dx2 :
  only_stages 0 color (edge_loop fuel y to xStart xEnd dx1 dx2 color).
Proof.
  revert y xStart xEnd. induction fuel as [|fuel IH]; intros y xStart xEnd;
    [apply only_stages_NoReturn|].
  cbn [edge_loop]. destruct (Qlt_bool y to); [|apply only_stages_ret].
  apply only_stages_bind; [apply only_stages_scanline | intros; apply IH].
Qed.

(** A body that only stages, followed by [flush]. *)
Lemma staged_then_flush {A} (m : M A) (d : ImageDrawer) :
  only_stages 0 color m -> 0 <= flushDisablers d ->
  (m;; flush) d = NoReturn
  \/ exists ps, (m;; flush) d = flush (stage_all color ps d).
Proof.
  intros Hm Hd. unfold bind.
  destruct (Hm d Hd) as [-> | (a & ps & ->)]; [left; reflexivity|].
  right. exists ps. reflexivity.
Qed.

(** A body that only stages under suppression, between the increment
    and the decrement of the depth, followed by [flush]. *)
Lemma bracket_then_flush {A} (m : M A) (d : ImageDrawer) :
  only_stages 1 color m -> 0 <= flushDisablers d ->
  (incr_flushDisablers;; m;; decr_flushDisablers;; flush) d = NoReturn
  \/ exists ps,
       (incr_flushDisablers;; m;; decr_flushDisablers;; flush) d
       = flush (stage_all color ps d).
Proof.
  intros Hm Hd. unfold bind, incr_flushDisablers, decr_flushDisablers, modify.
  destruct (Hm (set_flushDisablers (flushDisablers d + 1) d))
    as [-> | (a & ps & ->)];
    [cbn [flushDisablers set_flushDisablers]; lia | left; reflexivity|].
  right. exists ps. f_equal.
  rewrite stage_all_set_flushDisablers.
  destruct (stage_all_frame color ps d) as (_ & _ & _ & Hfd).
  cbn [flushDisablers set_flushDisablers].
  replace (flushDisablers d + 1 - 1) with (flushDisablers d) by lia.
  rewrite <- Hfd. destruct (stage_all color ps d); reflexivity.
Qed.

(** The one flush of an operation, with blending, on a drawer that had
    nothing pending: a pixel is as it was or blended once. *)
Lemma flush_blends_once (ps : list Point) (d d' : ImageDrawer) :
  wf_image (image d) ->
  flushDisablers d = 0 -> temporaryBuffer d = [] -> blending d = true ->
  final (flush (stage_all color ps d)) = Some d' ->
  forall x y, 0 <= x < width (image d) -> 0 <= y < height (image d) ->
    Image_get (image d') (inject_Z x, inject_Z y)
    = Image_get (image d) (inject_Z x, inject_Z y)
    \/ exists cn,
         toColor color = Returns cn
         /\ Image_get (image d') (inject_Z x, inject_Z y)
            = stored (blend (Image_get (image d) (inject_Z x, inject_Z y)) cn).
Proof.
  intros Hwf Hfd Htb Hbl.
  destruct (stage_all_frame color ps d) as (Himg & Hblend & _ & Hdepth).
  pose proof (pending_ok_stage_all color ps d) as Hok.
  rewrite Htb in Hok. specialize (Hok (pending_ok_nil color)).
  unfold flush. rewrite Hdepth, Hfd, Hblend, Himg, Hbl. cbn [Z.eqb negb].
  destruct (flush_loop true _ (image d)) as [img' oe] eqn:Eflush.
  intros Hfinal x y Hx Hy.
  assert (Himg' : image d' = img')
    by (destruct oe; cbn [final] in Hfinal; injection Hfinal as <-;
        reflexivity).
  rewrite Himg'.
  exact (proj2 (flush_loop_blend color _ (image d) _ oe Hwf Hok Eflush
                  x y Hx Hy)).
Qed.

End OnlyStages.

(** A shape operation entered at depth 0 does not return, throws at
    entry for want of points, or stages points of its color and flushes
    once. *)
Lemma run_stages_then_flushes (fuel : nat) (op : DrawOp) (d : ImageDrawer) :
  is_shape op = true -> flushDisablers d = 0 ->
  run fuel op d = NoReturn
  \/ run fuel op d = Raised InvalidPoints d
  \/ exists ps, run fuel op d = flush (stage_all (op_color op) ps d).
Proof.
  intros Hshape Hd.
  assert (H0 : 0 <= flushDisablers d) by lia.
  assert (Hbody : forall m : M unit, only_stages 0 (op_color op) m ->
            (m;; flush) d = NoReturn
            \/ (m;; flush) d = Raised InvalidPoints d
            \/ exists ps, (m;; flush) d = flush (stage_all (op_color op) ps d)).
  { intros m Hm.
    destruct (staged_then_flush (op_color op) m d Hm H0) as [E | E]; auto. }
  destruct op; try discriminate; cbn [run op_color] in *.
  - apply Hbody, only_stages_line_loop.
  - destruct start as [x0 y0], end_ as [x1 y1].
    apply Hbody, only_stages_modify, stager_For. intros y.
    apply stager_For. intros x. apply stager_setPixel.
  - destruct start as [x0 y0], end_ as [x1 y1].
    right. right.
    assert (Hf : stager color (fun d =>
              For y0 y1 (fun y d => setPixel (x1, y) color
                                      (setPixel (x0, y) color d))
                (For x0 x1 (fun x d => setPixel (x, y1) color
                                         (setPixel (x, y0) color d)) d))).
    { apply (stager_compose color (For x0 x1 _) (For y0 y1 _));
        apply stager_For; intros j.
      - exists [(j, y0); (j, y1)]. reflexivity.
      - exists [(x0, j); (x1, j)]. reflexivity. }
    destruct Hf as [ps Hf]. exists ps. unfold drawRectangle, bind, modify.
    rewrite Hf. reflexivity.
  - destruct center as [xc yc].
    apply Hbody, only_stages_modify, stager_circle_loop.
    intros; apply stager_circle_points.
  - destruct center as [xc yc].
    apply Hbody, only_stages_modify, stager_circle_loop.
    intros; apply stager_circle_spans.
  - destruct triangle as [[[x0 y0] [x1 y1]] [x2 y2]]. unfold drawTriangle.
    match goal with
    | |- context [bind ?m (fun bounds => bind (@?k bounds) (fun _ => flush))] =>
        assert (Hm : only_stages 0 color (bind m k))
    end.
    { apply only_stages_bind; [apply only_stages_edge_loop|].
      intros bounds. apply only_stages_edge_loop. }
    destruct (staged_then_flush color _ d Hm H0) as [E | [ps E]];
      unfold bind in *.
    + left. destruct (edge_loop _ _ _ _ _ _ _ _ d) as [b1 d1 | |];
        [| discriminate | reflexivity].
      destruct (edge_loop _ _ _ _ _ _ _ _ d1); congruence.
    + right. right. exists ps. rewrite <- E.
      destruct (edge_loop _ _ _ _ _ _ _ _ d) as [b1 d1 | |]; try reflexivity.
  - destruct points as [|p0 [|p1 rest]]; auto.
    destruct (bracket_then_flush color (path_loop p0 (p1 :: rest) color) d)
      as [E | E]; auto using only_stages_path_loop.
  - destruct points as [|p0 [|p1 rest]]; auto.
    unfold drawBezier.
    destruct (fold_left _ _ _) as [x0 y0]. destruct (fold_left _ _ _) as [x1 y1].
    match goal with
    | |- context [bind incr_flushDisablers (fun _ => bind ?m _)] =>
        destruct (bracket_then_flush color m d) as [E | E]; auto
    end.
    destruct (match step with Some s => Num s | None => _ end);
      auto using only_stages_bezier_loop, only_stages_ret,
        only_stages_NoReturn.
Qed.

(** C4.  A shape operation ([drawPath] is one) run with blending on a
    drawer at rest (depth 0, nothing pending) leaves every pixel of the
    image either as it was or as the blend, applied once, of the color
    onto what the pixel held before the call, however often the
    algorithm staged that pixel and whether the call returns or throws.
    And a path in which a point is repeated back to back has the
    outcome, hence the pixels, of the path without the repetition. *)
Theorem shape_blends_each_pixel_at_most_once
  (fuel : nat) (op : DrawOp) (d d' : ImageDrawer) :
  wf_image (image d) ->
  flushDisablers d = 0 -> temporaryBuffer d = [] -> blending d = true ->
  (is_shape op = true ->
   final (run fuel op d) = Some d' ->
   forall x y, 0 <= x < width (image d) -> 0 <= y < height (image d) ->
     Image_get (image d') (inject_Z x, inject_Z y)
     = Image_get (image d) (inject_Z x, inject_Z y)
     \/ exists cn,
          toColor (op_color op) = Returns cn
          /\ Image_get (image d') (inject_Z x, inject_Z y)
             = stored
                 (blend (Image_get (image d) (inject_Z x, inject_Z y)) cn))
  /\ (forall l1 p l2 color,
        op = OpPath (l1 ++ p :: l2) color ->
        (2 <= length (l1 ++ p :: l2))%nat ->
        run fuel (OpPath (l1 ++ p :: p :: l2) color) d = run fuel op d).
Proof.
  intros Hwf Hfd Htb Hbl. split.
  - intros Hshape Hfinal.
    destruct (run_stages_then_flushes fuel op d Hshape Hfd)
      as [E | [E | [ps E]]]; rewrite E in Hfinal.
    + discriminate.
    + injection Hfinal as <-. auto.
    + exact (flush_blends_once (op_color op) ps d d' Hwf Hfd Htb Hbl Hfinal).
  - intros l1 p l2 color -> Hlen. cbn [run].
    apply drawPath_repeat; assumption.
Qed.

Lemma shape_blends_each_pixel_at_most_once_witness :
  (Image_get
     (mkImage 3 3
        [128; 128; 128; 64; 0; 0; 0; 0; 128; 128; 128; 64; 0; 0; 0; 0;
         128; 128; 128; 64; 0; 0; 0; 0; 0; 0; 0; 0; 0; 0; 0; 0; 0; 0; 0; 0])
     (inject_Z 1, inject_Z 1)
   = Image_get (new_Image 3 3) (inject_Z 1, inject_Z 1)
   \/ exists cn,
        toColor (ColorString "#FFFFFF80") = Returns cn
        /\ Image_get
             (mkImage 3 3
                [128; 128; 128; 64; 0; 0; 0; 0; 128; 128; 128; 64; 0; 0; 0; 0;
                 128; 128; 128; 64; 0; 0; 0; 0; 0; 0; 0; 0; 0; 0; 0; 0; 0; 0;
                 0; 0])
             (inject_Z 1, inject_Z 1)
           = stored
               (blend (Image_get (new_Image 3 3) (inject_Z 1, inject_Z 1))
                  cn))
  /\ run 0 (OpPath ([(0, 0)] ++ (1, 1) :: (1, 1) :: [(2, 0)])%Q
              (ColorString "#FFFFFF80"))
       (new_ImageDrawer (new_Image 3 3))
     = run 0 (OpPath [(0, 0); (1, 1); (2, 0)]%Q (ColorString "#FFFFFF80"))
         (new_ImageDrawer (new_Image 3 3)).
Proof.
  assert (Hwf : wf_image (new_Image 3 3))
    by (unfold wf_image; repeat apply conj; reflexivity).
  destruct (shape_blends_each_pixel_at_most_once 0
              (OpPath [(0, 0); (1, 1); (2, 0)]%Q (ColorString "#FFFFFF80"))
              (new_ImageDrawer (new_Image 3 3))
              (mkDrawer
                 (mkImage 3 3
                    [128; 128; 128; 64; 0; 0; 0; 0; 128; 128; 128; 64;
                     0; 0; 0; 0; 128; 128; 128; 64; 0; 0; 0; 0; 0; 0; 0; 0;
                     0; 0; 0; 0; 0; 0; 0; 0])
                 true 1 [] 0)
              Hwf eq_refl eq_refl eq_refl) as [H1 H2].
  split.
  - apply (H1 eq_refl eq_refl 1 1); cbn; lia.
  - apply (H2 [(0, 0)%Q] (1, 1)%Q [(2, 0)%Q] (ColorString "#FFFFFF80"));
      [reflexivity | cbn; lia].
Defined.

(** ** The pending writes, on every exit *)

(** C3 (amended).  The pending-write set is empty on a new drawer, and
    every public drawing operation entered at depth 0 keeps it empty on
    every exit but one.  It is empty when the operation returns,
    whatever was pending at entry; an [InvalidPoints] exit leaves the
    drawer as it was; [fill] empties the set first, so the set is
    empty also when [fill] throws.  Entered with nothing pending, an
    operation leaves a set that is not empty in one case only, that of
    a shape whose [flush] throws [InvalidColor], and in that case the
    set is never empty. *)
Theorem pending_writes_cleared_unless_flush_throws
  (fuel : nat) (op : DrawOp) (d d' : ImageDrawer) (img : Image) :
  temporaryBuffer (new_ImageDrawer img) = []
  /\ (flushDisablers d = 0 ->
      run fuel op d = Done tt d' ->
      temporaryBuffer d' = [])
  /\ (flushDisablers d = 0 ->
      run fuel op d = Raised InvalidPoints d' ->
      d' = d)
  /\ (is_shape op = false ->
      final (run fuel op d) = Some d' ->
      temporaryBuffer d' = [])
  /\ (flushDisablers d = 0 -> temporaryBuffer d = [] ->
      final (run fuel op d) = Some d' ->
      temporaryBuffer d' = []
      /\ (run fuel op d = Done tt d'
          \/ run fuel op d = Raised InvalidPoints d'
          \/ is_shape op = false /\ run fuel op d = Raised InvalidColor d')
      \/ is_shape op = true
         /\ run fuel op d = Raised InvalidColor d'
         /\ temporaryBuffer d' <> []).
Proof.
  assert (Hfill : is_shape op = false ->
            final (run fuel op d) = Some d' ->
            temporaryBuffer d' = []
            /\ (run fuel op d = Done tt d'
                \/ run fuel op d = Raised InvalidColor d')).
  { destruct op; try discriminate. intros _. cbn [run].
    unfold fill, bind, modify.
    destruct (toColor color) as [cn | e] eqn:Ec; cbn [final].
    - intros [= <-]. split; [reflexivity | left; reflexivity].
    - apply toColor_throws_InvalidColor in Ec as ->.
      intros [= <-]. split; [reflexivity | right; reflexivity]. }
  assert (Hshape : is_shape op = true -> flushDisablers d = 0 ->
            final (run fuel op d) = Some d' ->
            run fuel op d = Done tt d' /\ temporaryBuffer d' = []
            \/ run fuel op d = Raised InvalidPoints d' /\ d' = d
            \/ run fuel op d = Raised InvalidColor d'
               /\ temporaryBuffer d' <> []).
  { intros Hs Hfd Hfin.
    destruct (run_stages_then_flushes fuel op d Hs Hfd)
      as [E | [E | [ps E]]]; rewrite E in Hfin |- *.
    - discriminate.
    - injection Hfin as <-. auto.
    - destruct (stage_all_frame (op_color op) ps d) as (_ & _ & _ & Hdepth).
      revert Hfin. unfold flush. rewrite Hdepth, Hfd. cbn [Z.eqb negb].
      destruct (flush_loop _ _ _) as [img1 [e|]] eqn:El; cbn [final].
      + pose proof (flush_loop_throws _ _ _ _ _ El) as ->.
        intros [= <-]. right. right. split; [reflexivity|].
        cbn [temporaryBuffer set_image]. intros Hnil.
        rewrite Hnil in El. discriminate.
      + intros [= <-]. left. split; reflexivity. }
  split; [reflexivity|].
  split; [apply run_clears|].
  split.
  { intros Hfd Hrun. destruct (is_shape op) eqn:Hs.
    - destruct (Hshape eq_refl Hfd) as [[E _] | [[_ E] | [E _]]];
        try (rewrite Hrun; reflexivity); try exact E;
        rewrite Hrun in E; discriminate.
    - destruct (Hfill eq_refl) as [_ [E | E]];
        try (rewrite Hrun; reflexivity); rewrite Hrun in E; discriminate. }
  split.
  { intros Hs Hfin. rewrite Hs in Hfill. apply (Hfill eq_refl Hfin). }
  intros Hfd Htb Hfin. destruct (is_shape op) eqn:Hs.
  - destruct (Hshape eq_refl Hfd Hfin) as [[E H] | [[E H] | [E H]]]; auto.
    left. subst d'. auto.
  - destruct (Hfill eq_refl Hfin) as [H [E | E]]; auto 6.
Qed.

Lemma pending_writes_cleared_unless_flush_throws_witness :
  flushDisablers (new_ImageDrawer (new_Image 2 2)) = 0
  /\ temporaryBuffer (new_ImageDrawer (new_Image 2 2)) = []
  /\ final (run 0 (OpFill (ColorString "red"))
              (new_ImageDrawer (new_Image 2 2)))
     = Some (new_ImageDrawer (new_Image 2 2))
  /\ (temporaryBuffer (new_ImageDrawer (new_Image 2 2)) = []
      /\ (run 0 (OpFill (ColorString "red"))
            (new_ImageDrawer (new_Image 2 2))
          = Done tt (new_ImageDrawer (new_Image 2 2))
          \/ run 0 (OpFill (ColorString "red"))
               (new_ImageDrawer (new_Image 2 2))
             = Raised InvalidPoints (new_ImageDrawer (new_Image 2 2))
          \/ is_shape (OpFill (ColorString "red")) = false
             /\ run 0 (OpFill (ColorString "red"))
                  (new_ImageDrawer (new_Image 2 2))
                = Raised InvalidColor (new_ImageDrawer (new_Image 2 2)))
      \/ is_shape (OpFill (ColorString "red")) = true
         /\ run 0 (OpFill (ColorString "red"))
              (new_ImageDrawer (new_Image 2 2))
            = Raised InvalidColor (new_ImageDrawer (new_Image 2 2))
         /\ temporaryBuffer (new_ImageDrawer (new_Image 2 2)) <> []).
Proof.
  split; [reflexivity|]. split; [reflexivity|]. split; [reflexivity|].
  apply (proj2 (proj2 (proj2 (proj2
           (pending_writes_cleared_unless_flush_throws 0
              (OpFill (ColorString "red"))
              (new_ImageDrawer (new_Image 2 2))
              (new_ImageDrawer (new_Image 2 2)) (new_Image 2 2))))));
    reflexivity.
Defined.

(** ** The fuel of the loops *)

Lemma fuel_above (x : Q) :
  (x < inject_Z (Z.of_nat (S (Z.to_nat (Qfloor x + 1)))))%Q.
Proof.
  apply Qlt_le_trans with (inject_Z (Qfloor x + 1)); [apply Qlt_floor|].
  rewrite <- Zle_Qle. lia.
Qed.

(** More fuel than the iterations left changes nothing. *)
Lemma for_le_fuel (n m : nat) (i hi : Q) body (d : ImageDrawer) :
  (hi - i < inject_Z (Z.of_nat n))%Q -> (n <= m)%nat ->
  for_le m i hi body d = for_le n i hi body d.
Proof.
  revert m i d. induction n as [|n IH]; intros m i d Hn Hm.
  - assert (E : Qle_bool i hi = false).
    { apply Qle_bool_false_iff. change (inject_Z (Z.of_nat 0)) with 0%Q in Hn.
      lra. }
    destruct m; cbn [for_le]; rewrite ?E; reflexivity.
  - destruct m as [|m]; [lia|]. cbn [for_le].
    destruct (Qle_bool i hi); [|reflexivity].
    apply IH; [|lia].
    rewrite Nat2Z.inj_succ, <- Z.add_1_r, inject_Z_plus in Hn.
    change (inject_Z 1) with 1%Q in Hn. lra.
Qed.

Lemma For_fuel (m : nat) (lo hi : Q) body (d : ImageDrawer) :
  (fuel_le lo hi <= m)%nat -> for_le m lo hi body d = For lo hi body d.
Proof. intros Hm. apply for_le_fuel; [apply fuel_above | exact Hm]. Qed.

Lemma circle_loop_fuel (n m : nat) body (x y d : Q) (dr : ImageDrawer) :
  (y - x < inject_Z (Z.of_nat n))%Q -> (n <= m)%nat ->
  circle_loop m body x y d dr = circle_loop n body x y d dr.
Proof.
  revert m x y d dr. induction n as [|n IH]; intros m x y d dr Hn Hm.
  - assert (E : Qle_bool x y = false).
    { apply Qle_bool_false_iff. change (inject_Z (Z.of_nat 0)) with 0%Q in Hn.
      lra. }
    destruct m; cbn [circle_loop]; rewrite ?E; reflexivity.
  - destruct m as [|m]; [lia|]. cbn [circle_loop].
    rewrite Nat2Z.inj_succ, <- Z.add_1_r, inject_Z_plus in Hn.
    change (inject_Z 1) with 1%Q in Hn.
    destruct (Qle_bool x y); [|reflexivity].
    destruct (Qlt_bool 0 d); (apply IH; [lra | lia]).
Qed.

Lemma circle_fuel (m : nat) body (radius d : Q) (dr : ImageDrawer) :
  (fuel_circle radius <= m)%nat ->
  circle_loop m body 0 radius d dr
  = circle_loop (fuel_circle radius) body 0 radius d dr.
Proof.
  intros Hm. apply circle_loop_fuel; [|exact Hm].
  pose proof (fuel_above radius). unfold fuel_circle. lra.
Qed.

Lemma flush_returns (d : ImageDrawer) : flush d <> NoReturn.
Proof.
  unfold flush. destruct (negb _); [discriminate|].
  destruct (flush_loop _ _ _) as [img [e|]]; discriminate.
Qed.

Lemma bind_returns {A B} (m : M A) (k : A -> M B) (d : ImageDrawer) :
  m d <> NoReturn -> (forall a d', k a d' <> NoReturn) ->
  bind m k d <> NoReturn.
Proof.
  intros Hm Hk. unfold bind.
  destruct (m d); [apply Hk | discriminate | congruence].
Qed.

Lemma line_point_returns x0 y0 color d : line_point x0 y0 color d <> NoReturn.
Proof.
  unfold line_point. destruct (Qlt_bool 1 (lineThickness d)); [|discriminate].
  apply bind_returns; [discriminate|]. intros _ d1.
  apply bind_returns; [|discriminate].
  apply bind_returns; [discriminate|]. intros _ d2. apply flush_returns.
Qed.

(** The loop of Bresenham's algorithm ends before its fuel does: with
    [rx] and [ry] steps left on the two axes, the error term is
    [dx - dy + rx * dy - ry * dx], no step is taken on an axis that has
    none left, and one step at least is taken at every iteration. *)
Lemma line_loop_returns fuel x0 y0 x1 y1 dx dy sx sy err color rx ry d :
  0 <= rx <= dx -> 0 <= ry <= dy ->
  x1 - x0 = sx * rx -> y1 - y0 = sy * ry ->
  sx = 1 \/ sx = -1 -> sy = 1 \/ sy = -1 ->
  err = dx - dy + rx * dy - ry * dx ->
  rx + ry < Z.of_nat fuel ->
  line_loop fuel x0 y0 x1 y1 dx dy sx sy err color d <> NoReturn.
Proof.
  revert x0 y0 err rx ry d.
  induction fuel as [|fuel IH];
    intros x0 y0 err rx ry d Hrx Hry Hx Hy Hsx Hsy Herr Hfuel; [lia|].
  cbn [line_loop]. unfold bind.
  pose proof (line_point_returns x0 y0 color d) as Hpoint.
  destruct (line_point x0 y0 color d) as [[] d1 | e d1 |];
    [| discriminate | congruence].
  destruct ((x0 =? x1) && (y0 =? y1)) eqn:Eend; [discriminate|].
  assert (Hleft : 0 < rx + ry).
  { apply andb_false_iff in Eend as [E|E]; apply Z.eqb_neq in E; nia. }
  destruct (2 * err >? - dy) eqn:Ex; destruct (2 * err <? dx) eqn:Ey;
    rewrite ?Z.gtb_ltb in Ex;
    rewrite ?Z.ltb_lt, ?Z.ltb_ge in Ex, Ey.
  - assert (1 <= rx) by (destruct (Z.eq_dec rx 0); [subst; nia | lia]).
    assert (1 <= ry) by (destruct (Z.eq_dec ry 0); [subst; nia | lia]).
    apply (IH _ _ _ (rx - 1) (ry - 1)); try lia; nia.
  - assert (1 <= rx) by (destruct (Z.eq_dec rx 0); [subst; nia | lia]).
    apply (IH _ _ _ (rx - 1) ry); try lia; nia.
  - assert (1 <= ry) by (destruct (Z.eq_dec ry 0); [subst; nia | lia]).
    apply (IH _ _ _ rx (ry - 1)); try lia; nia.
  - exfalso. nia.
Qed.

(** [drawLine] always ends: it returns, or throws from its [flush]. *)
Lemma drawLine_returns start end_ color d :
  drawLine start end_ color d <> NoReturn.
Proof.
  unfold drawLine. cbv zeta. unfold bind.
  set (x0 := Math_round (fst start)). set (y0 := Math_round (snd start)).
  set (x1 := Math_round (fst end_)). set (y1 := Math_round (snd end_)).
  pose proof (line_loop_returns (S (Z.to_nat (Z.abs (x1 - x0) + Z.abs (y1 - y0))))
                x0 y0 x1 y1 (Z.abs (x1 - x0)) (Z.abs (y1 - y0))
                (if x0 <? x1 then 1 else -1) (if y0 <? y1 then 1 else -1)
                (Z.abs (x1 - x0) - Z.abs (y1 - y0)) color
                (Z.abs (x1 - x0)) (Z.abs (y1 - y0)) d) as H.
  destruct (line_loop _ _ _ _ _ _ _ _ _ _ _ d) as [[] d1 | e d1 |];
    [apply flush_returns | discriminate |].
  exfalso. apply H; try first [reflexivity | lia | ring].
  - destruct (x0 <? x1) eqn:E; rewrite ?Z.ltb_lt, ?Z.ltb_ge in E; lia.
  - destruct (y0 <? y1) eqn:E; rewrite ?Z.ltb_lt, ?Z.ltb_ge in E; lia.
  - destruct (x0 <? x1); auto.
  - destruct (y0 <? y1); auto.
Qed.

Lemma path_loop_returns lastPoint points color d :
  path_loop lastPoint points color d <> NoReturn.
Proof.
  revert lastPoint d. induction points as [|p ps IH]; intros lastPoint d;
    [discriminate|].
  cbn [path_loop]. unfold bind.
  pose proof (drawLine_returns lastPoint p color d).
  destruct (drawLine lastPoint p color d); [apply IH | discriminate | congruence].
Qed.

Lemma drawPath_returns points color d : drawPath points color d <> NoReturn.
Proof.
  destruct points as [|p0 [|p1 rest]]; try discriminate.
  rewrite drawPath_unfold.
  pose proof (path_loop_returns p0 (p1 :: rest) color
                (set_flushDisablers (flushDisablers d + 1) d)).
  destruct (path_loop _ _ _ _); [apply flush_returns | discriminate | congruence].
Qed.

Lemma edge_loop_fuel (n m : nat) (y to : Q) (xStart xEnd dx1 dx2 : number)
  (color : Color) (d : ImageDrawer) :
  (to - y <= inject_Z (Z.of_nat n))%Q -> (S n <= m)%nat ->
  edge_loop m y to xStart xEnd dx1 dx2 color d
  = edge_loop (S n) y to xStart xEnd dx1 dx2 color d.
Proof.
  revert m y xStart xEnd d.
  induction n as [|n IH]; intros m y xStart xEnd d Hn Hm;
    (destruct m as [|m]; [lia|]); cbn [edge_loop].
  - assert (E : Qlt_bool y to = false).
    { apply Qlt_bool_false_iff. change (inject_Z (Z.of_nat 0)) with 0%Q in Hn.
      lra. }
    rewrite E. reflexivity.
  - destruct (Qlt_bool y to); [|reflexivity].
    unfold bind. destruct (scanline xStart xEnd y color d); try reflexivity.
    apply IH; [|lia].
    rewrite Nat2Z.inj_succ, <- Z.add_1_r, inject_Z_plus in Hn.
    change (inject_Z 1) with 1%Q in Hn. lra.
Qed.

Lemma edge_fuel (m : nat) (y to : Q) (xStart xEnd dx1 dx2 : number)
  (color : Color) (d : ImageDrawer) :
  (fuel_lt y to <= m)%nat ->
  edge_loop m y to xStart xEnd dx1 dx2 color d
  = edge_loop (fuel_lt y to) y to xStart xEnd dx1 dx2 color d.
Proof.
  intros Hm. apply edge_loop_fuel; [|exact Hm].
  apply Qle_trans with (inject_Z (Qceiling (to - y))); [apply Qle_ceiling|].
  rewrite <- Zle_Qle. lia.
Qed.

Lemma fill_loop_fuel (n m : nat) (i : Z) (c : FullColorArray) (b : list Z) :
  Z.of_nat (length b) - i <= 4 * Z.of_nat n -> (n <= m)%nat ->
  fill_loop m i c b = fill_loop n i c b.
Proof.
  revert m i b. induction n as [|n IH]; intros m i b Hn Hm.
  - assert (E : (i <? Z.of_nat (length b)) = false) by (apply Z.ltb_ge; lia).
    destruct m; cbn [fill_loop]; rewrite ?E; reflexivity.
  - destruct m as [|m]; [lia|]. cbn [fill_loop].
    destruct (i <? Z.of_nat (length b)); [|reflexivity].
    apply IH; [rewrite typed_set4_length; lia | lia].
Qed.

Lemma lerp_pass_length (points : list Point) (t : Q) :
  length (lerp_pass points t) = pred (length points).
Proof.
  induction points as [|[x1 y1] [|[x2 y2] rest] IH]; try reflexivity.
  cbn [lerp_pass length] in *. rewrite IH. reflexivity.
Qed.

Lemma lerp_loop_fuel (n m : nat) (points : list Point) (t : Q) :
  (length points <= S n)%nat -> (n <= m)%nat ->
  lerp_loop m points t = lerp_loop n points t.
Proof.
  revert m points. induction n as [|n IH]; intros m points Hn Hm.
  - assert (E : (1 <? length points)%nat = false) by (apply Nat.ltb_ge; lia).
    destruct m; cbn [lerp_loop]; rewrite ?E; reflexivity.
  - destruct m as [|m]; [lia|]. cbn [lerp_loop].
    destruct (1 <? length points)%nat; [|reflexivity].
    apply IH; [rewrite lerp_pass_length; lia | lia].
Qed.

(** The loop of [drawBezier] ends when the step is positive, given the
    fuel for its iterations, and it is endless when the step is not. *)
Lemma bezier_loop_returns fuel points color (t step : Q) lastPoint d :
  (0 < step)%Q -> (1 - t < inject_Z (Z.of_nat fuel) * step)%Q ->
  bezier_loop fuel points color t step lastPoint d <> NoReturn.
Proof.
  intros Hstep. revert t lastPoint d.
  induction fuel as [|fuel IH]; intros t lastPoint d Hfuel; cbn [bezier_loop].
  - assert (E : Qle_bool t 1 = false).
    { apply Qle_bool_false_iff. change (inject_Z (Z.of_nat 0)) with 0%Q in Hfuel.
      lra. }
    rewrite E. discriminate.
  - destruct (Qle_bool t 1); [|discriminate].
    apply bind_returns; [apply drawLine_returns|]. intros _ d'. apply IH.
    rewrite Nat2Z.inj_succ, <- Z.add_1_r, inject_Z_plus in Hfuel.
    change (inject_Z 1) with 1%Q in Hfuel. lra.
Qed.

Lemma bezier_loop_endless fuel points color (t step : Q) lastPoint d :
  (step <= 0)%Q -> (t <= 1)%Q -> 0 < flushDisablers d ->
  bezier_loop fuel points color t step lastPoint d = NoReturn.
Proof.
  intros Hstep. revert t lastPoint d.
  induction fuel as [|fuel IH]; intros t lastPoint d Ht Hd; cbn [bezier_loop];
    apply Qle_bool_iff in Ht as Et; rewrite Et; [reflexivity|].
  unfold bind.
  pose proof (drawLine_returns lastPoint (lerpPoints points t) color d) as Hret.
  pose proof (disciplined_drawLine lastPoint (lerpPoints points t) color d
                (Z.lt_le_incl _ _ Hd)) as Hdis.
  destruct (drawLine _ _ _ d) as [[] d1 | e d1 |]; [| lia | congruence].
  apply IH; [lra | lia].
Qed.

Lemma drawBezier_returns points color step d :
  match step with Some s => (0 < s)%Q | None => True end ->
  exists fuel, forall fuel', (fuel <= fuel')%nat ->
    drawBezier fuel' points color step d <> NoReturn.
Proof.
  intros Hstep. destruct points as [|p0 [|p1 rest]];
    try (exists O; discriminate).
  unfold drawBezier.
  destruct (fold_left _ _ _) as [x0 y0]. destruct (fold_left _ _ _) as [x1 y1].
  set (den := Qabs (Qabs (x1 - x0) - Qabs (y1 - y0))).
  assert (Hnum : exists s : number,
            match step with
            | Some s => Num s
            | None => Js.div (ofZ 1) (Num den)
            end = s
            /\ match s with
               | Num q => (0 < q)%Q
               | PInf => True
               | _ => False
               end).
  { destruct step as [s|]; [eauto|]. cbn [Js.div ofZ].
    destruct (Qeq_bool den 0) eqn:E; [eexists; split; [reflexivity | exact I]|].
    eexists. split; [reflexivity|].
    apply Qeq_bool_neq in E.
    pose proof (Qabs_nonneg (Qabs (x1 - x0) - Qabs (y1 - y0))) as H.
    fold den in H. clearbody den.
    assert (Hden : (0 < den)%Q).
    { destruct (Qlt_le_dec 0 den) as [Hlt | Hle]; [exact Hlt|].
      exfalso. apply E, Qle_antisym; assumption. }
    change (0 < inject_Z 1 / den)%Q.
    apply Qlt_shift_div_l; [exact Hden|]. change (inject_Z 1) with 1%Q. lra. }
  destruct Hnum as (s & -> & Hs).
  destruct s as [s | | |]; try contradiction.
  - exists (S (Z.to_nat (Qfloor ((1 - s) / s) + 1))). intros fuel' Hfuel.
    apply bind_returns; [discriminate|]. intros _ d1.
    apply bind_returns; [|intros _ d2; apply bind_returns;
                           [discriminate | intros; apply flush_returns]].
    apply bezier_loop_returns; [exact Hs|].
    pose proof (fuel_above ((1 - s) / s)) as Hq.
    apply Qlt_le_trans
      with (inject_Z (Z.of_nat (S (Z.to_nat (Qfloor ((1 - s) / s) + 1)))) * s)%Q.
    + assert (E : (1 - s == (1 - s) / s * s)%Q) by (field; intros H0; lra).
      apply (Qle_lt_trans _ ((1 - s) / s * s));
        [apply Qle_lteq; right; exact E|].
      apply Qmult_lt_compat_r; assumption.
    + apply Qmult_le_compat_r; [|lra]. rewrite <- Zle_Qle. lia.
  - exists O. intros fuel' _.
    apply bind_returns; [discriminate|]. intros _ d1.
    apply bind_returns; [discriminate|]. intros _ d2.
    apply bind_returns; [discriminate | intros; apply flush_returns].
Qed.

(** Every public operation but [drawBezier] and [drawTriangle] ends on
    every input: it returns or it throws. *)
Lemma run_returns (fuel : nat) (op : DrawOp) (d : ImageDrawer) :
  match op with
  | OpBezier _ _ _ | OpTriangle _ _ => False
  | _ => True
  end ->
  run fuel op d <> NoReturn.
Proof.
  destruct op; cbn [run]; intros H; try contradiction.
  - apply drawLine_returns.
  - destruct start, end_. apply bind_returns;
      [discriminate | intros; apply flush_returns].
  - destruct start, end_. apply bind_returns; [discriminate|]. intros.
    apply bind_returns; [discriminate | intros; apply flush_returns].
  - destruct center. apply bind_returns;
      [discriminate | intros; apply flush_returns].
  - destruct center. apply bind_returns;
      [discriminate | intros; apply flush_returns].
  - apply drawPath_returns.
  - unfold fill. apply bind_returns; [discriminate|]. intros _ d'.
    destruct (toColor color); discriminate.
Qed.

Lemma fill_fuel (m : nat) (c : FullColorArray) (b : list Z) :
  (S (length b) <= m)%nat ->
  fill_loop m 0 c b = fill_loop (S (length b)) 0 c b.
Proof. intros Hm. apply fill_loop_fuel; lia. Qed.

Lemma lerp_fuel (m : nat) (points : list Point) (t : Q) :
  (length points <= m)%nat ->
  lerp_loop m points t = lerp_loop (length points) points t.
Proof. intros Hm. apply lerp_loop_fuel; lia. Qed.

(** ** Well-formed images *)

Lemma wf_new_Image (w h : Z) : 0 < w -> 0 < h -> wf_image (new_Image w h).
Proof.
  intros Hw Hh. unfold wf_image, new_Image. cbn [width height buffer].
  rewrite length_replicate. nia.
Qed.

(** ** The margin of the roundings of [Image.add]

    The blended value of byte channels is a multiple of 1/255, so it is
    at least 1/510 away from every point where [Math.round] or the byte
    conversion changes its result: the bytes stored are those of
    [spec_blend] and [spec_blend_alpha] for every value less than 1/510
    away from the exact one, and the error of binary64 arithmetic on
    these values is far below that. *)

Lemma Qabs_lt_iff (e b : Q) : (Qabs e < b)%Q <-> (- b < e /\ e < b)%Q.
Proof.
  split.
  - intros H. pose proof (Qle_Qabs e) as H1.
    pose proof (Qle_Qabs (- e)) as H2. rewrite Qabs_opp in H2. split; lra.
  - intros [H1 H2]. apply Qabs_case; intros _; lra.
Qed.

Lemma inject_Z_pred (k : Z) : (inject_Z (k - 1) == inject_Z k - 1)%Q.
Proof. unfold Z.sub. rewrite inject_Z_plus, inject_Z_opp. reflexivity. Qed.

Lemma round_margin (N : Z) (q e : Q) :
  Z.even N = true -> (q * 510 == inject_Z N)%Q -> (Qabs e < 1 # 510)%Q ->
  Math_round (q + e) = Math_round q /\ round_half_even (q + e) = Math_round q.
Proof.
  intros Heven HN [He1 He2]%Qabs_lt_iff.
  set (k := (N + 255) / 510). set (r := (N + 255) mod 510).
  assert (Hdm : N + 255 = 510 * k + r) by (apply Z.div_mod; lia).
  assert (Hr : 0 <= r < 510) by (apply Z.mod_pos_bound; lia).
  assert (Hodd : Z.odd r = true).
  { replace r with (N + 255 - 2 * (255 * k)) by lia.
    rewrite Z.odd_sub, Z.odd_add, Z.odd_mul, <- Z.negb_even, Heven.
    reflexivity. }
  assert (Hq : (510 * q == 510 * inject_Z k + inject_Z r - 255)%Q).
  { assert (E : (inject_Z N == 510 * inject_Z k + inject_Z r - 255)%Q).
    { replace N with (510 * k + r - 255) by lia.
      unfold Z.sub. rewrite !inject_Z_plus, inject_Z_mult. reflexivity. }
    rewrite E in HN. lra. }
  assert (Hr1 : (1 <= inject_Z r <= 509)%Q).
  { assert (1 <= r <= 509).
    { destruct (Z.eq_dec r 0) as [->|]; [discriminate|].
      destruct (Z.eq_dec r 509) as [->|]; [lia|].
      destruct (Z.eq_dec r 510); lia. }
    change 1%Q with (inject_Z 1). change 509%Q with (inject_Z 509).
    rewrite <- !Zle_Qle. lia. }
  clearbody k r. clear HN Hdm.
  assert (Hround : forall e', (- (1 # 510) < e' /\ e' < 1 # 510)%Q ->
            Math_round (q + e') = k).
  { intros e' [H1 H2]. unfold Math_round. apply Qfloor_unique.
    - lra.
    - rewrite inject_Z_plus. change (inject_Z 1) with 1%Q. lra. }
  assert (Hk : Math_round q = k).
  { rewrite <- (Hround 0%Q) by (split; reflexivity).
    apply Math_round_Qeq. lra. }
  split; [rewrite Hk; apply Hround; split; assumption|].
  rewrite Hk. unfold round_half_even.
  destruct (Z_lt_dec r 255) as [Hlo | Hhi].
  - assert (Hlo' : (inject_Z r <= 253)%Q).
    { change 253%Q with (inject_Z 253). rewrite <- Zle_Qle.
      destruct (Z.eq_dec r 254) as [->|]; [discriminate | lia]. }
    assert (Ef : Qfloor (q + e) = k - 1).
    { apply Qfloor_unique.
      - rewrite inject_Z_pred. lra.
      - replace (k - 1 + 1) with k by lia. lra. }
    rewrite Ef.
    assert (E : (q + e - inject_Z (k - 1) ?= 1 # 2)%Q = Gt).
    { rewrite <- Qgt_alt, inject_Z_pred.
      lra. }
    rewrite E. lia.
  - destruct (Qlt_le_dec (q + e) (inject_Z k)) as [Hbelow | Habove].
    + assert (Ef : Qfloor (q + e) = k - 1).
      { apply Qfloor_unique.
        - rewrite inject_Z_pred.
          assert (255 <= inject_Z r)%Q
            by (change 255%Q with (inject_Z 255); rewrite <- Zle_Qle; lia).
          lra.
        - replace (k - 1 + 1) with k by lia. exact Hbelow. }
      rewrite Ef.
      assert (E : (q + e - inject_Z (k - 1) ?= 1 # 2)%Q = Gt).
      { rewrite <- Qgt_alt, inject_Z_pred.
        assert (255 <= inject_Z r)%Q
          by (change 255%Q with (inject_Z 255); rewrite <- Zle_Qle; lia).
        lra. }
      rewrite E. lia.
    + assert (Ef : Qfloor (q + e) = k).
      { apply Qfloor_unique; [exact Habove|].
        rewrite inject_Z_plus. change (inject_Z 1) with 1%Q. lra. }
      rewrite Ef.
      assert (E : (q + e - inject_Z k ?= 1 # 2)%Q = Lt).
      { rewrite <- Qlt_alt.
        assert (Hhi' : (inject_Z r <= 509)%Q) by lra.
        assert (Hr255 : r = 255 \/ 257 <= r).
        { destruct (Z.eq_dec r 256) as [->|]; [discriminate | lia]. }
        destruct Hr255 as [-> | Hr257].
        - change (inject_Z 255) with 255%Q in Hq. lra.
        - assert (Hr508 : (inject_Z r <= 509)%Q) by lra. lra. }
      rewrite E. reflexivity.
Qed.

Lemma round_half_even_Qeq (p q : Q) :
  (p == q)%Q -> round_half_even p = round_half_even q.
Proof.
  intros E. unfold round_half_even. rewrite (Qfloor_comp _ _ E).
  assert (Ec : (p - inject_Z (Qfloor q) ?= 1 # 2)%Q
               = (q - inject_Z (Qfloor q) ?= 1 # 2)%Q)
    by (apply Qcompare_comp; [rewrite E|]; reflexivity).
  rewrite Ec. reflexivity.
Qed.

Lemma blend_times_510 (c c2 a2 : Z) :
  ((inject_Z c * (1 - inject_Z a2 / 255) + inject_Z c2 * (inject_Z a2 / 255))
   * 510
   == inject_Z (2 * (c * (255 - a2) + c2 * a2)))%Q.
Proof.
  unfold Z.sub.
  repeat (rewrite inject_Z_plus || rewrite inject_Z_mult
          || rewrite inject_Z_opp).
  change (inject_Z 2) with 2%Q. change (inject_Z 255) with 255%Q. field.
Qed.

(** The color channels: any value less than 1/510 away from the exact
    blend rounds to [spec_blend]. *)
Lemma spec_blend_margin (c c2 a2 : Z) (e : Q) :
  (Qabs e < 1 # 510)%Q ->
  Math_round
    (inject_Z c * (1 - inject_Z a2 / 255) + inject_Z c2 * (inject_Z a2 / 255)
     + e)
  = spec_blend c c2 a2.
Proof.
  intros He. unfold spec_blend.
  apply (round_margin (2 * (c * (255 - a2) + c2 * a2)));
    [rewrite Z.even_mul; reflexivity | apply blend_times_510 | exact He].
Qed.

(** The alpha: any value less than 1/510 away from the exact
    [a + a2 * (1 - a2/255)] is stored as [spec_blend_alpha]. *)
Lemma spec_blend_alpha_margin (a a2 : Z) (e : Q) :
  is_byte a -> is_byte a2 -> (Qabs e < 1 # 510)%Q ->
  ToUint8Clamp (Num (inject_Z a + inject_Z a2 * (1 - inject_Z a2 / 255) + e))
  = spec_blend_alpha a a2.
Proof.
  intros Ha Ha2 He. pose proof (blend_alpha_nonneg a a2 Ha Ha2) as Hq.
  unfold spec_blend_alpha.
  set (q := (inject_Z a + inject_Z a2 * (1 - inject_Z a2 / 255))%Q) in *.
  assert (HN : (q * 510 == inject_Z (2 * (a * 255 + a2 * (255 - a2))))%Q).
  { unfold q, Z.sub.
    repeat (rewrite inject_Z_plus || rewrite inject_Z_mult
            || rewrite inject_Z_opp).
    change (inject_Z 2) with 2%Q. change (inject_Z 255) with 255%Q. field. }
  assert (Heven : Z.even (2 * (a * 255 + a2 * (255 - a2))) = true)
    by (rewrite Z.even_mul; reflexivity).
  destruct (round_margin _ q e Heven HN He) as [_ Hrhe].
  assert (Hrhe0 : round_half_even q = Math_round q).
  { destruct (round_margin _ q 0 Heven HN) as [_ H0]; [reflexivity|].
    rewrite <- H0. apply round_half_even_Qeq. lra. }
  rewrite Hrhe0. clearbody q. apply Qabs_lt_iff in He as [He1 He2].
  unfold ToUint8Clamp.
  destruct (Qle_bool (q + e) 0) eqn:E0.
  - apply Qle_bool_iff in E0.
    assert (Ek : Math_round q = 0).
    { unfold Math_round. apply Qfloor_unique.
      - change (inject_Z 0) with 0%Q. lra.
      - change (inject_Z (0 + 1)) with 1%Q. lra. }
    rewrite Ek. reflexivity.
  - destruct (Qle_bool 255 (q + e)) eqn:E255.
    + apply Qle_bool_iff in E255.
      assert (255 <= Math_round q).
      { apply Math_round_ge_iff. change (inject_Z 255) with 255%Q. lra. }
      lia.
    + apply Qle_bool_false_iff in E255. rewrite Hrhe.
      assert (Math_round q < 256).
      { unfold Math_round. apply Qfloor_lt_iff.
        change (inject_Z 256) with 256%Q. lra. }
      lia.
Qed.

(** * Further properties

    Properties of the code besides those of the specification: the
    pixels each operation writes and those it leaves alone, the edge
    cases of its inputs, and how calls compose.  A statement that
    follows a loop to its end takes integer inputs in the range where
    the counters of the source are exact ([safe_coordinate],
    [safe_factor]); a statement about interpolated points takes them
    at the values of [t] where the source computes them exactly; and
    where a statement rounds a computed fraction (the channels of an
    [hsl(...)] color) it is stated with the margin of that rounding. *)

(** ** Pixels: [Image.set], [Image.get], [Image.add] *)

Lemma Image_set_rounds (img : Image) (px py : Q) (color : Color) :
  Image_set img (px, py) color
  = Image_set img (inject_Z (Math_round px), inject_Z (Math_round py)) color.
Proof.
  unfold Image_set. cbn [fst snd]. rewrite !Math_round_inject_Z. reflexivity.
Qed.

Lemma stored_bytes (r g b a : Z) :
  is_byte r -> is_byte g -> is_byte b -> is_byte a ->
  stored (ofZ r, ofZ g, ofZ b, ofZ a) = (ofZ r, ofZ g, ofZ b, ofZ a).
Proof.
  intros Hr Hg Hb Ha. unfold stored. rewrite !ToUint8Clamp_byte by assumption.
  reflexivity.
Qed.

(** X1.  Round trip of [set] and [get].  [Image.set] at a point whose
    rounded coordinates are a pixel of the image returns, and
    [Image.get] at that pixel then reads the color as the byte array
    stores it: the very color when its four channels are bytes. *)
Theorem Image_set_then_get
  (img : Image) (px py : Q) (color : Color) (cn : FullColorArray) :
  wf_image img ->
  0 <= Math_round px < width img -> 0 <= Math_round py < height img ->
  toColor color = Returns cn ->
  exists img',
    Image_set img (px, py) color = Returns img'
    /\ Image_get img' (inject_Z (Math_round px), inject_Z (Math_round py))
       = stored cn
    /\ (forall r g b a,
          cn = (ofZ r, ofZ g, ofZ b, ofZ a) ->
          is_byte r -> is_byte g -> is_byte b -> is_byte a ->
          Image_get img' (inject_Z (Math_round px), inject_Z (Math_round py))
          = cn).
Proof.
  intros Hwf Hx Hy Hc. rewrite Image_set_rounds.
  destruct (pixel_index_bounds img _ _ Hwf Hx Hy) as [Hi0 Hi3].
  eexists. split; [apply (Image_set_in_range img _ _ color cn Hx Hy Hc)|].
  assert (Hget : forall img0,
            img0 = mkImage (width img) (height img)
                     (typed_set4 (buffer img)
                        ((Math_round py * width img + Math_round px) * 4) cn) ->
            Image_get img0 (inject_Z (Math_round px), inject_Z (Math_round py))
            = stored cn).
  { intros img0 ->. rewrite Image_get_Z. cbn [width buffer].
    apply load4_set4_stored; assumption. }
  split; [apply Hget; reflexivity|].
  intros r g b a -> Hr Hg Hb Ha. rewrite (Hget _ eq_refl).
  apply stored_bytes; assumption.
Qed.

Lemma Image_set_then_get_witness :
  exists img',
    Image_set (new_Image 2 2) (3 # 5, 1 # 4)%Q (ColorString "#0A141E28")
    = Returns img'
    /\ Image_get img' (inject_Z 1, inject_Z 0)
       = (ofZ 10, ofZ 20, ofZ 30, ofZ 40).
Proof.
  assert (Hwf : wf_image (new_Image 2 2))
    by (unfold wf_image; repeat apply conj; reflexivity).
  assert (Hx : 0 <= Math_round (3 # 5) < width (new_Image 2 2))
    by (change (0 <= 1 < 2); lia).
  assert (Hy : 0 <= Math_round (1 # 4) < height (new_Image 2 2))
    by (change (0 <= 0 < 2); lia).
  destruct (Image_set_then_get (new_Image 2 2) (3 # 5) (1 # 4)
              (ColorString "#0A141E28") (ofZ 10, ofZ 20, ofZ 30, ofZ 40)
              Hwf Hx Hy eq_refl) as (img' & Hset & _ & Hbytes).
  exists img'. split; [exact Hset|].
  apply (Hbytes 10 20 30 40); unfold is_byte; try reflexivity; lia.
Defined.

(** X2.  Frame of [set].  Whatever the point and the color,
    [Image.set], when it returns, leaves the sides of the image and the
    length of its buffer as they were, and every pixel of the image
    other than the one the point rounds to reads as before. *)
Theorem Image_set_frame
  (img img' : Image) (px py : Q) (color : Color) (x y : Z) :
  wf_image img ->
  Image_set img (px, py) color = Returns img' ->
  wf_image img' /\ same_shape img img'
  /\ (0 <= x < width img -> 0 <= y < height img ->
      (x, y) <> (Math_round px, Math_round py) ->
      Image_get img' (inject_Z x, inject_Z y)
      = Image_get img (inject_Z x, inject_Z y)).
Proof.
  intros Hwf. rewrite Image_set_rounds.
  destruct (toColor color) as [cn | e] eqn:Hc;
    [|unfold Image_set; rewrite Hc; discriminate].
  set (rx := Math_round px). set (ry := Math_round py).
  destruct (decide (0 <= rx < width img /\ 0 <= ry < height img))
    as [[Hrx Hry] | Hout].
  - rewrite (Image_set_in_range img rx ry color cn Hrx Hry Hc).
    intros [= <-]. pose proof Hwf as (HW & HH & Hlen).
    unfold wf_image, same_shape. cbn [width height buffer].
    rewrite typed_set4_length. repeat split; try assumption.
    intros Hx Hy Hne.
    destruct (pixel_index_bounds img x y Hwf Hx Hy) as [Hi0 _].
    rewrite !Image_get_Z. cbn [width buffer].
    apply load4_set4_other; [exact Hi0|].
    assert (y * width img + x <> ry * width img + rx).
    { intros E. apply Hne.
      destruct (pixel_key_inj (width img) x y rx ry); try lia.
      congruence. }
    lia.
  - rewrite (Image_set_out_of_range img rx ry color cn Hout Hc).
    intros [= <-]; unfold same_shape; auto.
Qed.

Lemma Image_set_frame_witness :
  Image_get
    (mkImage 2 2 [255; 255; 255; 255; 0; 0; 0; 0; 0; 0; 0; 0; 0; 0; 0; 0])
    (inject_Z 1, inject_Z 1)
  = Image_get (new_Image 2 2) (inject_Z 1, inject_Z 1).
Proof.
  assert (Hwf : wf_image (new_Image 2 2))
    by (unfold wf_image; repeat apply conj; reflexivity).
  apply (Image_set_frame (new_Image 2 2) _ (- (2 # 5)) 0
           (ColorString "#FFFFFF") 1 1 Hwf eq_refl);
    [change (0 <= 1 < 2); lia | change (0 <= 1 < 2); lia | discriminate].
Defined.

(** ** Bytes *)

Lemma ToUint8Clamp_is_byte (a : number) : is_byte (ToUint8Clamp a).
Proof.
  unfold is_byte. destruct a as [q | | |]; cbn [ToUint8Clamp]; try lia.
  destruct (Qle_bool q 0) eqn:E0; [lia|].
  destruct (Qle_bool 255 q) eqn:E255; [lia|].
  apply Qle_bool_false_iff in E0. apply Qle_bool_false_iff in E255.
  pose proof (round_half_even_bounds q) as Hb.
  assert (0 <= Qfloor q) by (apply Qfloor_ge_iff; change (inject_Z 0) with 0%Q; lra).
  assert (Qfloor q < 255) by (apply Qfloor_lt_iff; change (inject_Z 255) with 255%Q; lra).
  lia.
Qed.

Lemma typed_store_bytes (b : list Z) (i : Z) (v : number) :
  Forall is_byte b -> Forall is_byte (typed_store b i v).
Proof.
  intros Hb. unfold typed_store. destruct (0 <=? i); [|exact Hb].
  apply Forall_insert; [exact Hb | apply ToUint8Clamp_is_byte].
Qed.

Lemma typed_set4_bytes (b : list Z) (i : Z) (c : FullColorArray) :
  Forall is_byte b -> Forall is_byte (typed_set4 b i c).
Proof.
  intros Hb. destruct c as [[[c0 c1] c2] c3]. unfold typed_set4.
  repeat apply typed_store_bytes. exact Hb.
Qed.

Lemma typed_load_byte (b : list Z) (k : Z) :
  Forall is_byte b -> 0 <= k < Z.of_nat (length b) ->
  exists v, typed_load b (inject_Z k) = ofZ v /\ is_byte v.
Proof.
  intros Hb Hk. rewrite typed_load_Z by lia.
  destruct (lookup_lt_is_Some_2 b (Z.to_nat k)) as [v Hv]; [lia|].
  rewrite Hv. exists v. split; [reflexivity|].
  rewrite Forall_lookup in Hb. exact (Hb _ _ Hv).
Qed.

(** A pixel of an image whose buffer holds bytes reads as four bytes. *)
Lemma Image_get_bytes (img : Image) (x y : Z) :
  wf_image img -> bytes_image img ->
  0 <= x < width img -> 0 <= y < height img ->
  exists r g b a,
    Image_get img (inject_Z x, inject_Z y) = (ofZ r, ofZ g, ofZ b, ofZ a)
    /\ is_byte r /\ is_byte g /\ is_byte b /\ is_byte a.
Proof.
  intros Hwf Hb Hx Hy.
  destruct (pixel_index_bounds img x y Hwf Hx Hy) as [Hi0 Hi3].
  rewrite Image_get_Z. unfold load4.
  set (i := (y * width img + x) * 4) in *.
  destruct (typed_load_byte (buffer img) (i + 0) Hb) as (r & -> & Hr); [lia|].
  destruct (typed_load_byte (buffer img) (i + 1) Hb) as (g & -> & Hg); [lia|].
  destruct (typed_load_byte (buffer img) (i + 2) Hb) as (b & -> & Hbb); [lia|].
  destruct (typed_load_byte (buffer img) (i + 3) Hb) as (a & -> & Ha); [lia|].
  exists r, g, b, a. auto.
Qed.

(** [Image.set] and [Image.add] keep the sides, the length of the buffer
    and its bytes, at any point. *)
Lemma Image_set_keeps (img img' : Image) (p : Point) (color : Color) :
  Image_set img p color = Returns img' ->
  same_shape img img' /\ (bytes_image img -> bytes_image img').
Proof.
  destruct p as [px py]. rewrite Image_set_rounds.
  destruct (toColor color) as [cn | e] eqn:Hc;
    [|unfold Image_set; rewrite Hc; discriminate].
  set (rx := Math_round px). set (ry := Math_round py).
  destruct (decide (0 <= rx < width img /\ 0 <= ry < height img))
    as [[Hrx Hry] | Hout].
  - rewrite (Image_set_in_range img rx ry color cn Hrx Hry Hc).
    intros [= <-]. unfold same_shape, bytes_image. cbn [width height buffer].
    rewrite typed_set4_length. repeat split. apply typed_set4_bytes.
  - rewrite (Image_set_out_of_range img rx ry color cn Hout Hc).
    intros [= <-]. unfold same_shape. auto.
Qed.

Lemma Image_add_keeps (img img' : Image) (p : Point) (color : Color) :
  Image_add img p color = Returns img' ->
  same_shape img img' /\ (bytes_image img -> bytes_image img').
Proof.
  destruct (toColor color) as [cn | e] eqn:Hc;
    [|unfold Image_add; rewrite Hc; discriminate].
  destruct (Image_add_blend img p color cn Hc) as (r3 & g3 & b3 & a3 & _ & ->).
  apply Image_set_keeps.
Qed.

Lemma same_shape_refl (img : Image) : same_shape img img.
Proof. unfold same_shape. auto. Qed.

Lemma same_shape_trans (a b c : Image) :
  same_shape a b -> same_shape b c -> same_shape a c.
Proof. unfold same_shape. intros (? & ? & ?) (? & ? & ?). repeat split; congruence. Qed.

Lemma same_shape_wf (a b : Image) : same_shape a b -> wf_image a -> wf_image b.
Proof.
  unfold same_shape, wf_image. intros (-> & -> & ->). auto.
Qed.

Lemma flush_loop_keeps (blend_on : bool) (entries : list (Z * Color))
  (img img' : Image) (oe : option Error) :
  flush_loop blend_on entries img = (img', oe) ->
  same_shape img img' /\ (bytes_image img -> bytes_image img').
Proof.
  revert img. induction entries as [|[k c] rest IH]; intros img.
  - cbn [flush_loop]. intros [= <- <-]. split; [apply same_shape_refl | auto].
  - cbn [flush_loop].
    destruct (if blend_on then _ else _) as [img1 | e] eqn:E.
    + intros H. destruct (IH _ H) as [Hs Hb].
      assert (Hk : same_shape img img1 /\ (bytes_image img -> bytes_image img1)).
      { destruct blend_on; [eapply Image_add_keeps | eapply Image_set_keeps];
          exact E. }
      destruct Hk as [Hs1 Hb1].
      split; [eapply same_shape_trans; eassumption | auto].
    + intros [= <- <-]. split; [apply same_shape_refl | auto].
Qed.

Lemma fill_loop_keeps (fuel : nat) (i : Z) (c : FullColorArray) (b : list Z) :
  length (fill_loop fuel i c b) = length b
  /\ (Forall is_byte b -> Forall is_byte (fill_loop fuel i c b)).
Proof.
  revert i b. induction fuel as [|fuel IH]; intros i b; [cbn; auto|].
  cbn [fill_loop]. destruct (i <? Z.of_nat (length b)); [|auto].
  destruct (IH (i + 4) (typed_set4 b i c)) as [Hl Hb].
  rewrite Hl, typed_set4_length. split; [reflexivity|].
  intros H. apply Hb, typed_set4_bytes, H.
Qed.

Lemma flush_keeps (d d' : ImageDrawer) :
  final (flush d) = Some d' ->
  same_shape (image d) (image d')
  /\ (bytes_image (image d) -> bytes_image (image d'))
  /\ blending d' = blending d /\ lineThickness d' = lineThickness d
  /\ flushDisablers d' = flushDisablers d.
Proof.
  unfold flush. destruct (negb _).
  - cbn [final]. intros [= <-]. split; [apply same_shape_refl | auto].
  - destruct (flush_loop _ _ _) as [img [e|]] eqn:E;
      cbn [final]; intros [= <-];
      destruct (flush_loop_keeps _ _ _ _ _ E) as [Hs Hb];
      cbn [image set_image set_temporaryBuffer blending lineThickness
             flushDisablers]; auto.
Qed.

Lemma Qsquare_nonneg (q : Q) : (0 <= q * q)%Q.
Proof.
  destruct (Qlt_le_dec q 0).
  - assert (E : (q * q == (- q) * (- q))%Q) by ring.
    rewrite E. apply Qmult_le_0_compat; lra.
  - apply Qmult_le_0_compat; lra.
Qed.

(** X3.  [Image.add] with an opaque color.  On a pixel of an image of
    bytes, adding a color of alpha 255 whose other channels are bytes
    replaces the red, green and blue of the pixel by those of the color
    and leaves the alpha of the pixel as it was: drawn on a transparent
    pixel, an opaque color stays transparent. *)
Theorem Image_add_opaque_keeps_alpha
  (img : Image) (x y : Z) (color : Color) (r2 g2 b2 : Z) :
  wf_image img -> bytes_image img ->
  0 <= x < width img -> 0 <= y < height img ->
  toColor color = Returns (ofZ r2, ofZ g2, ofZ b2, ofZ 255) ->
  is_byte r2 -> is_byte g2 -> is_byte b2 ->
  exists img' r g b a,
    Image_get img (inject_Z x, inject_Z y) = (ofZ r, ofZ g, ofZ b, ofZ a)
    /\ Image_add img (inject_Z x, inject_Z y) color = Returns img'
    /\ Image_get img' (inject_Z x, inject_Z y)
       = (ofZ r2, ofZ g2, ofZ b2, ofZ a).
Proof.
  intros Hwf Hbytes Hx Hy Hc Hr2 Hg2 Hb2.
  destruct (Image_get_bytes img x y Hwf Hbytes Hx Hy)
    as (r & g & b & a & Hget & Hr & Hg & Hb & Ha).
  destruct (pixel_index_bounds img x y Hwf Hx Hy) as [Hi0 Hi3].
  eexists. exists r, g, b, a. split; [exact Hget|].
  split; [apply (Image_add_in_range img x y color _ Hx Hy Hc)|].
  assert (Hch : forall c c2, spec_blend c c2 255 = c2).
  { intros c c2. unfold spec_blend. rewrite <- (Math_round_inject_Z c2) at 2.
    apply Math_round_Qeq. change (inject_Z 255) with 255%Q. field. }
  assert (H255 : is_byte 255) by (unfold is_byte; lia).
  rewrite Image_get_Z, Hget, blend_bytes. cbn [buffer width].
  rewrite load4_set4_same by assumption.
  rewrite !ToUint8Clamp_byte by (apply spec_blend_byte; assumption).
  rewrite !Hch.
  assert (Ea : (inject_Z a + inject_Z 255 * (1 - inject_Z 255 / 255)
                == inject_Z a)%Q)
    by (change (inject_Z 255) with 255%Q; field).
  assert (E : ToUint8Clamp
                (Num (inject_Z a + inject_Z 255 * (1 - inject_Z 255 / 255)))
              = a).
  { rewrite ToUint8Clamp_nonneg
      by (rewrite Ea; apply inject_Z_byte in Ha; lra).
    rewrite (round_half_even_Qeq _ _ Ea), round_half_even_inject_Z.
    unfold is_byte in Ha. lia. }
  rewrite E. reflexivity.
Qed.

Lemma Image_add_opaque_keeps_alpha_witness :
  exists img' r g b a,
    Image_get (new_Image 2 1) (inject_Z 1, inject_Z 0)
    = (ofZ r, ofZ g, ofZ b, ofZ a)
    /\ Image_add (new_Image 2 1) (inject_Z 1, inject_Z 0)
         (ColorString "#FFFFFF") = Returns img'
    /\ Image_get img' (inject_Z 1, inject_Z 0)
       = (ofZ 255, ofZ 255, ofZ 255, ofZ a).
Proof.
  apply (Image_add_opaque_keeps_alpha (new_Image 2 1) 1 0
           (ColorString "#FFFFFF") 255 255 255);
    try reflexivity; try (unfold is_byte; lia).
  - unfold wf_image; repeat apply conj; reflexivity.
  - unfold bytes_image, is_byte. cbn. repeat constructor; lia.
  - change (0 <= 1 < 2). lia.
  - change (0 <= 0 < 1). lia.
Defined.

(** X4.  The alpha under [Image.add].  On a pixel of an image of bytes,
    adding a color whose channels are bytes stores four bytes again, and
    the alpha stored is never below the alpha the pixel had and at most
    64 above it. *)
Theorem Image_add_alpha_grows
  (img : Image) (x y : Z) (color : Color) (r2 g2 b2 a2 : Z) :
  wf_image img -> bytes_image img ->
  0 <= x < width img -> 0 <= y < height img ->
  toColor color = Returns (ofZ r2, ofZ g2, ofZ b2, ofZ a2) ->
  is_byte r2 -> is_byte g2 -> is_byte b2 -> is_byte a2 ->
  exists img' r g b a r' g' b' a',
    Image_get img (inject_Z x, inject_Z y) = (ofZ r, ofZ g, ofZ b, ofZ a)
    /\ Image_add img (inject_Z x, inject_Z y) color = Returns img'
    /\ Image_get img' (inject_Z x, inject_Z y)
       = (ofZ r', ofZ g', ofZ b', ofZ a')
    /\ is_byte r' /\ is_byte g' /\ is_byte b'
    /\ a <= a' <= Z.min 255 (a + 64).
Proof.
  intros Hwf Hbytes Hx Hy Hc Hr2 Hg2 Hb2 Ha2.
  destruct (Image_get_bytes img x y Hwf Hbytes Hx Hy)
    as (r & g & b & a & Hget & Hr & Hg & Hb & Ha).
  destruct (pixel_index_bounds img x y Hwf Hx Hy) as [Hi0 Hi3].
  eexists. exists r, g, b, a.
  exists (spec_blend r r2 a2), (spec_blend g g2 a2), (spec_blend b b2 a2),
    (spec_blend_alpha a a2).
  split; [exact Hget|].
  split; [apply (Image_add_in_range img x y color _ Hx Hy Hc)|].
  split.
  { rewrite Image_get_Z, Hget, blend_bytes. cbn [buffer width].
    rewrite load4_set4_same by assumption.
    rewrite !ToUint8Clamp_byte by (apply spec_blend_byte; assumption).
    rewrite ToUint8Clamp_nonneg by (apply blend_alpha_nonneg; assumption).
    reflexivity. }
  repeat (split; [apply spec_blend_byte; assumption|]).
  unfold spec_blend_alpha.
  pose proof (inject_Z_byte a Ha) as HA. pose proof (inject_Z_byte a2 Ha2) as HA2.
  set (q := (inject_Z a + inject_Z a2 * (1 - inject_Z a2 / 255))%Q).
  pose proof (round_half_even_bounds q) as Hrb.
  assert (Hq : (inject_Z a <= q /\ q < inject_Z (a + 64))%Q).
  { unfold q. rewrite inject_Z_plus. change (inject_Z 64) with 64%Q.
    set (A := inject_Z a) in *. set (A2 := inject_Z a2) in *.
    set (al := (A2 / 255)%Q).
    assert (Eal : (A2 == 255 * al)%Q) by (unfold al; field).
    assert (Eq : (A + A2 * (1 - al) == A + 255 * (al * (1 - al)))%Q)
      by (rewrite Eal; ring).
    rewrite Eq. clearbody al. clearbody A A2.
    assert (Hal : (0 <= al <= 1)%Q) by (split; lra).
    pose proof (Qsquare_nonneg (2 * al - 1)) as Hsq.
    split; nra. }
  destruct Hq as [Hlo Hhi].
  apply Qfloor_ge_iff in Hlo. apply Qfloor_lt_iff in Hhi.
  unfold is_byte in Ha. lia.
Qed.

Lemma Image_add_alpha_grows_witness :
  exists img' r g b a r' g' b' a',
    Image_get (new_Image 2 1) (inject_Z 1, inject_Z 0)
    = (ofZ r, ofZ g, ofZ b, ofZ a)
    /\ Image_add (new_Image 2 1) (inject_Z 1, inject_Z 0)
         (ColorString "#FFFFFF80") = Returns img'
    /\ Image_get img' (inject_Z 1, inject_Z 0)
       = (ofZ r', ofZ g', ofZ b', ofZ a')
    /\ is_byte r' /\ is_byte g' /\ is_byte b'
    /\ a <= a' <= Z.min 255 (a + 64).
Proof.
  apply (Image_add_alpha_grows (new_Image 2 1) 1 0
           (ColorString "#FFFFFF80") 255 255 255 128);
    try reflexivity; try (unfold is_byte; lia).
  - unfold wf_image; repeat apply conj; reflexivity.
  - unfold bytes_image, is_byte. cbn. repeat constructor; lia.
  - change (0 <= 1 < 2). lia.
  - change (0 <= 0 < 1). lia.
Defined.

(** ** What an operation leaves alone *)

(** X5.  Every drawing operation called on a drawer at rest, whether it
    returns or throws, leaves the sides of the image and the length of
    its buffer as they were, keeps a buffer of bytes a buffer of bytes,
    and changes neither the blending flag nor the line thickness. *)
Theorem run_keeps_shape_and_settings
  (fuel : nat) (op : DrawOp) (d d' : ImageDrawer) :
  flushDisablers d = 0 ->
  final (run fuel op d) = Some d' ->
  same_shape (image d) (image d')
  /\ (wf_image (image d) -> wf_image (image d'))
  /\ (bytes_image (image d) -> bytes_image (image d'))
  /\ blending d' = blending d /\ lineThickness d' = lineThickness d.
Proof.
  intros Hd Hfin.
  assert (Hgoal : same_shape (image d) (image d')
                  /\ (bytes_image (image d) -> bytes_image (image d'))
                  /\ blending d' = blending d
                  /\ lineThickness d' = lineThickness d).
  { destruct (is_shape op) eqn:Hshape.
    - destruct (run_stages_then_flushes fuel op d Hshape Hd)
        as [E | [E | [ps E]]]; rewrite E in Hfin.
      + discriminate.
      + cbn [final] in Hfin. injection Hfin as <-.
        split; [apply same_shape_refl | auto].
      + destruct (stage_all_frame (op_color op) ps d) as (Hi & Hb & Ht & _).
        destruct (flush_keeps _ _ Hfin) as (Hs & Hby & Hb' & Ht' & _).
        rewrite Hi in Hs, Hby. rewrite Hb', Ht', Hb, Ht. auto.
    - destruct op; try discriminate. cbn [run] in Hfin.
      unfold fill, bind, modify in Hfin.
      destruct (toColor color) as [cn | e]; cbn [final] in Hfin;
        injection Hfin as <-;
        cbn [image set_image set_temporaryBuffer blending lineThickness
               width height buffer].
      + destruct (fill_loop_keeps (S (length (buffer (image d)))) 0 cn
                    (buffer (image d))) as [Hl Hb].
        unfold same_shape, bytes_image. cbn [width height buffer]. auto.
      + split; [apply same_shape_refl | auto]. }
  destruct Hgoal as (Hs & Hb & Hbl & Ht).
  split; [exact Hs|]. split; [apply same_shape_wf, Hs|]. auto.
Qed.

Lemma run_keeps_shape_and_settings_witness :
  same_shape (new_Image 3 3)
    (mkImage 3 3
       [0; 0; 0; 0; 0; 0; 0; 0; 0; 0; 0; 0;
        0; 0; 0; 0; 255; 0; 0; 0; 0; 0; 0; 0;
        0; 0; 0; 0; 0; 0; 0; 0; 0; 0; 0; 0]).
Proof.
  apply (run_keeps_shape_and_settings 0
           (OpCircle (1, 1)%Q 0 (ColorString "#FF0000"))
           (new_ImageDrawer (new_Image 3 3))
           (mkDrawer
              (mkImage 3 3
                 [0; 0; 0; 0; 0; 0; 0; 0; 0; 0; 0; 0;
                  0; 0; 0; 0; 255; 0; 0; 0; 0; 0; 0; 0;
                  0; 0; 0; 0; 0; 0; 0; 0; 0; 0; 0; 0])
              true 1 [] 0)); reflexivity.
Defined.

(** ** What a flush writes *)

(** One entry of the pending writes, flushed with or without blending:
    the pixel of the key takes what [written] says, the others stay. *)
Lemma Image_write_key (blend_on : bool) (img : Image) (k : Z) (color : Color)
  (cn : FullColorArray) :
  wf_image img -> 0 <= k -> toColor color = Returns cn ->
  exists img1,
    (if blend_on
     then Image_add img
            (inject_Z (Z.rem k (width img)), inject_Z (k / width img)) color
     else Image_set img
            (inject_Z (Z.rem k (width img)), inject_Z (k / width img)) color)
    = Returns img1
    /\ wf_image img1
    /\ width img1 = width img /\ height img1 = height img
    /\ forall x y, 0 <= x < width img -> 0 <= y < height img ->
         (y * width img + x = k ->
          Image_get img1 (inject_Z x, inject_Z y)
          = stored (written blend_on (Image_get img (inject_Z x, inject_Z y))
                      cn))
         /\ (y * width img + x <> k ->
             Image_get img1 (inject_Z x, inject_Z y)
             = Image_get img (inject_Z x, inject_Z y)).
Proof.
  intros Hwf Hk Hc. destruct blend_on; [apply Image_add_key; assumption|].
  pose proof Hwf as (HW & HH & Hlen).
  destruct (key_decompose (width img) k HW Hk) as (Hx & Hy & Hkey).
  set (xk := Z.rem k (width img)) in *. set (yk := k / width img) in *.
  clearbody xk yk. unfold written.
  destruct (Z_lt_dec yk (height img)) as [Hin | Hout].
  - eexists. split;
      [apply (Image_set_in_range img xk yk color cn); [lia | lia | exact Hc]|].
    split; [|split; [reflexivity | split; [reflexivity|]]].
    + unfold wf_image. cbn [width height buffer].
      rewrite typed_set4_length. auto.
    + intros x y Hxr Hyr.
      destruct (pixel_index_bounds img x y Hwf Hxr Hyr) as [Hi0 Hi3].
      rewrite !Image_get_Z. cbn [width buffer]. split.
      * intros Hxy.
        destruct (pixel_key_inj (width img) x y xk yk) as [-> ->];
          [lia | lia | lia | lia |].
        apply load4_set4_stored; assumption.
      * intros Hxy. apply load4_set4_other; [exact Hi0 | lia].
  - exists img. split;
      [apply (Image_set_out_of_range img xk yk color cn); [lia | exact Hc]|].
    split; [exact Hwf | split; [reflexivity | split; [reflexivity|]]].
    intros x y Hxr Hyr. split; [|reflexivity].
    intros Hxy.
    destruct (pixel_key_inj (width img) x y xk yk) as [-> ->]; lia.
Qed.

(** The loop of [flush] over the pending writes of one operation whose
    color is valid: it does not throw, the pixels of the keys are
    written once, the others stay. *)
Lemma flush_loop_exact (blend_on : bool) (color : Color)
  (cn : FullColorArray) (entries : list (Z * Color)) (img : Image) :
  wf_image img -> pending_ok color entries -> toColor color = Returns cn ->
  exists img',
    flush_loop blend_on entries img = (img', None)
    /\ forall x y, 0 <= x < width img -> 0 <= y < height img ->
         (elem_of (y * width img + x) (map fst entries) ->
          Image_get img' (inject_Z x, inject_Z y)
          = stored (written blend_on (Image_get img (inject_Z x, inject_Z y))
                      cn))
         /\ (~ elem_of (y * width img + x) (map fst entries) ->
             Image_get img' (inject_Z x, inject_Z y)
             = Image_get img (inject_Z x, inject_Z y)).
Proof.
  intros Hwf Hok Hcn. revert img Hwf.
  induction entries as [|[k c] rest IH]; intros img Hwf.
  - exists img. split; [reflexivity|]. intros x y _ _. split; [|reflexivity].
    intros Hin. inversion Hin.
  - destruct Hok as [Hnd Hall]. cbn [map fst] in Hnd.
    apply NoDup_cons in Hnd as [Hk Hnd].
    apply Forall_cons in Hall as [[Hk0 Hc] Hall]. cbn [fst snd] in Hk0, Hc.
    subst c. cbn [flush_loop].
    destruct (Image_write_key blend_on img k color cn Hwf Hk0 Hcn)
      as (img1 & -> & Hwf1 & HW1 & HH1 & Hpix).
    destruct (IH (conj Hnd Hall) img1 Hwf1) as (img' & -> & Hrest).
    exists img'. split; [reflexivity|].
    intros x y Hx Hy. specialize (Hrest x y). rewrite HW1, HH1 in Hrest.
    destruct (Hrest Hx Hy) as [IHin IHout].
    destruct (Hpix x y Hx Hy) as [Hsame Hother]. cbn [map fst].
    destruct (Z.eq_dec (y * width img + x) k) as [Ek | Ek].
    + split; [|intros Hn; exfalso; apply Hn; rewrite Ek; left].
      intros _. rewrite IHout by (rewrite Ek; exact Hk). apply Hsame, Ek.
    + rewrite (Hother Ek) in IHin, IHout. split.
      * intros Hin. apply IHin. apply elem_of_cons in Hin as [E | Hin];
          [contradiction | exact Hin].
      * intros Hn. apply IHout. intros Hin. apply Hn. right. exact Hin.
Qed.

(** The keys pending after staging a list of points. *)
Lemma stage_all_keys (color : Color) (ps : list Point) (d : ImageDrawer)
  (k : Z) :
  elem_of k (map fst (temporaryBuffer (stage_all color ps d)))
  <-> elem_of k (map fst (temporaryBuffer d))
      \/ exists p, In p ps /\ outside (image d) p = false
                   /\ key_of (image d) p = k.
Proof.
  revert d. induction ps as [|p ps IH]; intros d.
  - cbn [stage_all fold_left]. split; [auto|].
    intros [H | (p & [] & _)]. exact H.
  - cbn [stage_all fold_left]. fold (stage_all color ps (setPixel p color d)).
    rewrite IH. destruct (setPixel_frame color p d) as (Himg & _).
    rewrite Himg. rewrite setPixel_eq.
    destruct (outside (image d) p) eqn:Eout.
    + split.
      * intros [H | (q & Hq & Ho & Hk)]; [auto|].
        right. exists q. split; [right; exact Hq | auto].
      * intros [H | (q & [<- | Hq] & Ho & Hk)]; [auto | congruence |].
        right. exists q. auto.
    + cbn [temporaryBuffer set_temporaryBuffer]. rewrite map_set_keys.
      assert (Hin : elem_of k
                      (if decide (elem_of (key_of (image d) p)
                                    (map fst (temporaryBuffer d)))
                       then map fst (temporaryBuffer d)
                       else map fst (temporaryBuffer d)
                              ++ [key_of (image d) p])
                    <-> elem_of k (map fst (temporaryBuffer d))
                        \/ key_of (image d) p = k).
      { destruct (decide _) as [Hi | Hn].
        - split; [auto|]. intros [H | <-]; assumption.
        - rewrite elem_of_app, list_elem_of_singleton.
          split; intros [H | H]; auto. }
      rewrite Hin. split.
      * intros [[H | H] | (q & Hq & Ho & Hk)]; [auto | |].
        -- right. exists p. split; [left; reflexivity | auto].
        -- right. exists q. split; [right; exact Hq | auto].
      * intros [H | (q & [<- | Hq] & Ho & Hk)]; [auto | auto |].
        right. exists q. auto.
Qed.

(** Staging a list of points on a drawer at rest, then flushing, with a
    valid color: the flush returns with nothing pending, the pixels hit
    are written once and the others stay. *)
Lemma flush_stage_exact (color : Color) (cn : FullColorArray)
  (ps : list Point) (d : ImageDrawer) :
  wf_image (image d) ->
  flushDisablers d = 0 -> temporaryBuffer d = [] ->
  toColor color = Returns cn ->
  exists d',
    flush (stage_all color ps d) = Done tt d'
    /\ temporaryBuffer d' = [] /\ flushDisablers d' = 0
    /\ blending d' = blending d /\ lineThickness d' = lineThickness d
    /\ same_shape (image d) (image d')
    /\ forall x y, 0 <= x < width (image d) -> 0 <= y < height (image d) ->
         (hits (image d) ps x y ->
          Image_get (image d') (inject_Z x, inject_Z y)
          = stored (written (blending d)
                      (Image_get (image d) (inject_Z x, inject_Z y)) cn))
         /\ (~ hits (image d) ps x y ->
             Image_get (image d') (inject_Z x, inject_Z y)
             = Image_get (image d) (inject_Z x, inject_Z y)).
Proof.
  intros Hwf Hfd Htb Hcn.
  destruct (stage_all_frame color ps d) as (Himg & Hblend & Hth & Hdepth).
  pose proof (pending_ok_stage_all color ps d) as Hok.
  rewrite Htb in Hok. specialize (Hok (pending_ok_nil color)).
  unfold flush. rewrite Hdepth, Hfd. cbn [Z.eqb negb].
  rewrite Himg, Hblend.
  destruct (flush_loop_exact (blending d) color cn _ (image d) Hwf Hok Hcn)
    as (img' & Eloop & Hpix).
  rewrite Eloop. eexists. split; [reflexivity|].
  cbn [temporaryBuffer set_temporaryBuffer set_image flushDisablers blending
         lineThickness image].
  destruct (flush_loop_keeps _ _ _ _ _ Eloop) as [Hs _].
  split; [reflexivity|]. split; [congruence|].
  repeat (split; [assumption|]).
  intros x y Hx Hy. destruct (Hpix x y Hx Hy) as [Hin Hout].
  assert (Hk : elem_of (y * width (image d) + x)
                 (map fst (temporaryBuffer (stage_all color ps d)))
               <-> hits (image d) ps x y).
  { rewrite stage_all_keys, Htb. unfold hits. split; [|auto].
    intros [H | H]; [inversion H | exact H]. }
  rewrite <- Hk. split; assumption.
Qed.

(** ** Shapes and the validity of their color *)

Lemma hits_dec (img : Image) (ps : list Point) (x y : Z) :
  hits img ps x y \/ ~ hits img ps x y.
Proof.
  unfold hits. induction ps as [|p ps IH].
  - right. intros (p & [] & _).
  - destruct IH as [(q & Hq & H) | IH];
      [left; exists q; split; [right; exact Hq | exact H]|].
    destruct (outside img p) eqn:Eo.
    + right. intros (q & [<- | Hq] & Ho & Hk); [congruence|].
      apply IH. exists q. auto.
    + destruct (Z.eq_dec (key_of img p) (y * width img + x)) as [Ek | Ek].
      * left. exists p. split; [left; reflexivity | auto].
      * right. intros (q & [<- | Hq] & Ho & Hk); [contradiction|].
        apply IH. exists q. auto.
Qed.

(** X6.  A shape operation with a valid color, called on a drawer at
    rest, does not throw for the color: it does not return, or throws
    for its points, or returns with nothing pending; and it then leaves
    each pixel as it was or as written once, the stored color itself
    when blending is off. *)
Theorem shape_with_valid_color
  (fuel : nat) (op : DrawOp) (d : ImageDrawer) (cn : FullColorArray) :
  wf_image (image d) ->
  flushDisablers d = 0 -> temporaryBuffer d = [] ->
  is_shape op = true -> toColor (op_color op) = Returns cn ->
  run fuel op d = NoReturn
  \/ run fuel op d = Raised InvalidPoints d
  \/ exists d',
       run fuel op d = Done tt d'
       /\ temporaryBuffer d' = []
       /\ forall x y, 0 <= x < width (image d) -> 0 <= y < height (image d) ->
            Image_get (image d') (inject_Z x, inject_Z y)
            = Image_get (image d) (inject_Z x, inject_Z y)
            \/ Image_get (image d') (inject_Z x, inject_Z y)
               = stored
                   (if blending d
                    then blend (Image_get (image d) (inject_Z x, inject_Z y))
                           cn
                    else cn).
Proof.
  intros Hwf Hfd Htb Hshape Hcn.
  destruct (run_stages_then_flushes fuel op d Hshape Hfd)
    as [E | [E | [ps E]]]; [auto | auto |].
  right. right.
  destruct (flush_stage_exact (op_color op) cn ps d Hwf Hfd Htb Hcn)
    as (d' & Hrun & Htb' & _ & _ & _ & _ & Hpix).
  exists d'. rewrite E. split; [exact Hrun|]. split; [exact Htb'|].
  intros x y Hx Hy. destruct (Hpix x y Hx Hy) as [Hin Hout].
  destruct (hits_dec (image d) ps x y) as [H | H];
    [right; apply Hin, H | left; apply Hout, H].
Qed.

Lemma shape_with_valid_color_witness :
  run 0 (OpFilledRectangle (0, 0)%Q (1, 0)%Q (ColorString "#FF000080"))
    (mkDrawer (new_Image 2 1) false 1 [] 0) = NoReturn
  \/ run 0 (OpFilledRectangle (0, 0)%Q (1, 0)%Q (ColorString "#FF000080"))
       (mkDrawer (new_Image 2 1) false 1 [] 0)
     = Raised InvalidPoints (mkDrawer (new_Image 2 1) false 1 [] 0)
  \/ exists d',
       run 0 (OpFilledRectangle (0, 0)%Q (1, 0)%Q (ColorString "#FF000080"))
         (mkDrawer (new_Image 2 1) false 1 [] 0) = Done tt d'
       /\ temporaryBuffer d' = []
       /\ forall x y, 0 <= x < 2 -> 0 <= y < 1 ->
            Image_get (image d') (inject_Z x, inject_Z y)
            = Image_get (new_Image 2 1) (inject_Z x, inject_Z y)
            \/ Image_get (image d') (inject_Z x, inject_Z y)
               = stored (ofZ 255, ofZ 0, ofZ 0, ofZ 128).
Proof.
  apply (shape_with_valid_color 0
           (OpFilledRectangle (0, 0)%Q (1, 0)%Q (ColorString "#FF000080"))
           (mkDrawer (new_Image 2 1) false 1 [] 0)
           (ofZ 255, ofZ 0, ofZ 0, ofZ 128)); try reflexivity.
  unfold wf_image; repeat apply conj; reflexivity.
Defined.




(** ** The points of a loop *)

Lemma for_le_fold (fuel : nat) (i hi : Q)
  (body : Q -> ImageDrawer -> ImageDrawer) (d : ImageDrawer) :
  for_le fuel i hi body d
  = fold_left (fun d j => body j d) (for_le_list fuel i hi) d.
Proof.
  revert i d. induction fuel as [|fuel IH]; intros i d; [reflexivity|].
  cbn [for_le for_le_list]. destruct (Qle_bool i hi); [|reflexivity].
  cbn [fold_left]. apply IH.
Qed.

Lemma For_fold (lo hi : Q) (body : Q -> ImageDrawer -> ImageDrawer)
  (d : ImageDrawer) :
  For lo hi body d = fold_left (fun d j => body j d) (For_list lo hi) d.
Proof. apply for_le_fold. Qed.

Lemma fold_left_ext {A B} (f g : A -> B -> A) (l : list B) (a : A) :
  (forall a b, f a b = g a b) -> fold_left f l a = fold_left g l a.
Proof.
  intros H. revert a. induction l as [|b l IH]; intros a; [reflexivity|].
  cbn [fold_left]. rewrite H. apply IH.
Qed.

Lemma fold_stage_flat_map {B} (color : Color) (f : B -> list Point)
  (l : list B) (d : ImageDrawer) :
  fold_left (fun d j => stage_all color (f j) d) l d
  = stage_all color (flat_map f l) d.
Proof.
  revert d. induction l as [|b l IH]; intros d; [reflexivity|].
  cbn [fold_left flat_map]. rewrite stage_all_app. apply IH.
Qed.

(** A [for] loop whose body stages the points [f j] stages the points of
    all its rounds, in order. *)
Lemma For_stage (color : Color) (lo hi : Q) (f : Q -> list Point)
  (body : Q -> ImageDrawer -> ImageDrawer) (d : ImageDrawer) :
  (forall j d, body j d = stage_all color (f j) d) ->
  For lo hi body d = stage_all color (flat_map f (For_list lo hi)) d.
Proof.
  intros H. rewrite For_fold, <- fold_stage_flat_map.
  apply fold_left_ext. intros a b. apply H.
Qed.

Lemma for_le_list_In (fuel : nat) (i hi j : Q) :
  In j (for_le_list fuel i hi) ->
  exists k : Z, 0 <= k /\ (j == i + inject_Z k)%Q /\ (j <= hi)%Q.
Proof.
  revert i. induction fuel as [|fuel IH]; intros i; [intros []|].
  cbn [for_le_list]. destruct (Qle_bool i hi) eqn:E; [|intros []].
  apply Qle_bool_iff in E. intros [<- | Hin].
  - exists 0. split; [lia|]. split; [|exact E].
    change (inject_Z 0) with 0%Q. ring.
  - destruct (IH _ Hin) as (k & Hk & Ej & Hj).
    exists (k + 1). split; [lia|]. split; [|exact Hj].
    rewrite Ej, inject_Z_plus. change (inject_Z 1) with 1%Q. ring.
Qed.

Lemma for_le_list_hit (fuel : nat) (i hi : Q) (k : nat) :
  (k < fuel)%nat -> (i + inject_Z (Z.of_nat k) <= hi)%Q ->
  exists j, In j (for_le_list fuel i hi)
            /\ (j == i + inject_Z (Z.of_nat k))%Q.
Proof.
  revert i k. induction fuel as [|fuel IH]; intros i k Hk Hle; [lia|].
  cbn [for_le_list].
  assert (Hk0 : (0 <= inject_Z (Z.of_nat k))%Q).
  { change 0%Q with (inject_Z 0). rewrite <- Zle_Qle. lia. }
  assert (E : Qle_bool i hi = true) by (apply Qle_bool_iff; lra).
  rewrite E. destruct k as [|k].
  - exists i. split; [left; reflexivity|].
    change (inject_Z (Z.of_nat 0)) with 0%Q. ring.
  - rewrite Nat2Z.inj_succ, <- Z.add_1_r, inject_Z_plus in Hle |- *.
    change (inject_Z 1) with 1%Q in *.
    destruct (IH (i + 1)%Q k) as (j & Hin & Ej); [lia | lra |].
    exists j. split; [right; exact Hin|]. rewrite Ej. ring.
Qed.

(** The counter of a loop that starts at the integer [a] takes the
    integers from [a] up to the bound, and no other value. *)
Lemma For_list_integer (a : Z) (hi j : Q) :
  In j (For_list (inject_Z a) hi) ->
  exists x, (j == inject_Z x)%Q /\ a <= x /\ (inject_Z x <= hi)%Q.
Proof.
  intros Hin. destruct (for_le_list_In _ _ _ _ Hin) as (k & Hk & Ej & Hj).
  exists (a + k). rewrite inject_Z_plus, <- Ej. split; [reflexivity|].
  split; [lia | exact Hj].
Qed.

Lemma For_list_hit (a x : Z) (hi : Q) :
  a <= x -> (inject_Z x <= hi)%Q ->
  exists j, In j (For_list (inject_Z a) hi) /\ (j == inject_Z x)%Q.
Proof.
  intros Hax Hx.
  assert (Ex : (inject_Z x == inject_Z a + inject_Z (Z.of_nat (Z.to_nat (x - a))))%Q).
  { rewrite <- inject_Z_plus. rewrite Z2Nat.id by lia.
    replace (a + (x - a)) with x by lia. reflexivity. }
  destruct (for_le_list_hit (fuel_le (inject_Z a) hi) (inject_Z a) hi
              (Z.to_nat (x - a))) as (j & Hin & Ej).
  - unfold fuel_le.
    assert (x - a <= Qfloor (hi - inject_Z a)).
    { apply Qfloor_ge_iff. unfold Z.sub.
      rewrite inject_Z_plus, inject_Z_opp. lra. }
    lia.
  - rewrite <- Ex. exact Hx.
  - exists j. split; [exact Hin|]. rewrite Ej, Ex. reflexivity.
Qed.

(** ** Points with integer coordinates *)

Lemma outside_integer (img : Image) (p : Point) (a b : Z) :
  (fst p == inject_Z a)%Q -> (snd p == inject_Z b)%Q ->
  (outside img p = false <-> 0 <= a < width img /\ 0 <= b < height img).
Proof.
  intros Ea Eb. unfold outside. rewrite !orb_false_iff.
  rewrite !Qlt_bool_false_iff, !Qle_bool_false_iff, Ea, Eb.
  change 0%Q with (inject_Z 0). rewrite <- !Zle_Qle, <- !Zlt_Qlt. tauto.
Qed.

Lemma key_of_integer (img : Image) (p : Point) (a b : Z) :
  (fst p == inject_Z a)%Q -> (snd p == inject_Z b)%Q ->
  key_of img p = b * width img + a.
Proof.
  intros Ea Eb. unfold key_of.
  rewrite (Math_round_Qeq _ _ Ea), (Math_round_Qeq _ _ Eb),
    !Math_round_inject_Z. lia.
Qed.

(** Among points with integer coordinates, a pixel of the image is hit
    exactly when it is one of the points. *)
Lemma hits_integer_points (img : Image) (ps : list Point) (x y : Z) :
  0 <= x < width img -> 0 <= y < height img ->
  (forall p, In p ps ->
     exists a b, (fst p == inject_Z a)%Q /\ (snd p == inject_Z b)%Q) ->
  (hits img ps x y
   <-> exists p, In p ps /\ (fst p == inject_Z x)%Q
                 /\ (snd p == inject_Z y)%Q).
Proof.
  intros Hx Hy Hint. unfold hits. split.
  - intros (p & Hin & Ho & Hk). exists p. split; [exact Hin|].
    destruct (Hint p Hin) as (a & b & Ea & Eb).
    rewrite (outside_integer img p a b Ea Eb) in Ho.
    rewrite (key_of_integer img p a b Ea Eb) in Hk.
    destruct (pixel_key_inj (width img) a b x y) as [-> ->];
      [lia | lia | lia | exact Hk | auto].
  - intros (p & Hin & Ea & Eb). exists p. split; [exact Hin|].
    split; [apply (outside_integer img p x y Ea Eb); auto|].
    apply (key_of_integer img p x y Ea Eb).
Qed.

(** ** Rectangles *)

(** Staging then flushing, when the pixels hit are those of a test. *)
Lemma flush_stage_paints (color : Color) (cn : FullColorArray)
  (ps : list Point) (d : ImageDrawer) (inside : Z -> Z -> bool) :
  wf_image (image d) ->
  flushDisablers d = 0 -> temporaryBuffer d = [] ->
  toColor color = Returns cn ->
  (forall x y, 0 <= x < width (image d) -> 0 <= y < height (image d) ->
     (hits (image d) ps x y <-> inside x y = true)) ->
  exists d',
    flush (stage_all color ps d) = Done tt d'
    /\ temporaryBuffer d' = []
    /\ forall x y, 0 <= x < width (image d) -> 0 <= y < height (image d) ->
         Image_get (image d') (inject_Z x, inject_Z y)
         = if inside x y
           then stored (written (blending d)
                          (Image_get (image d) (inject_Z x, inject_Z y)) cn)
           else Image_get (image d) (inject_Z x, inject_Z y).
Proof.
  intros Hwf Hfd Htb Hcn Hin.
  destruct (flush_stage_exact color cn ps d Hwf Hfd Htb Hcn)
    as (d' & Hrun & Htb' & _ & _ & _ & _ & Hpix).
  exists d'. split; [exact Hrun|]. split; [exact Htb'|].
  intros x y Hx Hy. destruct (Hpix x y Hx Hy) as [Hhit Hmiss].
  specialize (Hin x y Hx Hy). destruct (inside x y).
  - apply Hhit, Hin. reflexivity.
  - apply Hmiss. intros H. apply Hin in H. discriminate.
Qed.

Lemma drawFilledRectangle_stage (x0 y0 x1 y1 : Q) (color : Color)
  (d : ImageDrawer) :
  drawFilledRectangle (x0, y0) (x1, y1) color d
  = flush
      (stage_all color
         (flat_map (fun y => flat_map (fun x => [(x, y)]) (For_list x0 x1))
            (For_list y0 y1)) d).
Proof.
  unfold drawFilledRectangle, bind, modify. f_equal.
  apply For_stage. intros y d1. apply For_stage. reflexivity.
Qed.

(** X8.  [drawFilledRectangle] between corners with integer
    coordinates, up to [2 ^ 50] in absolute value so that the counters
    [x++] and [y++] of the source are exact, on a drawer at rest and
    with a valid color, returns with nothing pending and writes exactly
    the pixels of the image that lie in the box, both corners included,
    each of them once; the box is empty when the first corner is right
    of or below the second. *)
Theorem drawFilledRectangle_paints_the_box
  (d : ImageDrawer) (a0 b0 a1 b1 : Z) (color : Color) (cn : FullColorArray) :
  wf_image (image d) ->
  flushDisablers d = 0 -> temporaryBuffer d = [] ->
  toColor color = Returns cn ->
  safe_pixel (a0, b0) -> safe_pixel (a1, b1) ->
  exists d',
    drawFilledRectangle (inject_Z a0, inject_Z b0) (inject_Z a1, inject_Z b1)
      color d = Done tt d'
    /\ temporaryBuffer d' = []
    /\ forall x y, 0 <= x < width (image d) -> 0 <= y < height (image d) ->
         Image_get (image d') (inject_Z x, inject_Z y)
         = if (a0 <=? x) && (x <=? a1) && (b0 <=? y) && (y <=? b1)
           then stored (written (blending d)
                          (Image_get (image d) (inject_Z x, inject_Z y)) cn)
           else Image_get (image d) (inject_Z x, inject_Z y).
Proof.
  intros Hwf Hfd Htb Hcn _ _. rewrite drawFilledRectangle_stage.
  apply flush_stage_paints; try assumption.
  intros x y Hx Hy. rewrite hits_integer_points; try assumption.
  - rewrite !andb_true_iff, !Z.leb_le. split.
    + intros (p & Hin & Ex & Ey).
      apply in_flat_map in Hin as (j & Hj & Hin).
      apply in_flat_map in Hin as (i & Hi & [<- | []]).
      cbn [fst snd] in Ex, Ey.
      destruct (For_list_integer _ _ _ Hi) as (x' & Ei & Hlo & Hhi).
      destruct (For_list_integer _ _ _ Hj) as (y' & Ej & Hlo' & Hhi').
      rewrite Ei in Ex. rewrite Ej in Ey.
      rewrite inject_Z_injective in Ex, Ey. subst x' y'.
      rewrite <- Zle_Qle in Hhi, Hhi'. lia.
    + intros [[[Hx0 Hx1] Hy0] Hy1].
      destruct (For_list_hit a0 x (inject_Z a1)) as (i & Hi & Ei);
        [lia | rewrite <- Zle_Qle; lia |].
      destruct (For_list_hit b0 y (inject_Z b1)) as (j & Hj & Ej);
        [lia | rewrite <- Zle_Qle; lia |].
      exists (i, j). split; [|auto].
      apply in_flat_map. exists j. split; [exact Hj|].
      apply in_flat_map. exists i. split; [exact Hi | left; reflexivity].
  - intros p Hin.
    apply in_flat_map in Hin as (j & Hj & Hin).
    apply in_flat_map in Hin as (i & Hi & [<- | []]).
    destruct (For_list_integer _ _ _ Hi) as (x' & Ei & _).
    destruct (For_list_integer _ _ _ Hj) as (y' & Ej & _).
    exists x', y'. auto.
Qed.

Lemma drawFilledRectangle_paints_the_box_witness :
  exists d',
    drawFilledRectangle (inject_Z 1, inject_Z 0) (inject_Z 5, inject_Z 0)
      (ColorString "#0A141E") (mkDrawer (new_Image 3 2) false 1 [] 0)
    = Done tt d'
    /\ temporaryBuffer d' = []
    /\ forall x y, 0 <= x < 3 -> 0 <= y < 2 ->
         Image_get (image d') (inject_Z x, inject_Z y)
         = if (1 <=? x) && (x <=? 5) && (0 <=? y) && (y <=? 0)
           then stored (ofZ 10, ofZ 20, ofZ 30, ofZ 255)
           else Image_get (new_Image 3 2) (inject_Z x, inject_Z y).
Proof.
  apply (drawFilledRectangle_paints_the_box
           (mkDrawer (new_Image 3 2) false 1 [] 0) 1 0 5 0
           (ColorString "#0A141E") (ofZ 10, ofZ 20, ofZ 30, ofZ 255));
    try reflexivity.
  - unfold wf_image; repeat apply conj; reflexivity.
  - split; vm_compute; discriminate.
  - split; vm_compute; discriminate.
Defined.

Lemma drawRectangle_stage (x0 y0 x1 y1 : Q) (color : Color)
  (d : ImageDrawer) :
  drawRectangle (x0, y0) (x1, y1) color d
  = flush
      (stage_all color
         (flat_map (fun x => [(x, y0); (x, y1)]) (For_list x0 x1)
          ++ flat_map (fun y => [(x0, y); (x1, y)]) (For_list y0 y1)) d).
Proof.
  unfold drawRectangle, bind, modify. f_equal.
  rewrite stage_all_app.
  rewrite (For_stage color x0 x1 (fun x => [(x, y0); (x, y1)]))
    by reflexivity.
  apply For_stage. reflexivity.
Qed.

(** X9.  [drawRectangle] between corners with integer coordinates, up
    to [2 ^ 50] in absolute value so that the counters [x++] and [y++]
    of the source are exact, on a drawer at rest and with a valid
    color, returns with nothing pending and writes exactly the pixels of the image on the two horizontal
    sides, for the columns from the first corner to the second, and on
    the two vertical sides, for the rows from the first corner to the
    second; a pixel on two sides is written once.  When the first
    corner is right of the second the horizontal sides are not drawn,
    when it is below, the vertical sides are not. *)
Theorem drawRectangle_paints_the_sides
  (d : ImageDrawer) (a0 b0 a1 b1 : Z) (color : Color) (cn : FullColorArray) :
  wf_image (image d) ->
  flushDisablers d = 0 -> temporaryBuffer d = [] ->
  toColor color = Returns cn ->
  safe_pixel (a0, b0) -> safe_pixel (a1, b1) ->
  exists d',
    drawRectangle (inject_Z a0, inject_Z b0) (inject_Z a1, inject_Z b1)
      color d = Done tt d'
    /\ temporaryBuffer d' = []
    /\ forall x y, 0 <= x < width (image d) -> 0 <= y < height (image d) ->
         Image_get (image d') (inject_Z x, inject_Z y)
         = if (a0 <=? x) && (x <=? a1) && ((y =? b0) || (y =? b1))
              || (b0 <=? y) && (y <=? b1) && ((x =? a0) || (x =? a1))
           then stored (written (blending d)
                          (Image_get (image d) (inject_Z x, inject_Z y)) cn)
           else Image_get (image d) (inject_Z x, inject_Z y).
Proof.
  intros Hwf Hfd Htb Hcn _ _. rewrite drawRectangle_stage.
  apply flush_stage_paints; try assumption.
  intros x y Hx Hy. rewrite hits_integer_points; try assumption.
  - rewrite orb_true_iff, !andb_true_iff, !orb_true_iff, !Z.leb_le, !Z.eqb_eq.
    split.
    + intros (p & Hin & Ex & Ey). apply in_app_or in Hin as [Hin | Hin];
        apply in_flat_map in Hin as (i & Hi & Hin);
        destruct (For_list_integer _ _ _ Hi) as (z & Ei & Hlo & Hhi);
        rewrite <- Zle_Qle in Hhi;
        destruct Hin as [<- | [<- | []]]; cbn [fst snd] in Ex, Ey;
        rewrite ?Ei in Ex; rewrite ?Ei in Ey;
        rewrite inject_Z_injective in Ex, Ey; subst; lia.
    + intros [[[Hx0 Hx1] Hside] | [[Hy0 Hy1] Hside]].
      * destruct (For_list_hit a0 x (inject_Z a1)) as (i & Hi & Ei);
          [lia | rewrite <- Zle_Qle; lia |].
        destruct Hside as [-> | ->].
        -- exists (i, inject_Z b0). split; [|split; [exact Ei | reflexivity]].
           apply in_or_app. left. apply in_flat_map. exists i.
           split; [exact Hi | left; reflexivity].
        -- exists (i, inject_Z b1). split; [|split; [exact Ei | reflexivity]].
           apply in_or_app. left. apply in_flat_map. exists i.
           split; [exact Hi | right; left; reflexivity].
      * destruct (For_list_hit b0 y (inject_Z b1)) as (j & Hj & Ej);
          [lia | rewrite <- Zle_Qle; lia |].
        destruct Hside as [-> | ->].
        -- exists (inject_Z a0, j). split; [|split; [reflexivity | exact Ej]].
           apply in_or_app. right. apply in_flat_map. exists j.
           split; [exact Hj | left; reflexivity].
        -- exists (inject_Z a1, j). split; [|split; [reflexivity | exact Ej]].
           apply in_or_app. right. apply in_flat_map. exists j.
           split; [exact Hj | right; left; reflexivity].
  - intros p Hin. apply in_app_or in Hin as [Hin | Hin];
      apply in_flat_map in Hin as (i & Hi & Hin);
      destruct (For_list_integer _ _ _ Hi) as (z & Ei & _);
      destruct Hin as [<- | [<- | []]]; cbn [fst snd]; eauto.
    + exists z, b0. split; [exact Ei | reflexivity].
    + exists z, b1. split; [exact Ei | reflexivity].
    + exists a0, z. split; [reflexivity | exact Ei].
    + exists a1, z. split; [reflexivity | exact Ei].
Qed.

Lemma drawRectangle_paints_the_sides_witness :
  exists d',
    drawRectangle (inject_Z 0, inject_Z 0) (inject_Z 2, inject_Z 2)
      (ColorString "#0A141E") (mkDrawer (new_Image 3 3) false 1 [] 0)
    = Done tt d'
    /\ temporaryBuffer d' = []
    /\ forall x y, 0 <= x < 3 -> 0 <= y < 3 ->
         Image_get (image d') (inject_Z x, inject_Z y)
         = if (0 <=? x) && (x <=? 2) && ((y =? 0) || (y =? 2))
              || (0 <=? y) && (y <=? 2) && ((x =? 0) || (x =? 2))
           then stored (ofZ 10, ofZ 20, ofZ 30, ofZ 255)
           else Image_get (new_Image 3 3) (inject_Z x, inject_Z y).
Proof.
  apply (drawRectangle_paints_the_sides
           (mkDrawer (new_Image 3 3) false 1 [] 0) 0 0 2 2
           (ColorString "#0A141E") (ofZ 10, ofZ 20, ofZ 30, ofZ 255));
    try reflexivity.
  - unfold wf_image; repeat apply conj; reflexivity.
  - split; vm_compute; discriminate.
  - split; vm_compute; discriminate.
Defined.

(** ** Filling *)

Lemma fill_loop_load4 (fuel : nat) (i j : Z) (c : FullColorArray)
  (b : list Z) :
  0 <= i -> 0 <= j -> j + 3 < Z.of_nat (length b) ->
  i mod 4 = 0 -> j mod 4 = 0 ->
  Z.of_nat (length b) - i <= 4 * Z.of_nat fuel ->
  load4 (fill_loop fuel i c b) j
  = if i <=? j then stored c else load4 b j.
Proof.
  revert i b. induction fuel as [|fuel IH]; intros i b Hi Hj Hlen Mi Mj Hfuel.
  - cbn [fill_loop]. destruct (i <=? j) eqn:E; [apply Z.leb_le in E; lia|].
    reflexivity.
  - cbn [fill_loop]. destruct (i <? Z.of_nat (length b)) eqn:Ei.
    + apply Z.ltb_lt in Ei.
      rewrite IH; rewrite ?typed_set4_length; try lia.
      2: { rewrite <- Zplus_mod_idemp_l, Mi. reflexivity. }
      destruct (i + 4 <=? j) eqn:E4.
      * apply Z.leb_le in E4.
        destruct (i <=? j) eqn:E; [reflexivity | apply Z.leb_gt in E; lia].
      * apply Z.leb_gt in E4. destruct (i <=? j) eqn:E.
        -- apply Z.leb_le in E.
           assert (j = i).
           { pose proof (Z.div_mod i 4). pose proof (Z.div_mod j 4). lia. }
           subst j. apply load4_set4_stored; lia.
        -- apply Z.leb_gt in E. apply load4_set4_other; [lia|].
           left. pose proof (Z.div_mod i 4). pose proof (Z.div_mod j 4). lia.
    + apply Z.ltb_ge in Ei.
      destruct (i <=? j) eqn:E; [apply Z.leb_le in E; lia | reflexivity].
Qed.

(** X10.  [fill] discards the pending writes without drawing them and,
    with a valid color, returns with every pixel of the image holding
    the stored color, whatever the blending flag and the suppression
    depth; with an invalid color it throws [InvalidColor] with the
    pixels untouched, and the pending writes are discarded all the
    same. *)
Theorem fill_paints_every_pixel
  (d : ImageDrawer) (color : Color) :
  wf_image (image d) ->
  match toColor color with
  | Returns cn =>
      exists d',
        fill color d = Done tt d'
        /\ temporaryBuffer d' = []
        /\ flushDisablers d' = flushDisablers d
        /\ forall x y, 0 <= x < width (image d) -> 0 <= y < height (image d) ->
             Image_get (image d') (inject_Z x, inject_Z y) = stored cn
  | Throws e =>
      fill color d = Raised InvalidColor (set_temporaryBuffer [] d)
  end.
Proof.
  intros Hwf. unfold fill, bind, modify.
  destruct (toColor color) as [cn | e] eqn:Hc.
  - eexists. split; [reflexivity|].
    cbn [temporaryBuffer flushDisablers set_image set_temporaryBuffer image].
    split; [reflexivity|]. split; [reflexivity|].
    intros x y Hx Hy.
    destruct (pixel_index_bounds (image d) x y Hwf Hx Hy) as [Hi0 Hi3].
    rewrite Image_get_Z. cbn [width buffer].
    rewrite fill_loop_load4; try lia.
    + apply Z.leb_le in Hi0. rewrite Hi0. reflexivity.
    + reflexivity.
    + apply Z_mod_mult.
  - rewrite (toColor_throws_InvalidColor _ _ Hc). reflexivity.
Qed.

Lemma fill_paints_every_pixel_witness :
  exists d',
    fill (ColorString "#0A141E")
      (mkDrawer (new_Image 2 2) true 1 [(3, ColorString "#FFFFFF")] 1)
    = Done tt d'
    /\ temporaryBuffer d' = []
    /\ flushDisablers d' = 1
    /\ forall x y, 0 <= x < 2 -> 0 <= y < 2 ->
         Image_get (image d') (inject_Z x, inject_Z y)
         = stored (ofZ 10, ofZ 20, ofZ 30, ofZ 255).
Proof.
  apply (fill_paints_every_pixel
           (mkDrawer (new_Image 2 2) true 1 [(3, ColorString "#FFFFFF")] 1)
           (ColorString "#0A141E")).
  unfold wf_image; repeat apply conj; reflexivity.
Defined.

(** ** Lines *)

(** The loop of a thin line stages the pixels of its trace. *)
Lemma line_loop_trace fuel x0 y0 x1 y1 dx dy sx sy err color d :
  0 <= flushDisablers d -> Qlt_bool 1 (lineThickness d) = false ->
  line_loop fuel x0 y0 x1 y1 dx dy sx sy err color d = NoReturn
  \/ line_loop fuel x0 y0 x1 y1 dx dy sx sy err color d
     = Done tt
         (stage_all color
            (map point_of (line_trace fuel x0 y0 x1 y1 dx dy sx sy err)) d).
Proof.
  revert x0 y0 err d. induction fuel as [|fuel IH]; intros x0 y0 err d Hd Hth;
    [left; reflexivity|].
  cbn [line_loop line_trace]. unfold bind.
  rewrite line_point_suppressed by exact Hd.
  unfold line_stage. rewrite Hth.
  destruct (setPixel_frame color (inject_Z x0, inject_Z y0) d)
    as (_ & _ & Hth' & Hfd').
  destruct ((x0 =? x1) && (y0 =? y1)); [right; reflexivity|].
  cbv zeta.
  destruct (2 * err >? - dy); destruct (2 * err <? dx);
    cbn [map stage_all fold_left]; apply IH; rewrite ?Hth', ?Hfd'; assumption.
Qed.

Lemma drawLine_stage (start end_ : Point) (color : Color) (d : ImageDrawer) :
  0 <= flushDisablers d -> Qlt_bool 1 (lineThickness d) = false ->
  drawLine start end_ color d
  = flush
      (stage_all color
         (map point_of
            (line_pixels (Math_round (fst start)) (Math_round (snd start))
               (Math_round (fst end_)) (Math_round (snd end_)))) d).
Proof.
  intros Hd Hth. pose proof (drawLine_returns start end_ color d) as Hret.
  revert Hret. unfold drawLine, line_pixels. cbv zeta. unfold bind.
  match goal with
  | |- context [line_loop ?f ?a ?b ?c ?e ?g ?h ?i ?j ?k color d] =>
      destruct (line_loop_trace f a b c e g h i j k color d Hd Hth)
        as [-> | ->]
  end; [congruence | reflexivity].
Qed.

Lemma on_the_way_weaken x1 y1 dx dy sx sy rx ry rx2 ry2 p :
  rx <= rx2 -> ry <= ry2 ->
  on_the_way x1 y1 dx dy sx sy rx ry p ->
  on_the_way x1 y1 dx dy sx sy rx2 ry2 p.
Proof.
  intros Hrx Hry (rx' & ry' & H1 & H2 & H). exists rx', ry'.
  split; [lia|]. split; [lia | exact H].
Qed.

(** The trace of Bresenham's loop: with [rx] and [ry] steps left it has
    [max rx ry] pixels before the end, which it reaches, and all its
    pixels lie near the line. *)
Lemma line_trace_spec fuel x1 y1 dx dy sx sy :
  sx = 1 \/ sx = -1 -> sy = 1 \/ sy = -1 ->
  forall x0 y0 err rx ry,
    0 <= rx <= dx -> 0 <= ry <= dy ->
    x1 - x0 = sx * rx -> y1 - y0 = sy * ry ->
    err = dx - dy + rx * dy - ry * dx ->
    near_line dx dy (rx * dy - ry * dx) ->
    rx + ry < Z.of_nat fuel ->
    exists init,
      line_trace fuel x0 y0 x1 y1 dx dy sx sy err = init ++ [(x1, y1)]
      /\ Z.of_nat (length init) = Z.max rx ry
      /\ hd (x1, y1) init = (if Z.max rx ry =? 0 then (x1, y1) else (x0, y0))
      /\ Forall (on_the_way x1 y1 dx dy sx sy rx ry) (init ++ [(x1, y1)]).
Proof.
  intros Hsx Hsy. induction fuel as [|fuel IH];
    intros x0 y0 err rx ry Hrx Hry Hx Hy Herr Hnear Hfuel; [lia|].
  assert (Hhere : on_the_way x1 y1 dx dy sx sy rx ry (x0, y0)).
  { exists rx, ry. cbn [fst snd]. repeat split; try lia. exact Hnear. }
  cbn [line_trace]. destruct ((x0 =? x1) && (y0 =? y1)) eqn:Eend.
  - apply andb_prop in Eend as [->%Z.eqb_eq ->%Z.eqb_eq].
    assert (rx = 0) by nia. assert (ry = 0) by nia. subst rx ry.
    exists []. split; [reflexivity|]. split; [reflexivity|].
    split; [reflexivity|]. repeat constructor. exact Hhere.
  - assert (Hleft : 0 < rx + ry).
    { apply andb_false_iff in Eend as [E|E]; apply Z.eqb_neq in E; nia. }
    assert (Hstep : forall x0' y0' err' rx' ry',
              0 <= rx' <= rx -> 0 <= ry' <= ry ->
              x1 - x0' = sx * rx' -> y1 - y0' = sy * ry' ->
              err' = dx - dy + rx' * dy - ry' * dx ->
              near_line dx dy (rx' * dy - ry' * dx) ->
              rx' + ry' < Z.of_nat fuel ->
              Z.max rx' ry' + 1 = Z.max rx ry ->
              exists init,
                (x0, y0) :: line_trace fuel x0' y0' x1 y1 dx dy sx sy err'
                = init ++ [(x1, y1)]
                /\ Z.of_nat (length init) = Z.max rx ry
                /\ hd (x1, y1) init
                   = (if Z.max rx ry =? 0 then (x1, y1) else (x0, y0))
                /\ Forall (on_the_way x1 y1 dx dy sx sy rx ry)
                     (init ++ [(x1, y1)])).
    { intros x0' y0' err' rx' ry' Hrx' Hry' Hx' Hy' Herr' Hnear' Hfuel' Hmax.
      destruct (IH x0' y0' err' rx' ry') as (init & -> & Hlen & _ & Hall);
        try assumption; try lia.
      exists ((x0, y0) :: init). split; [reflexivity|].
      split; [cbn [length]; lia|]. split.
      - cbn [hd]. destruct (Z.max rx ry =? 0) eqn:E; [|reflexivity].
        apply Z.eqb_eq in E. lia.
      - cbn [app]. constructor; [exact Hhere|].
        eapply Forall_impl; [exact Hall|]. intros p.
        apply on_the_way_weaken; lia. }
    cbv zeta.
    destruct (2 * err >? - dy) eqn:Ex; destruct (2 * err <? dx) eqn:Ey;
      rewrite ?Z.gtb_ltb in Ex;
      rewrite ?Z.ltb_lt, ?Z.ltb_ge in Ex, Ey; cbv beta iota.
    + assert (1 <= rx) by (destruct (Z.eq_dec rx 0); [subst; nia | lia]).
      assert (1 <= ry) by (destruct (Z.eq_dec ry 0); [subst; nia | lia]).
      apply (Hstep _ _ _ (rx - 1) (ry - 1)); try lia; try nia.
      unfold near_line in *. nia.
    + assert (1 <= rx) by (destruct (Z.eq_dec rx 0); [subst; nia | lia]).
      apply (Hstep _ _ _ (rx - 1) ry); try lia; try nia.
      * unfold near_line in *. nia.
      * unfold near_line in *. nia.
    + assert (1 <= ry) by (destruct (Z.eq_dec ry 0); [subst; nia | lia]).
      apply (Hstep _ _ _ rx (ry - 1)); try lia; try nia.
      * unfold near_line in *. nia.
      * unfold near_line in *. nia.
    + exfalso. nia.
Qed.

Lemma line_pixels_spec (x0 y0 x1 y1 : Z) :
  exists init,
    line_pixels x0 y0 x1 y1 = init ++ [(x1, y1)]
    /\ Z.of_nat (length init) = Z.max (Z.abs (x1 - x0)) (Z.abs (y1 - y0))
    /\ Forall
         (on_the_way x1 y1 (Z.abs (x1 - x0)) (Z.abs (y1 - y0))
            (if x0 <? x1 then 1 else -1) (if y0 <? y1 then 1 else -1)
            (Z.abs (x1 - x0)) (Z.abs (y1 - y0)))
         (init ++ [(x1, y1)]).
Proof.
  unfold line_pixels. cbv zeta.
  destruct (line_trace_spec
              (S (Z.to_nat (Z.abs (x1 - x0) + Z.abs (y1 - y0)))) x1 y1
              (Z.abs (x1 - x0)) (Z.abs (y1 - y0))
              (if x0 <? x1 then 1 else -1) (if y0 <? y1 then 1 else -1))
    with (x0 := x0) (y0 := y0)
         (err := Z.abs (x1 - x0) - Z.abs (y1 - y0))
         (rx := Z.abs (x1 - x0)) (ry := Z.abs (y1 - y0))
    as (init & E & Hlen & _ & Hall); try lia.
  - destruct (x0 <? x1); auto.
  - destruct (y0 <? y1); auto.
  - destruct (x0 <? x1) eqn:E; rewrite ?Z.ltb_lt, ?Z.ltb_ge in E; lia.
  - destruct (y0 <? y1) eqn:E; rewrite ?Z.ltb_lt, ?Z.ltb_ge in E; lia.
  - unfold near_line. lia.
  - exists init. auto.
Qed.

(** X11.  The pixels of Bresenham's line between two pixels, as the
    loop of [drawLine] visits them: the first is the start, the last is
    the end, there are [max(|dx|, |dy|) + 1] of them, one for every step
    along the major axis, and each lies in the box spanned by the two
    ends and within half a pixel of the ideal line, measured along the
    minor axis (twice the cross product with the direction of the line
    is at most the major extent).  The ends are up to [2 ^ 50] in
    absolute value: the coordinates, [dx], [dy], [err] and [2 * err]
    of the source then stay below [2 ^ 53], where its arithmetic is
    exact. *)
Theorem line_pixels_follow_the_line (x0 y0 x1 y1 : Z) :
  safe_pixel (x0, y0) -> safe_pixel (x1, y1) ->
  head (line_pixels x0 y0 x1 y1) = Some (x0, y0)
  /\ last (line_pixels x0 y0 x1 y1) = Some (x1, y1)
  /\ Z.of_nat (length (line_pixels x0 y0 x1 y1))
     = Z.max (Z.abs (x1 - x0)) (Z.abs (y1 - y0)) + 1
  /\ forall x y, In (x, y) (line_pixels x0 y0 x1 y1) ->
       Z.min x0 x1 <= x <= Z.max x0 x1
       /\ Z.min y0 y1 <= y <= Z.max y0 y1
       /\ 2 * Z.abs ((x1 - x0) * (y - y0) - (y1 - y0) * (x - x0))
          <= Z.max (Z.abs (x1 - x0)) (Z.abs (y1 - y0)).
Proof.
  intros _ _. split; [reflexivity|].
  destruct (line_pixels_spec x0 y0 x1 y1) as (init & -> & Hlen & Hall).
  split; [apply last_snoc|].
  split; [rewrite length_app; cbn [length]; lia|].
  intros x y Hin. rewrite Forall_forall in Hall.
  assert (Hin' : (x, y) ∈ init ++ [(x1, y1)]) by (apply list_elem_of_In, Hin).
  destruct (Hall _ Hin') as (rx & ry & Hrx & Hry & Hx & Hy & Hnear).
  cbn [fst snd] in Hx, Hy.
  set (dx := Z.abs (x1 - x0)) in *. set (dy := Z.abs (y1 - y0)) in *.
  assert (Hdx : x1 - x0 = (if x0 <? x1 then 1 else -1) * dx).
  { unfold dx. destruct (x0 <? x1) eqn:E;
      rewrite ?Z.ltb_lt, ?Z.ltb_ge in E; lia. }
  assert (Hdy : y1 - y0 = (if y0 <? y1 then 1 else -1) * dy).
  { unfold dy. destruct (y0 <? y1) eqn:E;
      rewrite ?Z.ltb_lt, ?Z.ltb_ge in E; lia. }
  assert (Hdx0 : 0 <= dx) by (unfold dx; lia).
  assert (Hdy0 : 0 <= dy) by (unfold dy; lia).
  set (D := rx * dy - ry * dx) in *.
  assert (Hcross : (x1 - x0) * (y - y0) - (y1 - y0) * (x - x0) = D
                   \/ (x1 - x0) * (y - y0) - (y1 - y0) * (x - x0) = - D).
  { unfold D. clearbody dx dy.
    destruct (x0 <? x1); destruct (y0 <? y1); nia. }
  split; [|split].
  - clearbody dx dy. destruct (x0 <? x1) eqn:E;
      rewrite ?Z.ltb_lt, ?Z.ltb_ge in E; lia.
  - clearbody dx dy. destruct (y0 <? y1) eqn:E;
      rewrite ?Z.ltb_lt, ?Z.ltb_ge in E; lia.
  - clearbody D dx dy. unfold near_line in Hnear. lia.
Qed.

(** X12.  [drawLine] with a line thickness of at most 1, between points
    whose rounded coordinates are up to [2 ^ 50] in absolute value, on
    a drawer at rest and with a valid color, returns with nothing
    pending and writes exactly the pixels of the image that are pixels
    of Bresenham's line between the rounded ends, each of them once. *)
Theorem drawLine_paints_line_pixels
  (d : ImageDrawer) (start end_ : Point) (color : Color)
  (cn : FullColorArray) :
  wf_image (image d) ->
  flushDisablers d = 0 -> temporaryBuffer d = [] ->
  (lineThickness d <= 1)%Q ->
  toColor color = Returns cn ->
  safe_point start -> safe_point end_ ->
  exists d',
    drawLine start end_ color d = Done tt d'
    /\ temporaryBuffer d' = []
    /\ forall x y, 0 <= x < width (image d) -> 0 <= y < height (image d) ->
         (In (x, y)
            (line_pixels (Math_round (fst start)) (Math_round (snd start))
               (Math_round (fst end_)) (Math_round (snd end_))) ->
          Image_get (image d') (inject_Z x, inject_Z y)
          = stored (written (blending d)
                      (Image_get (image d) (inject_Z x, inject_Z y)) cn))
         /\ (~ In (x, y)
               (line_pixels (Math_round (fst start)) (Math_round (snd start))
                  (Math_round (fst end_)) (Math_round (snd end_))) ->
             Image_get (image d') (inject_Z x, inject_Z y)
             = Image_get (image d) (inject_Z x, inject_Z y)).
Proof.
  intros Hwf Hfd Htb Hth Hcn _ _.
  rewrite drawLine_stage by (lia || apply Qlt_bool_false_iff, Hth).
  set (pts := line_pixels _ _ _ _).
  destruct (flush_stage_exact color cn (map point_of pts) d Hwf Hfd Htb Hcn)
    as (d' & Hrun & Htb' & _ & _ & _ & _ & Hpix).
  exists d'. split; [exact Hrun|]. split; [exact Htb'|].
  intros x y Hx Hy.
  assert (Hhit : hits (image d) (map point_of pts) x y <-> In (x, y) pts).
  { rewrite hits_integer_points; try assumption.
    - split.
      + intros (p & Hin & Ex & Ey). apply in_map_iff in Hin as ([a b] & <- & Hin).
        cbn [point_of fst snd] in Ex, Ey.
        rewrite inject_Z_injective in Ex, Ey. subst. exact Hin.
      + intros Hin. exists (point_of (x, y)).
        split; [apply in_map, Hin | split; reflexivity].
    - intros p Hin. apply in_map_iff in Hin as ([a b] & <- & Hin).
      exists a, b. split; reflexivity. }
  rewrite <- Hhit. apply Hpix; assumption.
Qed.

Lemma drawLine_paints_line_pixels_witness :
  exists d',
    drawLine (0, 0)%Q (3, 1)%Q (ColorString "#0A141E")
      (mkDrawer (new_Image 4 2) false 1 [] 0) = Done tt d'
    /\ temporaryBuffer d' = []
    /\ forall x y, 0 <= x < 4 -> 0 <= y < 2 ->
         (In (x, y) (line_pixels 0 0 3 1) ->
          Image_get (image d') (inject_Z x, inject_Z y)
          = stored (ofZ 10, ofZ 20, ofZ 30, ofZ 255))
         /\ (~ In (x, y) (line_pixels 0 0 3 1) ->
             Image_get (image d') (inject_Z x, inject_Z y)
             = Image_get (new_Image 4 2) (inject_Z x, inject_Z y)).
Proof.
  apply (drawLine_paints_line_pixels
           (mkDrawer (new_Image 4 2) false 1 [] 0) (0, 0)%Q (3, 1)%Q
           (ColorString "#0A141E") (ofZ 10, ofZ 20, ofZ 30, ofZ 255));
    try reflexivity.
  - unfold wf_image; repeat apply conj; reflexivity.
  - cbn. discriminate.
  - split; vm_compute; discriminate.
  - split; vm_compute; discriminate.
Defined.

Lemma line_pixels_follow_the_line_witness :
  In (2, 1) (line_pixels 0 0 3 1)
  /\ Z.min 0 3 <= 2 <= Z.max 0 3
  /\ Z.min 0 1 <= 1 <= Z.max 0 1
  /\ 2 * Z.abs ((3 - 0) * (1 - 0) - (1 - 0) * (2 - 0))
     <= Z.max (Z.abs (3 - 0)) (Z.abs (1 - 0)).
Proof.
  assert (Hin : In (2, 1) (line_pixels 0 0 3 1))
    by (vm_compute; right; right; left; reflexivity).
  split; [exact Hin|].
  apply (line_pixels_follow_the_line 0 0 3 1);
    [split; vm_compute; discriminate | split; vm_compute; discriminate
    | exact Hin].
Defined.

(** ** Paths *)

Lemma hits_map_point_of (img : Image) (pts : list (Z * Z)) (x y : Z) :
  0 <= x < width img -> 0 <= y < height img ->
  (hits img (map point_of pts) x y <-> In (x, y) pts).
Proof.
  intros Hx Hy. rewrite hits_integer_points; try assumption.
  - split.
    + intros (p & Hin & Ex & Ey). apply in_map_iff in Hin as ([a b] & <- & Hin).
      cbn [point_of fst snd] in Ex, Ey.
      rewrite inject_Z_injective in Ex, Ey. subst. exact Hin.
    + intros Hin. exists (point_of (x, y)).
      split; [apply in_map, Hin | split; reflexivity].
  - intros p Hin. apply in_map_iff in Hin as ([a b] & <- & Hin).
    exists a, b. split; reflexivity.
Qed.

(** Under suppression, the loop of a thin path stages the pixels of its
    lines. *)
Lemma path_loop_stage (lastPoint : Point) (points : list Point)
  (color : Color) (d : ImageDrawer) :
  0 < flushDisablers d -> Qlt_bool 1 (lineThickness d) = false ->
  path_loop lastPoint points color d
  = Done tt (stage_all color (map point_of (segments lastPoint points)) d).
Proof.
  revert lastPoint d. induction points as [|p ps IH]; intros lastPoint d Hd Hth;
    [reflexivity|].
  cbn [path_loop segments]. unfold bind.
  rewrite drawLine_stage by (lia || exact Hth).
  set (pts := line_pixels _ _ _ _).
  destruct (stage_all_frame color (map point_of pts) d) as (_ & _ & Hth' & Hfd').
  rewrite flush_suppressed by lia.
  rewrite IH by (rewrite ?Hth', ?Hfd'; assumption).
  rewrite map_app, stage_all_app. reflexivity.
Qed.

(** X13.  [drawPath] of two points or more, with rounded coordinates up
    to [2 ^ 50] in absolute value, and with a line thickness of at most
    1, on a drawer at rest and with a valid color, returns with
    nothing pending and writes exactly the pixels of the image that are
    pixels of the line between two successive points of the path; a
    pixel of several lines, such as a joint, is written once. *)
Theorem drawPath_paints_segments
  (d : ImageDrawer) (p0 p1 : Point) (rest : list Point) (color : Color)
  (cn : FullColorArray) :
  wf_image (image d) ->
  flushDisablers d = 0 -> temporaryBuffer d = [] ->
  (lineThickness d <= 1)%Q ->
  toColor color = Returns cn ->
  Forall safe_point (p0 :: p1 :: rest) ->
  exists d',
    drawPath (p0 :: p1 :: rest) color d = Done tt d'
    /\ temporaryBuffer d' = []
    /\ forall x y, 0 <= x < width (image d) -> 0 <= y < height (image d) ->
         (In (x, y) (segments p0 (p1 :: rest)) ->
          Image_get (image d') (inject_Z x, inject_Z y)
          = stored (written (blending d)
                      (Image_get (image d) (inject_Z x, inject_Z y)) cn))
         /\ (~ In (x, y) (segments p0 (p1 :: rest)) ->
             Image_get (image d') (inject_Z x, inject_Z y)
             = Image_get (image d) (inject_Z x, inject_Z y)).
Proof.
  intros Hwf Hfd Htb Hth Hcn _. rewrite drawPath_unfold.
  rewrite path_loop_stage
    by (cbn [flushDisablers lineThickness set_flushDisablers];
        lia || apply Qlt_bool_false_iff, Hth).
  set (pts := segments p0 (p1 :: rest)).
  rewrite stage_all_set_flushDisablers.
  cbn [flushDisablers set_flushDisablers].
  destruct (stage_all_frame color (map point_of pts) d) as (_ & _ & _ & Hfd').
  assert (Eback : set_flushDisablers (flushDisablers d + 1 - 1)
                    (set_flushDisablers (flushDisablers d + 1)
                       (stage_all color (map point_of pts) d))
                  = stage_all color (map point_of pts) d).
  { replace (flushDisablers d + 1 - 1) with
      (flushDisablers (stage_all color (map point_of pts) d)) by lia.
    apply set_flushDisablers_back. }
  rewrite Eback.
  destruct (flush_stage_exact color cn (map point_of pts) d Hwf Hfd Htb Hcn)
    as (d' & Hrun & Htb' & _ & _ & _ & _ & Hpix).
  exists d'. split; [exact Hrun|]. split; [exact Htb'|].
  intros x y Hx Hy. rewrite <- (hits_map_point_of (image d) pts x y Hx Hy).
  apply Hpix; assumption.
Qed.

Lemma drawPath_paints_segments_witness :
  exists d',
    drawPath [(0, 0); (2, 0); (2, 1)]%Q (ColorString "#0A141E")
      (mkDrawer (new_Image 3 2) true 1 [] 0) = Done tt d'
    /\ temporaryBuffer d' = []
    /\ forall x y, 0 <= x < 3 -> 0 <= y < 2 ->
         (In (x, y) (segments (0, 0)%Q [(2, 0); (2, 1)]%Q) ->
          Image_get (image d') (inject_Z x, inject_Z y)
          = stored
              (written true
                 (Image_get (new_Image 3 2) (inject_Z x, inject_Z y))
                 (ofZ 10, ofZ 20, ofZ 30, ofZ 255)))
         /\ (~ In (x, y) (segments (0, 0)%Q [(2, 0); (2, 1)]%Q) ->
             Image_get (image d') (inject_Z x, inject_Z y)
             = Image_get (new_Image 3 2) (inject_Z x, inject_Z y)).
Proof.
  apply (drawPath_paints_segments
           (mkDrawer (new_Image 3 2) true 1 [] 0) (0, 0)%Q (2, 0)%Q
           [(2, 1)%Q] (ColorString "#0A141E")
           (ofZ 10, ofZ 20, ofZ 30, ofZ 255));
    try reflexivity.
  - unfold wf_image; repeat apply conj; reflexivity.
  - cbn. discriminate.
  - repeat constructor; vm_compute; discriminate.
Defined.

(** ** Interpolation *)

Lemma lerp_loop_length (fuel : nat) (points : list Point) (t : Q) :
  (length points <= S fuel)%nat ->
  length (lerp_loop fuel points t) = Nat.min 1 (length points).
Proof.
  revert points. induction fuel as [|fuel IH]; intros points Hlen;
    cbn [lerp_loop]; [lia|].
  destruct (1 <? length points)%nat eqn:E.
  - apply Nat.ltb_lt in E. rewrite IH; rewrite lerp_pass_length; lia.
  - apply Nat.ltb_ge in E. lia.
Qed.

(** What the passes keep, they keep to the end. *)
Lemma lerp_loop_keeps (I : list Point -> Prop) (t : Q) :
  (forall p q l, I (p :: q :: l) -> I (lerp_pass (p :: q :: l) t)) ->
  forall fuel points, I points -> I (lerp_loop fuel points t).
Proof.
  intros Hpass. induction fuel as [|fuel IH]; intros points HI; [exact HI|].
  cbn [lerp_loop]. destruct points as [|p [|q l]]; cbn [length Nat.ltb Nat.leb];
    try exact HI.
  apply IH, Hpass, HI.
Qed.

Lemma lerpPoints_single (I : list Point -> Prop) (t : Q) (p0 : Point)
  (rest : list Point) :
  (forall p q l, I (p :: q :: l) -> I (lerp_pass (p :: q :: l) t)) ->
  I (p0 :: rest) -> I [lerpPoints (p0 :: rest) t].
Proof.
  intros Hpass HI. unfold lerpPoints.
  pose proof (lerp_loop_keeps I t Hpass (length (p0 :: rest)) (p0 :: rest) HI)
    as Hend.
  pose proof (lerp_loop_length (length (p0 :: rest)) (p0 :: rest) t) as Hlen.
  destruct (lerp_loop _ _ _) as [|p [|q l]]; cbn [length] in Hlen;
    [lia | exact Hend | lia].
Qed.

Lemma last_cons {A} (a : A) (l : list A) (d : A) :
  List.last (a :: l) d = List.last l a.
Proof.
  revert a d. induction l as [|b l IH]; intros a d; [reflexivity|].
  change (List.last (a :: b :: l) d) with (List.last (b :: l) d).
  rewrite !IH. reflexivity.
Qed.

(** The passes on the rationals of the model: at [t = 0] they keep the
    first point, at [t = 1] the last one. *)
Lemma lerpPoints_at_0 (p0 : Point) (rest : list Point) :
  same_point (lerpPoints (p0 :: rest) 0) p0.
Proof.
  apply (lerpPoints_single
           (fun l => match l with
                     | p :: _ => same_point p p0
                     | [] => False
                     end) 0 p0 rest).
  - intros [x1 y1] [x2 y2] l [H1 H2]. cbn [lerp_pass fst snd] in *.
    split; cbn [fst snd]; rewrite <- ?H1, <- ?H2; ring.
  - split; reflexivity.
Qed.

Lemma lerpPoints_at_1 (p0 : Point) (rest : list Point) (t : Q) :
  (t == 1)%Q ->
  same_point (lerpPoints (p0 :: rest) t) (List.last rest p0).
Proof.
  intros Ht.
  apply (lerpPoints_single
           (fun l => match l with
                     | p :: l' => same_point (List.last l' p) (List.last rest p0)
                     | [] => False
                     end) t p0 rest).
  - intros p q l. revert p q. induction l as [|r l IH]; intros [x1 y1] [x2 y2].
    + cbn [lerp_pass List.last]. intros [H1 H2]. cbn [fst snd] in *.
      split; cbn [fst snd]; rewrite Ht, <- ?H1, <- ?H2; ring.
    + intros H. specialize (IH (x2, y2) r).
      change (lerp_pass ((x1, y1) :: (x2, y2) :: r :: l) t)
        with ((x1 + (x2 - x1) * t, y1 + (y2 - y1) * t)%Q
                :: lerp_pass (@cons Point (x2, y2) (r :: l)) t).
      destruct (lerp_pass (@cons Point (x2, y2) (r :: l)) t) as [|a l'] eqn:E;
        [destruct r; discriminate|].
      rewrite last_cons. rewrite last_cons in H. apply IH. exact H.
  - split; reflexivity.
Qed.

(** Between two points the passes give the linear interpolation, between
    three the quadratic Bezier polynomial. *)
Lemma lerpPoints_of_two (p0 p1 : Point) (t : Q) :
  same_point (lerpPoints [p0; p1] t)
    ((1 - t) * fst p0 + t * fst p1, (1 - t) * snd p0 + t * snd p1)%Q.
Proof.
  destruct p0 as [x0 y0], p1 as [x1 y1]. cbn.
  split; cbn [fst snd]; ring.
Qed.

Lemma lerpPoints_of_three (p0 p1 p2 : Point) (t : Q) :
  same_point (lerpPoints [p0; p1; p2] t)
    ((1 - t) * (1 - t) * fst p0 + 2 * (1 - t) * t * fst p1 + t * t * fst p2,
     (1 - t) * (1 - t) * snd p0 + 2 * (1 - t) * t * snd p1
     + t * t * snd p2)%Q.
Proof.
  destruct p0 as [x0 y0], p1 as [x1 y1], p2 as [x2 y2]. cbn.
  split; cbn [fst snd]; ring.
Qed.

Lemma last_map_point_of (rest : list (Z * Z)) (p0 : Z * Z) :
  List.last (map point_of rest) (point_of p0) = point_of (List.last rest p0).
Proof.
  revert p0. induction rest as [|p rest IH]; intros p0; [reflexivity|].
  change (map point_of (p :: rest)) with (point_of p :: map point_of rest).
  rewrite !last_cons. apply IH.
Qed.

(** X14.  [lerpPoints], the interpolation behind [drawBezier], on
    control points with integer coordinates up to [2 ^ 50] in absolute
    value, where the differences, the halves and the quarters that the
    source computes are exact: at [t = 0] it is the first control point
    and at [t = 1] the last one, whatever the number of control points;
    at [t = 1/2] it is the middle of two control points, and for three
    control points the point [(P0 + 2 P1 + P2) / 4] of the quadratic
    Bezier curve. *)
Theorem lerpPoints_ends (p0 : Z * Z) (rest : list (Z * Z)) :
  Forall safe_pixel (p0 :: rest) ->
  same_point (lerpPoints (map point_of (p0 :: rest)) 0) (point_of p0)
  /\ same_point (lerpPoints (map point_of (p0 :: rest)) 1)
       (point_of (List.last rest p0))
  /\ (forall p1, rest = [p1] ->
        same_point (lerpPoints (map point_of (p0 :: rest)) (1 # 2))
          (inject_Z (fst p0 + fst p1) / 2,
           inject_Z (snd p0 + snd p1) / 2)%Q)
  /\ (forall p1 p2, rest = [p1; p2] ->
        same_point (lerpPoints (map point_of (p0 :: rest)) (1 # 2))
          (inject_Z (fst p0 + 2 * fst p1 + fst p2) / 4,
           inject_Z (snd p0 + 2 * snd p1 + snd p2) / 4)%Q).
Proof.
  intros _.
  change (map point_of (p0 :: rest)) with (point_of p0 :: map point_of rest).
  split; [apply lerpPoints_at_0|].
  split; [rewrite <- last_map_point_of; apply lerpPoints_at_1; reflexivity|].
  split.
  - intros p1 ->.
    destruct (lerpPoints_of_two (point_of p0) (point_of p1) (1 # 2))
      as [Hx Hy].
    split; cbn [fst snd point_of map] in *; rewrite ?Hx, ?Hy;
      rewrite inject_Z_plus; field.
  - intros p1 p2 ->.
    destruct (lerpPoints_of_three (point_of p0) (point_of p1) (point_of p2)
                (1 # 2)) as [Hx Hy].
    split; cbn [fst snd point_of map] in *; rewrite ?Hx, ?Hy;
      rewrite !inject_Z_plus, inject_Z_mult; change (inject_Z 2) with 2%Q;
      field.
Qed.

Lemma lerpPoints_ends_witness :
  Forall safe_pixel [(0, 0); (4, 2); (2, 6)]
  /\ same_point (lerpPoints (map point_of [(0, 0); (4, 2); (2, 6)]) 0)
       (point_of (0, 0))
  /\ same_point (lerpPoints (map point_of [(0, 0); (4, 2); (2, 6)]) 1)
       (point_of (2, 6))
  /\ same_point (lerpPoints (map point_of [(0, 0); (4, 2); (2, 6)]) (1 # 2))
       (inject_Z (0 + 2 * 4 + 2) / 4, inject_Z (0 + 2 * 2 + 6) / 4)%Q.
Proof.
  assert (Hsafe : Forall safe_pixel [(0, 0); (4, 2); (2, 6)])
    by (repeat constructor; vm_compute; discriminate).
  split; [exact Hsafe|].
  destruct (lerpPoints_ends (0, 0) [(4, 2); (2, 6)] Hsafe)
    as (H0 & H1 & _ & H3).
  split; [exact H0|]. split; [exact H1|].
  exact (H3 (4, 2) (2, 6) eq_refl).
Defined.

(** ** The step of a curve *)

(** X16.  [drawBezier] of two points or more draws nothing when its
    step is above 1, and when no step is given and the bounding box of
    the control points is as wide as it is high, the default step
    [1 / | |x1 - x0| - |y1 - y0| |] being infinite then: called on a
    drawer at rest it returns the drawer as it was, even with an
    invalid color.  With a step of 0 or less it does not return. *)
Theorem drawBezier_step_edge_cases
  (fuel : nat) (p0 p1 : Point) (rest : list Point) (color : Color)
  (step : option Q) (d : ImageDrawer) :
  flushDisablers d = 0 -> temporaryBuffer d = [] ->
  (match step with
   | Some s => (1 < s)%Q
   | None =>
       (Qabs (fst (reduce_max p0 (p1 :: rest)) - fst (reduce_min p0 (p1 :: rest)))
        == Qabs (snd (reduce_max p0 (p1 :: rest))
                 - snd (reduce_min p0 (p1 :: rest))))%Q
   end ->
   drawBezier fuel (p0 :: p1 :: rest) color step d = Done tt d)
  /\ (match step with Some s => (s <= 0)%Q | None => False end ->
      drawBezier fuel (p0 :: p1 :: rest) color step d = NoReturn).
Proof.
  intros Hfd Htb.
  assert (Hback : flush
                    (set_flushDisablers
                       (flushDisablers
                          (set_flushDisablers (flushDisablers d + 1) d) - 1)
                       (set_flushDisablers (flushDisablers d + 1) d))
                  = Done tt d).
  { cbn [flushDisablers set_flushDisablers].
    replace (flushDisablers d + 1 - 1) with (flushDisablers d) by lia.
    rewrite set_flushDisablers_back. unfold flush. rewrite Hfd, Htb.
    cbn [Z.eqb negb flush_loop]. f_equal.
    destruct d as [img bl th tb fd]. cbn in *. subst. reflexivity. }
  split.
  - intros Hstep. unfold drawBezier.
    fold (reduce_min p0 (p1 :: rest)). fold (reduce_max p0 (p1 :: rest)).
    destruct (reduce_min p0 (p1 :: rest)) as [x0 y0].
    destruct (reduce_max p0 (p1 :: rest)) as [x1 y1].
    cbn [fst snd] in Hstep.
    unfold bind, incr_flushDisablers, decr_flushDisablers, modify.
    destruct step as [s|].
    + assert (E : Qle_bool s 1 = false) by (apply Qle_bool_false_iff, Hstep).
      destruct fuel; cbn [bezier_loop]; rewrite E; exact Hback.
    + assert (E : Js.div (ofZ 1) (Num (Qabs (Qabs (x1 - x0) - Qabs (y1 - y0))))
                  = PInf).
      { unfold Js.div, ofZ.
        assert (E0 : Qeq_bool (Qabs (Qabs (x1 - x0) - Qabs (y1 - y0))) 0 = true).
        { apply Qeq_bool_iff. rewrite Hstep.
          assert (E0 : (Qabs (y1 - y0) - Qabs (y1 - y0) == 0)%Q) by ring.
          rewrite E0. reflexivity. }
        rewrite E0. reflexivity. }
      rewrite E. exact Hback.
  - destruct step as [s|]; [|contradiction]. intros Hs. unfold drawBezier.
    destruct (fold_left _ _ _) as [x0 y0]. destruct (fold_left _ _ _) as [x1 y1].
    unfold bind at 1 2. unfold incr_flushDisablers at 1. unfold modify at 1.
    rewrite bezier_loop_endless;
      [reflexivity | exact Hs | lra
      | cbn [flushDisablers set_flushDisablers]; lia].
Qed.

Lemma drawBezier_step_edge_cases_witness :
  drawBezier 5 [(0, 0); (10, 10)]%Q (ColorString "#FFFFFF") None
    (new_ImageDrawer (new_Image 12 12))
  = Done tt (new_ImageDrawer (new_Image 12 12)).
Proof.
  apply (drawBezier_step_edge_cases 5 (0, 0)%Q (10, 10)%Q []
           (ColorString "#FFFFFF") None (new_ImageDrawer (new_Image 12 12)));
    reflexivity.
Defined.

(** ** Circles *)

Lemma circle_loop_fold (fuel : nat)
  (body : Q -> Q -> ImageDrawer -> ImageDrawer) (x y d : Q)
  (dr : ImageDrawer) :
  circle_loop fuel body x y d dr
  = fold_left (fun dr s => body (fst s) (snd s) dr) (circle_list fuel x y d) dr.
Proof.
  revert x y d dr. induction fuel as [|fuel IH]; intros x y d dr;
    [reflexivity|].
  cbn [circle_loop circle_list]. destruct (Qle_bool x y); [|reflexivity].
  cbv zeta. destruct (Qlt_bool 0 d); cbn [fold_left fst snd]; apply IH.
Qed.

Lemma circle_loop_stage (color : Color) (fuel : nat)
  (body : Q -> Q -> ImageDrawer -> ImageDrawer) (f : Q -> Q -> list Point)
  (x y d : Q) (dr : ImageDrawer) :
  (forall i j dr, body i j dr = stage_all color (f i j) dr) ->
  circle_loop fuel body x y d dr
  = stage_all color
      (flat_map (fun s => f (fst s) (snd s)) (circle_list fuel x y d)) dr.
Proof.
  intros H. rewrite circle_loop_fold, <- fold_stage_flat_map.
  apply fold_left_ext. intros a b. apply H.
Qed.

Lemma circle_spans_stage (xc yc : Q) (color : Color) (x y : Q)
  (d : ImageDrawer) :
  circle_spans xc yc color x y d
  = stage_all color (circle_spans_list xc yc x y) d.
Proof.
  unfold circle_spans, circle_spans_list. rewrite stage_all_app.
  rewrite (For_stage color (xc - x) (xc + x)
             (fun i => [(i, yc + y); (i, yc - y)]%Q)) by reflexivity.
  apply For_stage. reflexivity.
Qed.

(** With an integer radius, the loop of a circle goes through integers
    [i <= j], [i] from its start upward and [j] from the radius
    downward. *)
Lemma circle_list_integers (fuel : nat) (x y d : Q) (i0 j0 : Z) (s : Q * Q) :
  (x == inject_Z i0)%Q -> (y == inject_Z j0)%Q ->
  In s (circle_list fuel x y d) ->
  exists i j, (fst s == inject_Z i)%Q /\ (snd s == inject_Z j)%Q
              /\ i0 <= i <= j /\ j <= j0.
Proof.
  revert x y d i0 j0. induction fuel as [|fuel IH]; intros x y d i0 j0 Ex Ey;
    [intros []|].
  cbn [circle_list]. destruct (Qle_bool x y) eqn:E; [|intros []].
  apply Qle_bool_iff in E. rewrite Ex, Ey, <- Zle_Qle in E.
  intros [<- | Hin].
  - exists i0, j0. cbn [fst snd]. repeat split; try assumption; lia.
  - cbv zeta in Hin. destruct (Qlt_bool 0 d).
    + assert (E1 : (x + 1 == inject_Z (i0 + 1))%Q)
        by (rewrite Ex, inject_Z_plus; reflexivity).
      assert (E2 : (y - 1 == inject_Z (j0 - 1))%Q).
      { rewrite Ey. unfold Z.sub. rewrite inject_Z_plus, inject_Z_opp.
        change (inject_Z 1) with 1%Q. ring. }
      destruct (IH _ _ _ _ _ E1 E2 Hin) as (i & j & Ei & Ej & Hi & Hj).
      exists i, j. repeat split; try assumption; lia.
    + assert (E1 : (x + 1 == inject_Z (i0 + 1))%Q)
        by (rewrite Ex, inject_Z_plus; reflexivity).
      destruct (IH _ _ _ _ _ E1 Ey Hin) as (i & j & Ei & Ej & Hi & Hj).
      exists i, j. repeat split; try assumption; lia.
Qed.

(** The first round of a circle of radius [r >= 0] is at [(0, r)]. *)
Lemma circle_list_first (r : Q) :
  (0 <= r)%Q ->
  In (0%Q, r) (circle_list (fuel_circle r) 0 r (3 - 2 * r)).
Proof.
  intros Hr. unfold fuel_circle. cbn [circle_list].
  apply Qle_bool_iff in Hr. rewrite Hr. left. reflexivity.
Qed.

Lemma Qeq_plus_Z (q : Q) (z a : Z) :
  (q == inject_Z z)%Q -> (inject_Z a + q == inject_Z (a + z))%Q.
Proof. intros ->. rewrite inject_Z_plus. reflexivity. Qed.

Lemma Qeq_minus_Z (q : Q) (z a : Z) :
  (q == inject_Z z)%Q -> (inject_Z a - q == inject_Z (a - z))%Q.
Proof.
  intros ->. unfold Z.sub. rewrite inject_Z_plus, inject_Z_opp. reflexivity.
Qed.

Lemma For_list_between (lo hi q : Q) (a b : Z) :
  (lo == inject_Z a)%Q -> (hi == inject_Z b)%Q ->
  In q (For_list lo hi) ->
  exists u, (q == inject_Z u)%Q /\ a <= u <= b.
Proof.
  intros Elo Ehi Hin.
  destruct (for_le_list_In _ _ _ _ Hin) as (k & Hk & Eq & Hq).
  exists (a + k). rewrite inject_Z_plus, <- Elo, <- Eq.
  split; [reflexivity|]. split; [lia|].
  rewrite Eq, Elo, Ehi, <- inject_Z_plus, <- Zle_Qle in Hq. exact Hq.
Qed.

Lemma For_list_reach (lo hi : Q) (a b u : Z) :
  (lo == inject_Z a)%Q -> (hi == inject_Z b)%Q -> a <= u <= b ->
  exists q, In q (For_list lo hi) /\ (q == inject_Z u)%Q.
Proof.
  intros Elo Ehi Hu.
  assert (Eu : (inject_Z u == lo + inject_Z (Z.of_nat (Z.to_nat (u - a))))%Q).
  { rewrite Elo, <- inject_Z_plus, Z2Nat.id by lia.
    replace (a + (u - a)) with u by lia. reflexivity. }
  destruct (for_le_list_hit (fuel_le lo hi) lo hi (Z.to_nat (u - a)))
    as (q & Hin & Eq).
  - unfold fuel_le.
    assert (u - a <= Qfloor (hi - lo)).
    { apply Qfloor_ge_iff. rewrite Ehi, Elo. unfold Z.sub.
      rewrite !inject_Z_plus, !inject_Z_opp.
      assert (inject_Z u <= inject_Z b)%Q by (rewrite <- Zle_Qle; lia). lra. }
    lia.
  - rewrite <- Eu, Ehi, <- Zle_Qle. lia.
  - exists q. split; [exact Hin|]. rewrite Eq, Eu. reflexivity.
Qed.

Lemma drawCircle_stage (xc yc radius : Q) (color : Color) (d : ImageDrawer) :
  drawCircle (xc, yc) radius color d
  = flush
      (stage_all color
         (flat_map (fun s => circle_points_list xc yc (fst s) (snd s))
            (circle_list (fuel_circle radius) 0 radius (3 - 2 * radius))) d).
Proof.
  unfold drawCircle, bind, modify. f_equal.
  apply circle_loop_stage. reflexivity.
Qed.

Lemma drawFilledCircle_stage (xc yc radius : Q) (color : Color)
  (d : ImageDrawer) :
  drawFilledCircle (xc, yc) radius color d
  = flush
      (stage_all color
         (flat_map (fun s => circle_spans_list xc yc (fst s) (snd s))
            (circle_list (fuel_circle radius) 0 radius (3 - 2 * radius))) d).
Proof.
  unfold drawFilledCircle, bind, modify. f_equal.
  apply circle_loop_stage. intros. apply circle_spans_stage.
Qed.

(** The points of a round at the integers [i <= j] around the integer
    center [(a, b)] are pixels at most [j] away from it on both axes. *)
Lemma circle_points_integer (a b i j : Z) (x y : Q) (p : Point) :
  (x == inject_Z i)%Q -> (y == inject_Z j)%Q -> 0 <= i <= j ->
  In p (circle_points_list (inject_Z a) (inject_Z b) x y) ->
  exists u v, (fst p == inject_Z u)%Q /\ (snd p == inject_Z v)%Q
              /\ a - j <= u <= a + j /\ b - j <= v <= b + j.
Proof.
  intros Ex Ey Hij Hin.
  pose proof (Qeq_plus_Z x i a Ex). pose proof (Qeq_minus_Z x i a Ex).
  pose proof (Qeq_plus_Z y j a Ey). pose proof (Qeq_minus_Z y j a Ey).
  pose proof (Qeq_plus_Z x i b Ex). pose proof (Qeq_minus_Z x i b Ex).
  pose proof (Qeq_plus_Z y j b Ey). pose proof (Qeq_minus_Z y j b Ey).
  unfold circle_points_list in Hin. cbn [In] in Hin.
  repeat (destruct Hin as [<- | Hin];
          [eexists; eexists; cbn [fst snd];
           split; [eassumption|]; split; [eassumption|]; lia|]).
  contradiction.
Qed.

Lemma circle_spans_integer (a b i j : Z) (x y : Q) (p : Point) :
  (x == inject_Z i)%Q -> (y == inject_Z j)%Q -> 0 <= i <= j ->
  In p (circle_spans_list (inject_Z a) (inject_Z b) x y) ->
  exists u v, (fst p == inject_Z u)%Q /\ (snd p == inject_Z v)%Q
              /\ a - j <= u <= a + j /\ b - j <= v <= b + j.
Proof.
  intros Ex Ey Hij Hin.
  pose proof (Qeq_plus_Z x i a Ex). pose proof (Qeq_minus_Z x i a Ex).
  pose proof (Qeq_plus_Z y j a Ey). pose proof (Qeq_minus_Z y j a Ey).
  pose proof (Qeq_plus_Z x i b Ex). pose proof (Qeq_minus_Z x i b Ex).
  pose proof (Qeq_plus_Z y j b Ey). pose proof (Qeq_minus_Z y j b Ey).
  unfold circle_spans_list in Hin.
  apply in_app_or in Hin as [Hin | Hin];
    apply in_flat_map in Hin as (q & Hq & Hin);
    eapply For_list_between in Hq as (u & Eu & Hu); try eassumption;
    destruct Hin as [<- | [<- | []]];
    eexists; eexists; cbn [fst snd];
    (split; [exact Eu|]); (split; [eassumption|]); lia.
Qed.

Lemma hits_in_box (img : Image) (ps : list Point) (x y x0 x1 y0 y1 : Z) :
  0 <= x < width img -> 0 <= y < height img ->
  (forall p, In p ps ->
     exists u v, (fst p == inject_Z u)%Q /\ (snd p == inject_Z v)%Q
                 /\ x0 <= u <= x1 /\ y0 <= v <= y1) ->
  hits img ps x y -> x0 <= x <= x1 /\ y0 <= y <= y1.
Proof.
  intros Hx Hy Hbox Hhit.
  apply hits_integer_points in Hhit as (p & Hin & Ex & Ey); try assumption.
  - destruct (Hbox p Hin) as (u & v & Eu & Ev & Hu & Hv).
    rewrite Eu in Ex. rewrite Ev in Ey.
    rewrite inject_Z_injective in Ex, Ey. subst. auto.
  - intros p Hin. destruct (Hbox p Hin) as (u & v & Eu & Ev & _).
    exists u, v. auto.
Qed.

Lemma hits_point (img : Image) (ps : list Point) (x y : Z) (p : Point) :
  0 <= x < width img -> 0 <= y < height img ->
  In p ps -> (fst p == inject_Z x)%Q -> (snd p == inject_Z y)%Q ->
  hits img ps x y.
Proof.
  intros Hx Hy Hin Ex Ey. exists p. split; [exact Hin|].
  split; [apply (outside_integer img p x y Ex Ey); auto|].
  apply (key_of_integer img p x y Ex Ey).
Qed.

(** X17.  [drawCircle] with an integer center [(a, b)], up to [2 ^ 50]
    in absolute value, and an integer radius [r >= 0], up to [2 ^ 24],
    so that the counters and the decision variable of the source are
    exact, on a drawer at rest and with a valid color, returns with
    nothing pending; it leaves every pixel outside the square of
    half side [r] around the center as it was, and it writes the four
    pixels of the image at distance [r] from the center along the
    axes. *)
Theorem drawCircle_box_and_poles
  (d : ImageDrawer) (a b r : Z) (color : Color) (cn : FullColorArray) :
  wf_image (image d) ->
  flushDisablers d = 0 -> temporaryBuffer d = [] ->
  toColor color = Returns cn -> 0 <= r ->
  safe_pixel (a, b) -> safe_factor r ->
  exists d',
    drawCircle (inject_Z a, inject_Z b) (inject_Z r) color d = Done tt d'
    /\ temporaryBuffer d' = []
    /\ forall x y, 0 <= x < width (image d) -> 0 <= y < height (image d) ->
         (x < a - r \/ a + r < x \/ y < b - r \/ b + r < y ->
          Image_get (image d') (inject_Z x, inject_Z y)
          = Image_get (image d) (inject_Z x, inject_Z y))
         /\ (x = a /\ (y = b + r \/ y = b - r)
             \/ y = b /\ (x = a + r \/ x = a - r) ->
             Image_get (image d') (inject_Z x, inject_Z y)
             = stored (written (blending d)
                         (Image_get (image d) (inject_Z x, inject_Z y)) cn)).
Proof.
  intros Hwf Hfd Htb Hcn Hr _ _. rewrite drawCircle_stage.
  set (ps := flat_map _ _).
  destruct (flush_stage_exact color cn ps d Hwf Hfd Htb Hcn)
    as (d' & Hrun & Htb' & _ & _ & _ & _ & Hpix).
  exists d'. split; [exact Hrun|]. split; [exact Htb'|].
  intros x y Hx Hy. destruct (Hpix x y Hx Hy) as [Hhit Hmiss].
  assert (Hbox : forall p, In p ps ->
            exists u v, (fst p == inject_Z u)%Q /\ (snd p == inject_Z v)%Q
                        /\ a - r <= u <= a + r /\ b - r <= v <= b + r).
  { intros p Hin. apply in_flat_map in Hin as (s & Hs & Hin).
    apply (circle_list_integers _ _ _ _ 0 r) in Hs
        as (i & j & Ei & Ej & Hi & Hj); [|reflexivity | reflexivity].
    destruct (circle_points_integer a b i j _ _ p Ei Ej Hi Hin)
      as (u & v & Eu & Ev & Hu & Hv).
    exists u, v. repeat split; try assumption; lia. }
  assert (Hfirst : In (0%Q, inject_Z r)
                     (circle_list (fuel_circle (inject_Z r)) 0 (inject_Z r)
                        (3 - 2 * inject_Z r))).
  { apply circle_list_first. change 0%Q with (inject_Z 0).
    rewrite <- Zle_Qle. exact Hr. }
  assert (Hpole : forall p,
            In p (circle_points_list (inject_Z a) (inject_Z b) 0 (inject_Z r)) ->
            (fst p == inject_Z x)%Q -> (snd p == inject_Z y)%Q ->
            hits (image d) ps x y).
  { intros p Hin Ex Ey. apply (hits_point _ _ _ _ p); try assumption.
    apply in_flat_map. exists (0%Q, inject_Z r). split; [exact Hfirst|].
    exact Hin. }
  split.
  - intros Hout. apply Hmiss. intros H.
    apply (hits_in_box _ _ _ _ _ _ _ _ Hx Hy Hbox) in H. lia.
  - intros Hon. apply Hhit.
    assert (E0 : forall c, (inject_Z c + 0 == inject_Z c)%Q) by (intros; ring).
    unfold circle_points_list in Hpole.
    destruct Hon as [[-> [-> | ->]] | [-> [-> | ->]]].
    + apply (Hpole (inject_Z a + 0, inject_Z b + inject_Z r)%Q);
        [cbn; auto | apply E0 | cbn [snd]; rewrite inject_Z_plus; reflexivity].
    + apply (Hpole (inject_Z a + 0, inject_Z b - inject_Z r)%Q);
        [cbn; auto | apply E0 | apply Qeq_minus_Z; reflexivity].
    + apply (Hpole (inject_Z a + inject_Z r, inject_Z b + 0)%Q);
        [cbn; auto 10 | cbn [fst]; rewrite inject_Z_plus; reflexivity
        | apply E0].
    + apply (Hpole (inject_Z a - inject_Z r, inject_Z b + 0)%Q);
        [cbn; auto 10 | apply Qeq_minus_Z; reflexivity | apply E0].
Qed.

Lemma drawCircle_box_and_poles_witness :
  exists d',
    drawCircle (inject_Z 2, inject_Z 2) (inject_Z 1) (ColorString "#0A141E")
      (mkDrawer (new_Image 5 5) false 1 [] 0) = Done tt d'
    /\ temporaryBuffer d' = []
    /\ forall x y, 0 <= x < 5 -> 0 <= y < 5 ->
         (x < 2 - 1 \/ 2 + 1 < x \/ y < 2 - 1 \/ 2 + 1 < y ->
          Image_get (image d') (inject_Z x, inject_Z y)
          = Image_get (new_Image 5 5) (inject_Z x, inject_Z y))
         /\ (x = 2 /\ (y = 2 + 1 \/ y = 2 - 1)
             \/ y = 2 /\ (x = 2 + 1 \/ x = 2 - 1) ->
             Image_get (image d') (inject_Z x, inject_Z y)
             = stored (ofZ 10, ofZ 20, ofZ 30, ofZ 255)).
Proof.
  apply (drawCircle_box_and_poles
           (mkDrawer (new_Image 5 5) false 1 [] 0) 2 2 1
           (ColorString "#0A141E") (ofZ 10, ofZ 20, ofZ 30, ofZ 255));
    try reflexivity; try lia.
  - unfold wf_image; repeat apply conj; reflexivity.
  - split; vm_compute; discriminate.
  - vm_compute; discriminate.
Defined.

(** Every integer from the start of [x] to the start of [y] is the [x]
    or the [y] of some round. *)
Lemma circle_list_rows (fuel : nat) (x y d : Q) (i0 j0 k : Z) :
  (x == inject_Z i0)%Q -> (y == inject_Z j0)%Q ->
  j0 - i0 < Z.of_nat fuel -> i0 <= k <= j0 ->
  exists s i j,
    In s (circle_list fuel x y d)
    /\ (fst s == inject_Z i)%Q /\ (snd s == inject_Z j)%Q
    /\ i0 <= i <= j /\ j <= j0 /\ (i = k \/ j = k).
Proof.
  revert x y d i0 j0. induction fuel as [|fuel IH];
    intros x y d i0 j0 Ex Ey Hfuel Hk; [lia|].
  cbn [circle_list].
  assert (E : Qle_bool x y = true).
  { apply Qle_bool_iff. rewrite Ex, Ey, <- Zle_Qle. lia. }
  rewrite E.
  destruct (Z.eq_dec k i0) as [-> | Hki];
    [exists (x, y), i0, j0; cbn [fst snd In]; repeat split; auto; lia|].
  destruct (Z.eq_dec k j0) as [-> | Hkj];
    [exists (x, y), i0, j0; cbn [fst snd In]; repeat split; auto; lia|].
  assert (E1 : (x + 1 == inject_Z (i0 + 1))%Q)
    by (rewrite Ex, inject_Z_plus; reflexivity).
  assert (E2 : (y - 1 == inject_Z (j0 - 1))%Q).
  { rewrite Ey. unfold Z.sub. rewrite inject_Z_plus, inject_Z_opp.
    change (inject_Z 1) with 1%Q. ring. }
  cbv zeta. destruct (Qlt_bool 0 d).
  - destruct (IH (x + 1)%Q (y - 1)%Q (d + 4 * (x - (y - 1)) + 10)%Q
                (i0 + 1) (j0 - 1) E1 E2)
      as (s & i & j & Hin & Ei & Ej & Hi & Hj & Hor); try lia.
    exists s, i, j. repeat split; try assumption; try lia.
    right. exact Hin.
  - destruct (IH (x + 1)%Q y (d + 4 * x + 6)%Q (i0 + 1) j0 E1 Ey)
      as (s & i & j & Hin & Ei & Ej & Hi & Hj & Hor); try lia.
    exists s, i, j. repeat split; try assumption; try lia.
    right. exact Hin.
Qed.

(** X18.  [drawFilledCircle] with an integer center [(a, b)], up to
    [2 ^ 50] in absolute value, and an integer radius [r >= 0], up to
    [2 ^ 24], so that the counters and the decision variable of the
    source are exact, on a drawer at rest and with a valid color,
    returns with nothing pending; it leaves every pixel outside
    the square of half side [r] around the center as it was, and it
    writes every pixel of the image on the horizontal and on the
    vertical diameter. *)
Theorem drawFilledCircle_box_and_diameters
  (d : ImageDrawer) (a b r : Z) (color : Color) (cn : FullColorArray) :
  wf_image (image d) ->
  flushDisablers d = 0 -> temporaryBuffer d = [] ->
  toColor color = Returns cn -> 0 <= r ->
  safe_pixel (a, b) -> safe_factor r ->
  exists d',
    drawFilledCircle (inject_Z a, inject_Z b) (inject_Z r) color d
    = Done tt d'
    /\ temporaryBuffer d' = []
    /\ forall x y, 0 <= x < width (image d) -> 0 <= y < height (image d) ->
         (x < a - r \/ a + r < x \/ y < b - r \/ b + r < y ->
          Image_get (image d') (inject_Z x, inject_Z y)
          = Image_get (image d) (inject_Z x, inject_Z y))
         /\ (y = b /\ a - r <= x <= a + r \/ x = a /\ b - r <= y <= b + r ->
             Image_get (image d') (inject_Z x, inject_Z y)
             = stored (written (blending d)
                         (Image_get (image d) (inject_Z x, inject_Z y)) cn)).
Proof.
  intros Hwf Hfd Htb Hcn Hr _ _. rewrite drawFilledCircle_stage.
  set (ps := flat_map _ _).
  destruct (flush_stage_exact color cn ps d Hwf Hfd Htb Hcn)
    as (d' & Hrun & Htb' & _ & _ & _ & _ & Hpix).
  exists d'. split; [exact Hrun|]. split; [exact Htb'|].
  intros x y Hx Hy. destruct (Hpix x y Hx Hy) as [Hhit Hmiss].
  assert (Hbox : forall p, In p ps ->
            exists u v, (fst p == inject_Z u)%Q /\ (snd p == inject_Z v)%Q
                        /\ a - r <= u <= a + r /\ b - r <= v <= b + r).
  { intros p Hin. apply in_flat_map in Hin as (s & Hs & Hin).
    apply (circle_list_integers _ _ _ _ 0 r) in Hs
        as (i & j & Ei & Ej & Hi & Hj); [|reflexivity | reflexivity].
    destruct (circle_spans_integer a b i j _ _ p Ei Ej Hi Hin)
      as (u & v & Eu & Ev & Hu & Hv).
    exists u, v. repeat split; try assumption; lia. }
  (* a point of the second span of the round [s] *)
  assert (Hwide : forall s i j u v,
            In s (circle_list (fuel_circle (inject_Z r)) 0 (inject_Z r)
                    (3 - 2 * inject_Z r)) ->
            (fst s == inject_Z i)%Q -> (snd s == inject_Z j)%Q ->
            a - j <= u <= a + j -> v = b + i \/ v = b - i ->
            u = x -> v = y -> hits (image d) ps x y).
  { intros s i j u v Hs Ei Ej Hu Hv <- <-.
    destruct (For_list_reach (inject_Z a - snd s) (inject_Z a + snd s)
                (a - j) (a + j) u) as (q & Hq & Eq);
      [apply Qeq_minus_Z, Ej | apply Qeq_plus_Z, Ej | lia |].
    destruct Hv as [-> | ->].
    - apply (hits_point _ _ _ _ (q, inject_Z b + fst s)%Q); try assumption;
        [|apply Qeq_plus_Z, Ei].
      apply in_flat_map. exists s. split; [exact Hs|].
      unfold circle_spans_list. apply in_or_app. right.
      apply in_flat_map. exists q. split; [exact Hq | left; reflexivity].
    - apply (hits_point _ _ _ _ (q, inject_Z b - fst s)%Q); try assumption;
        [|apply Qeq_minus_Z, Ei].
      apply in_flat_map. exists s. split; [exact Hs|].
      unfold circle_spans_list. apply in_or_app. right.
      apply in_flat_map. exists q.
      split; [exact Hq | right; left; reflexivity]. }
  (* a point of the first span of the round [s] *)
  assert (Hnarrow : forall s i j u v,
            In s (circle_list (fuel_circle (inject_Z r)) 0 (inject_Z r)
                    (3 - 2 * inject_Z r)) ->
            (fst s == inject_Z i)%Q -> (snd s == inject_Z j)%Q ->
            a - i <= u <= a + i -> v = b + j \/ v = b - j ->
            u = x -> v = y -> hits (image d) ps x y).
  { intros s i j u v Hs Ei Ej Hu Hv <- <-.
    destruct (For_list_reach (inject_Z a - fst s) (inject_Z a + fst s)
                (a - i) (a + i) u) as (q & Hq & Eq);
      [apply Qeq_minus_Z, Ei | apply Qeq_plus_Z, Ei | lia |].
    destruct Hv as [-> | ->].
    - apply (hits_point _ _ _ _ (q, inject_Z b + snd s)%Q); try assumption;
        [|apply Qeq_plus_Z, Ej].
      apply in_flat_map. exists s. split; [exact Hs|].
      unfold circle_spans_list. apply in_or_app. left.
      apply in_flat_map. exists q. split; [exact Hq | left; reflexivity].
    - apply (hits_point _ _ _ _ (q, inject_Z b - snd s)%Q); try assumption;
        [|apply Qeq_minus_Z, Ej].
      apply in_flat_map. exists s. split; [exact Hs|].
      unfold circle_spans_list. apply in_or_app. left.
      apply in_flat_map. exists q.
      split; [exact Hq | right; left; reflexivity]. }
  split.
  - intros Hout. apply Hmiss. intros H.
    apply (hits_in_box _ _ _ _ _ _ _ _ Hx Hy Hbox) in H. lia.
  - intros Hon. apply Hhit. destruct Hon as [[-> Hrow] | [-> Hcol]].
    + apply (Hwide (0%Q, inject_Z r) 0 r x b);
        [apply circle_list_first; change 0%Q with (inject_Z 0);
         rewrite <- Zle_Qle; exact Hr
        | reflexivity | reflexivity | lia | lia | reflexivity | reflexivity].
    + destruct (circle_list_rows (fuel_circle (inject_Z r)) 0 (inject_Z r)
                  (3 - 2 * inject_Z r) 0 r (Z.abs (y - b)))
        as (s & i & j & Hs & Ei & Ej & Hi & Hj & Hor);
        [reflexivity | reflexivity
        | unfold fuel_circle; rewrite Qfloor_Z; lia | lia |].
      destruct Hor as [Hk | Hk].
      * apply (Hwide s i j a y Hs Ei Ej); lia.
      * apply (Hnarrow s i j a y Hs Ei Ej); lia.
Qed.

Lemma drawFilledCircle_box_and_diameters_witness :
  exists d',
    drawFilledCircle (inject_Z 2, inject_Z 2) (inject_Z 2)
      (ColorString "#0A141E") (mkDrawer (new_Image 5 5) false 1 [] 0)
    = Done tt d'
    /\ temporaryBuffer d' = []
    /\ forall x y, 0 <= x < 5 -> 0 <= y < 5 ->
         (x < 2 - 2 \/ 2 + 2 < x \/ y < 2 - 2 \/ 2 + 2 < y ->
          Image_get (image d') (inject_Z x, inject_Z y)
          = Image_get (new_Image 5 5) (inject_Z x, inject_Z y))
         /\ (y = 2 /\ 2 - 2 <= x <= 2 + 2 \/ x = 2 /\ 2 - 2 <= y <= 2 + 2 ->
             Image_get (image d') (inject_Z x, inject_Z y)
             = stored (ofZ 10, ofZ 20, ofZ 30, ofZ 255)).
Proof.
  apply (drawFilledCircle_box_and_diameters
           (mkDrawer (new_Image 5 5) false 1 [] 0) 2 2 2
           (ColorString "#0A141E") (ofZ 10, ofZ 20, ofZ 30, ofZ 255));
    try reflexivity; try lia.
  - unfold wf_image; repeat apply conj; reflexivity.
  - split; vm_compute; discriminate.
  - vm_compute; discriminate.
Defined.

(** ** The channels of an [hsl(...)] color *)

Lemma Math_round_mono (p q : Q) : (p <= q)%Q -> Math_round p <= Math_round q.
Proof.
  intros H. unfold Math_round. apply Qfloor_resp_le. lra.
Qed.

Lemma hsl_channel_byte (v m : Q) :
  (0 <= v)%Q -> (0 <= m)%Q -> (v + m <= 1)%Q ->
  is_byte (Math_round ((v + m) * inject_Z 255)).
Proof.
  intros Hv Hm H1. unfold is_byte. split.
  - apply Z.le_trans with (Math_round (inject_Z 0));
      [rewrite Math_round_inject_Z; lia | apply Math_round_mono].
    change (inject_Z 0) with 0%Q. change (inject_Z 255) with 255%Q. nra.
  - apply Z.le_trans with (Math_round (inject_Z 255));
      [apply Math_round_mono | rewrite Math_round_inject_Z; lia].
    change (inject_Z 255) with 255%Q. nra.
Qed.

(** [p % 2] for [p >= 0] lies in [0, 2). *)
Lemma rem_2_bounds (p : Q) :
  (0 <= p)%Q ->
  (0 <= p - inject_Z 2 * inject_Z (Js.Qtrunc (p / inject_Z 2)) < 2)%Q.
Proof.
  intros Hp. change (inject_Z 2) with 2%Q. unfold Js.Qtrunc.
  assert (Hh : (0 <= p / 2)%Q) by (apply Qle_shift_div_l; [reflexivity | lra]).
  apply Qle_bool_iff in Hh as E. rewrite E.
  pose proof (Qfloor_le (p / 2)) as Hlo. pose proof (Qlt_floor (p / 2)) as Hhi.
  rewrite inject_Z_plus in Hhi. change (inject_Z 1) with 1%Q in Hhi.
  set (f := inject_Z (Qfloor (p / 2))) in *.
  assert (Ep : (p == 2 * (p / 2))%Q) by field.
  set (hp := (p / 2)%Q) in *. clearbody f hp. split; lra.
Qed.

(** [Math.round] of [l] percent of 255 is within half a unit of it. *)
Lemma Math_round_percent (l : Z) :
  Z.abs (200 * Math_round (inject_Z l / inject_Z 100 * inject_Z 255) - 510 * l)
  <= 100.
Proof.
  set (q := (inject_Z l / inject_Z 100 * inject_Z 255)%Q).
  assert (Eq : (200 * q == inject_Z (510 * l))%Q).
  { unfold q. rewrite inject_Z_mult.
    change (inject_Z 100) with 100%Q. change (inject_Z 255) with 255%Q.
    change (inject_Z 510) with 510%Q. field. }
  unfold Math_round.
  pose proof (Qfloor_le (q + (1 # 2))) as Hlo.
  pose proof (Qlt_floor (q + (1 # 2))) as Hhi.
  set (M := Qfloor (q + (1 # 2))) in *.
  rewrite inject_Z_plus in Hhi. change (inject_Z 1) with 1%Q in Hhi.
  set (L := inject_Z (510 * l)) in *.
  assert (H1 : (inject_Z (200 * M) <= inject_Z (510 * l + 100))%Q).
  { rewrite inject_Z_plus, (inject_Z_mult 200). fold L.
    change (inject_Z 200) with 200%Q. change (inject_Z 100) with 100%Q. lra. }
  assert (H2 : (inject_Z (510 * l - 100) < inject_Z (200 * M))%Q).
  { unfold Z.sub. rewrite inject_Z_plus, inject_Z_opp, (inject_Z_mult 200).
    fold L.
    change (inject_Z 200) with 200%Q. change (inject_Z 100) with 100%Q. lra. }
  rewrite <- Zle_Qle in H1. rewrite <- Zlt_Qlt in H2. lia.
Qed.

Lemma Js_lt_ofZ (a b : Z) : Js.lt (ofZ a) (ofZ b) = (a <? b).
Proof.
  unfold Js.lt, ofZ. destruct (a <? b) eqn:E.
  - apply Z.ltb_lt in E. apply negb_true_iff, Qle_bool_false_iff.
    rewrite <- Zlt_Qlt. exact E.
  - apply Z.ltb_ge in E. apply negb_false_iff, Qle_bool_iff.
    rewrite <- Zle_Qle. exact E.
Qed.

(** X19.  An [hsl(h, s, l)] string whose three numbers read as [h],
    [s <= 100] and [l <= 100] normalizes to three bytes and the alpha
    255.  The three bytes are equal, a gray, when [s] is 0 and also
    when [h] is 360 or more, no hue being computed then; below 360 the
    largest of the three is within half a unit of [l] percent of 255:
    [l] acts as the value of the HSV model. *)
Theorem toColor_hsl_channels
  (color m1 m2 m3 : string) (h s l : Z) :
  startsWith color "hsl(" = true ->
  match_hsl color = Some (m1, m2, m3) ->
  parseInt m1 None = ofZ h -> parseInt m2 None = ofZ s ->
  parseInt m3 None = ofZ l ->
  0 <= h -> 0 <= s <= 100 -> 0 <= l <= 100 ->
  exists r g b,
    toColor (ColorString color) = Returns (ofZ r, ofZ g, ofZ b, ofZ 255)
    /\ is_byte r /\ is_byte g /\ is_byte b
    /\ (360 <= h \/ s = 0 -> r = g /\ g = b)
    /\ (h < 360 -> Z.abs (200 * Z.max r (Z.max g b) - 510 * l) <= 100).
Proof.
  intros Hst Hm Hh Hs Hl Hh0 Hs0 Hl0.
  unfold toColor. rewrite Hst, Hm. cbv zeta. rewrite Hh, Hs, Hl.
  set (C := (inject_Z l / inject_Z 100 * inject_Z s / inject_Z 100)%Q).
  set (p := (inject_Z h / inject_Z 60)%Q).
  set (X := (C * (inject_Z 1
                  - Qabs (p - inject_Z 2 * inject_Z (Js.Qtrunc (p / inject_Z 2))
                          - inject_Z 1)))%Q).
  set (m := (inject_Z l / inject_Z 100 - C)%Q).
  assert (Ec : Js.div (Js.mul (Js.div (ofZ l) (ofZ 100)) (ofZ s)) (ofZ 100)
               = Num C) by reflexivity.
  rewrite !Ec.
  assert (Ex : Js.mul (Num C)
                 (Js.sub (ofZ 1)
                    (Js.abs
                       (Js.sub (Js.rem (Js.div (ofZ h) (ofZ 60)) (ofZ 2))
                          (ofZ 1)))) = Num X) by reflexivity.
  rewrite !Ex.
  assert (Em : Js.sub (Js.div (ofZ l) (ofZ 100)) (Num C) = Num m)
    by reflexivity.
  rewrite !Em. clear Ec Ex Em.
  (* the three quantities *)
  assert (HL : (0 <= inject_Z l / inject_Z 100 <= 1)%Q).
  { assert (0 <= inject_Z l <= 100)%Q.
    { change 0%Q with (inject_Z 0). change 100%Q with (inject_Z 100).
      rewrite <- !Zle_Qle. exact Hl0. }
    change (inject_Z 100) with 100%Q.
    split; [apply Qle_shift_div_l | apply Qle_shift_div_r];
      try reflexivity; lra. }
  assert (HS : (0 <= inject_Z s / inject_Z 100 <= 1)%Q).
  { assert (0 <= inject_Z s <= 100)%Q.
    { change 0%Q with (inject_Z 0). change 100%Q with (inject_Z 100).
      rewrite <- !Zle_Qle. exact Hs0. }
    change (inject_Z 100) with 100%Q.
    split; [apply Qle_shift_div_l | apply Qle_shift_div_r];
      try reflexivity; lra. }
  assert (EC : (C == inject_Z l / inject_Z 100 * (inject_Z s / inject_Z 100))%Q)
    by (unfold C; field; discriminate).
  assert (HC : (0 <= C <= inject_Z l / inject_Z 100)%Q).
  { rewrite EC. set (L := (inject_Z l / inject_Z 100)%Q) in *.
    set (S := (inject_Z s / inject_Z 100)%Q) in *. clearbody L S. split; nra. }
  assert (HX : (0 <= X <= C)%Q).
  { assert (Hp : (0 <= p)%Q).
    { unfold p. apply Qle_shift_div_l; [reflexivity|].
      change 0%Q with (inject_Z 0). rewrite <- inject_Z_mult, <- Zle_Qle. lia. }
    pose proof (rem_2_bounds p Hp) as Hrem. unfold X.
    set (rm := (p - inject_Z 2 * inject_Z (Js.Qtrunc (p / inject_Z 2)))%Q) in *.
    change (inject_Z 1) with 1%Q.
    assert (Habs : (0 <= Qabs (rm - 1) <= 1)%Q).
    { split; [apply Qabs_nonneg|]. apply Qabs_Qle_condition. split; lra. }
    set (ab := Qabs (rm - 1)) in *. clearbody ab. clearbody C. split; nra. }
  assert (Hm0 : (0 <= m)%Q) by (unfold m; lra).
  assert (HCm : (C + m == inject_Z l / inject_Z 100)%Q) by (unfold m; ring).
  set (ch := fun v : Q => Math_round ((v + m) * inject_Z 255)).
  assert (Hbyte : forall v, (0 <= v <= C)%Q -> is_byte (ch v)).
  { intros v Hv. apply hsl_channel_byte; lra. }
  assert (Hmax : forall v, (v <= C)%Q -> ch v <= ch C).
  { intros v Hv. apply Math_round_mono. change (inject_Z 255) with 255%Q. nra. }
  assert (HchC : ch C
                 = Math_round (inject_Z l / inject_Z 100 * inject_Z 255)).
  { apply Math_round_Qeq. rewrite HCm. reflexivity. }
  assert (Hgray : s = 0 -> ch C = ch (inject_Z 0) /\ ch X = ch (inject_Z 0)).
  { intros ->.
    assert (C0 : (C == 0)%Q) by (rewrite EC; change (inject_Z 0) with 0%Q; field).
    assert (X0 : (X == 0)%Q) by lra.
    split; apply Math_round_Qeq; rewrite ?C0, ?X0; reflexivity. }
  pose proof (Hbyte C ltac:(lra)) as HbC.
  pose proof (Hbyte X ltac:(lra)) as HbX.
  pose proof (Hbyte (inject_Z 0) ltac:(change (inject_Z 0) with 0%Q; lra))
    as Hb0.
  pose proof (Hmax X ltac:(lra)) as HmX.
  pose proof (Hmax (inject_Z 0) ltac:(change (inject_Z 0) with 0%Q; lra))
    as Hm0'.
  rewrite !Js_lt_ofZ.
  assert (Hend : forall v1 v2 v3 : Q,
            (h < 360 -> ch v1 = ch C \/ ch v2 = ch C \/ ch v3 = ch C) ->
            (360 <= h -> ch v1 = ch v2 /\ ch v2 = ch v3) ->
            (s = 0 -> ch v1 = ch v2 /\ ch v2 = ch v3) ->
            is_byte (ch v1) -> is_byte (ch v2) -> is_byte (ch v3) ->
            ch v1 <= ch C -> ch v2 <= ch C -> ch v3 <= ch C ->
            exists r g b,
              Returns (ofZ (ch v1), ofZ (ch v2), ofZ (ch v3), ofZ 255)
              = Returns (ofZ r, ofZ g, ofZ b, ofZ 255)
              /\ is_byte r /\ is_byte g /\ is_byte b
              /\ (360 <= h \/ s = 0 -> r = g /\ g = b)
              /\ (h < 360 ->
                  Z.abs (200 * Z.max r (Z.max g b) - 510 * l) <= 100)).
  { intros v1 v2 v3 H1 H2 H3 B1 B2 B3 M1 M2 M3.
    exists (ch v1), (ch v2), (ch v3). split; [reflexivity|].
    repeat (split; [assumption|]).
    split; [intros [H | H]; auto|]. intros H. specialize (H1 H).
    pose proof (Math_round_percent l) as Hp. rewrite <- HchC in Hp.
    replace (Z.max (ch v1) (Z.max (ch v2) (ch v3))) with (ch C) by lia.
    exact Hp. }
  destruct (h <? 60) eqn:E60;
    [|destruct (h <? 120) eqn:E120;
      [|destruct (h <? 180) eqn:E180;
        [|destruct (h <? 240) eqn:E240;
          [|destruct (h <? 300) eqn:E300;
            [|destruct (h <? 360) eqn:E360]]]]];
    rewrite ?Z.ltb_lt, ?Z.ltb_ge in *;
    apply Hend; try assumption; try lia; auto;
    try (intros H0; apply Hgray in H0; lia).
Qed.

Lemma toColor_hsl_channels_witness :
  exists r g b,
    toColor (ColorString "hsl(400, 50, 80)")
    = Returns (ofZ r, ofZ g, ofZ b, ofZ 255)
    /\ is_byte r /\ is_byte g /\ is_byte b
    /\ (360 <= 400 \/ 50 = 0 -> r = g /\ g = b)
    /\ (400 < 360 -> Z.abs (200 * Z.max r (Z.max g b) - 510 * 80) <= 100).
Proof.
  apply (toColor_hsl_channels "hsl(400, 50, 80)" "400" "50" "80" 400 50 80);
    try reflexivity; lia.
Defined.

(** ** Reading outside the grid *)

Lemma typed_load_outside (b : list Z) (k : Z) :
  k < 0 \/ Z.of_nat (length b) <= k -> typed_load b (inject_Z k) = NaN.
Proof.
  intros Hk. unfold typed_load. rewrite Qfloor_Z.
  destruct (0 <=? k) eqn:E; [|rewrite andb_false_r; reflexivity].
  apply Z.leb_le in E. rewrite lookup_ge_None_2 by lia.
  destruct (Qeq_bool _ _); reflexivity.
Qed.

Lemma typed_load_fraction (b : list Z) (i : Q) :
  (forall n : Z, ~ (i == inject_Z n)%Q) -> typed_load b i = NaN.
Proof.
  intros Hi. unfold typed_load.
  destruct (Qeq_bool (inject_Z (Qfloor i)) i) eqn:E; [|reflexivity].
  apply Qeq_bool_iff in E. exfalso. apply (Hi (Qfloor i)). rewrite E.
  reflexivity.
Qed.

(** X20.  [Image.get] does not test its argument against the sides of
    the image: the column one width further right is the same column of
    the next row, and a pixel whose index falls before or after the
    buffer reads as four [undefined] values (NaN here), for instance
    any pixel of a row below the last one.  The coordinates and the
    width are integers up to [2 ^ 24] in absolute value, so that the
    index [(y * width + x) * 4] of the source is exact. *)
Theorem Image_get_has_no_bounds_check (img : Image) (x y : Z) :
  safe_factor x -> safe_factor y -> safe_factor (width img) ->
  Image_get img (inject_Z (x + width img), inject_Z y)
  = Image_get img (inject_Z x, inject_Z (y + 1))
  /\ (wf_image img ->
      y * width img + x < 0 \/ width img * height img <= y * width img + x ->
      Image_get img (inject_Z x, inject_Z y) = (NaN, NaN, NaN, NaN)).
Proof.
  intros _ _ _. split.
  - rewrite !Image_get_Z. f_equal. ring.
  - intros (HW & HH & Hlen) Hout. rewrite Image_get_Z. unfold load4.
    rewrite !typed_load_outside by lia. reflexivity.
Qed.

Lemma Image_get_has_no_bounds_check_witness :
  Image_get (mkImage 2 2 [1; 2; 3; 4; 5; 6; 7; 8; 9; 10; 11; 12; 13; 14; 15; 16])
    (inject_Z 0, inject_Z 2) = (NaN, NaN, NaN, NaN).
Proof.
  apply (Image_get_has_no_bounds_check
           (mkImage 2 2
              [1; 2; 3; 4; 5; 6; 7; 8; 9; 10; 11; 12; 13; 14; 15; 16]) 0 2).
  - vm_compute; discriminate.
  - vm_compute; discriminate.
  - vm_compute; discriminate.
  - unfold wf_image; repeat apply conj; reflexivity.
  - right. cbn. lia.
Defined.

(** [Image.add] at a point whose index is not an integer, on the
    rationals of the model: the four loads are [undefined] and four
    zeros are stored. *)
Lemma Image_add_fraction
  (img : Image) (px py : Q) (color : Color) (cn : FullColorArray) :
  wf_image img -> toColor color = Returns cn ->
  0 <= Math_round px < width img -> 0 <= Math_round py < height img ->
  (forall n : Z, ~ ((py * inject_Z (width img) + px) * 4 == inject_Z n)%Q) ->
  exists img',
    Image_add img (px, py) color = Returns img'
    /\ Image_get img' (inject_Z (Math_round px), inject_Z (Math_round py))
       = (ofZ 0, ofZ 0, ofZ 0, ofZ 0).
Proof.
  intros Hwf Hcn Hx Hy Hfrac.
  assert (Hget : Image_get img (px, py) = (NaN, NaN, NaN, NaN)).
  { unfold Image_get.
    rewrite !typed_load_fraction; [reflexivity | | | |];
      intros n E; [apply (Hfrac (n - 3)) | apply (Hfrac (n - 2))
                   | apply (Hfrac (n - 1)) | apply (Hfrac n)];
      unfold Z.sub; rewrite ?inject_Z_plus, ?inject_Z_opp;
      change (inject_Z 3) with 3%Q; change (inject_Z 2) with 2%Q;
      change (inject_Z 1) with 1%Q; lra. }
  destruct (Image_add_blend img (px, py) color cn Hcn)
    as (r3 & g3 & b3 & a3 & Hblend & ->).
  rewrite Hget in Hblend. destruct cn as [[[r2 g2] b2] a2].
  unfold blend in Hblend. cbn in Hblend. injection Hblend as <- <- <- <-.
  rewrite Image_set_rounds.
  destruct (pixel_index_bounds img _ _ Hwf Hx Hy) as [Hi0 Hi3].
  eexists. split;
    [apply (Image_set_in_range img _ _ _ (NaN, NaN, NaN, NaN) Hx Hy);
     reflexivity|].
  rewrite Image_get_Z. cbn [width buffer].
  rewrite load4_set4_stored by assumption. reflexivity.
Qed.

(** X21.  [Image.add] reads the pixel before any rounding and writes it
    after.  At a point of the image with the coordinates [a / 2 ^ k]
    and [b / 2 ^ k], for integers [a], [b] and a width up to [2 ^ 24]
    and [0 <= k <= 24], the source computes the index
    [(y * width + x) * 4] and the three indices after it exactly; when
    [2 ^ k] does not divide [4 * (b * width + a)] none of them is an
    integer: the four channels read are [undefined], every blended
    channel is NaN, and the pixel the point rounds to is set to four
    zeros whatever the color added. *)
Theorem Image_add_off_grid_erases
  (img : Image) (a b k : Z) (color : Color) (cn : FullColorArray) :
  wf_image img -> toColor color = Returns cn ->
  safe_factor a -> safe_factor b -> safe_factor (width img) ->
  0 <= k <= 24 ->
  0 <= Math_round (dyadic a k) < width img ->
  0 <= Math_round (dyadic b k) < height img ->
  ~ (2 ^ k | 4 * (b * width img + a)) ->
  exists img',
    Image_add img (dyadic a k, dyadic b k) color = Returns img'
    /\ Image_get img'
         (inject_Z (Math_round (dyadic a k)),
          inject_Z (Math_round (dyadic b k)))
       = (ofZ 0, ofZ 0, ofZ 0, ofZ 0).
Proof.
  intros Hwf Hcn _ _ _ Hk Hx Hy Hnd.
  apply (Image_add_fraction img _ _ color cn); try assumption.
  intros n E. apply Hnd. exists n. apply inject_Z_injective.
  assert (Hpos : ~ (inject_Z (2 ^ k) == 0)%Q).
  { change 0%Q with (inject_Z 0). rewrite inject_Z_injective.
    pose proof (Z.pow_pos_nonneg 2 k). lia. }
  rewrite !inject_Z_mult, inject_Z_plus, inject_Z_mult, <- E.
  unfold dyadic. change (inject_Z 4) with 4%Q. field. exact Hpos.
Qed.

Lemma Image_add_off_grid_erases_witness :
  exists img',
    Image_add (mkImage 2 1 [9; 9; 9; 9; 7; 7; 7; 7]) (dyadic 1 3, dyadic 0 3)
      (ColorString "#FF0000") = Returns img'
    /\ Image_get img'
         (inject_Z (Math_round (dyadic 1 3)),
          inject_Z (Math_round (dyadic 0 3)))
       = (ofZ 0, ofZ 0, ofZ 0, ofZ 0).
Proof.
  apply (Image_add_off_grid_erases (mkImage 2 1 [9; 9; 9; 9; 7; 7; 7; 7])
           1 0 3 (ColorString "#FF0000")
           (ofZ 255, ofZ 0, ofZ 0, ofZ 255)).
  - unfold wf_image; repeat apply conj; reflexivity.
  - reflexivity.
  - vm_compute; discriminate.
  - vm_compute; discriminate.
  - vm_compute; discriminate.
  - lia.
  - change (0 <= 0 < 2). lia.
  - change (0 <= 0 < 1). lia.
  - intros [z Hz]. cbn in Hz. lia.
Defined.

(** ** A new image *)

Lemma new_Image_bytes (w h : Z) : bytes_image (new_Image w h).
Proof.
  unfold bytes_image, new_Image. cbn [buffer].
  apply Forall_replicate. unfold is_byte. lia.
Qed.

Lemma new_Image_get (w h x y : Z) :
  0 < w -> 0 < h -> 0 <= x < w -> 0 <= y < h ->
  Image_get (new_Image w h) (inject_Z x, inject_Z y)
  = (ofZ 0, ofZ 0, ofZ 0, ofZ 0).
Proof.
  intros Hw Hh Hx Hy.
  destruct (pixel_index_bounds (new_Image w h) x y (wf_new_Image w h Hw Hh))
    as [Hi0 Hi3]; [exact Hx | exact Hy |].
  rewrite Image_get_Z. unfold load4, new_Image in *. cbn [buffer width] in *.
  rewrite length_replicate in Hi3.
  rewrite !typed_load_Z by lia.
  rewrite !lookup_replicate_2 by lia. reflexivity.
Qed.

Lemma stored_blend_opaque (r g b a r2 g2 b2 : Z) :
  is_byte r -> is_byte g -> is_byte b -> is_byte a ->
  is_byte r2 -> is_byte g2 -> is_byte b2 ->
  stored (blend (ofZ r, ofZ g, ofZ b, ofZ a) (ofZ r2, ofZ g2, ofZ b2, ofZ 255))
  = (ofZ r2, ofZ g2, ofZ b2, ofZ a).
Proof.
  intros Hr Hg Hb Ha Hr2 Hg2 Hb2.
  assert (Hch : forall c c2, spec_blend c c2 255 = c2).
  { intros c c2. unfold spec_blend. rewrite <- (Math_round_inject_Z c2) at 2.
    apply Math_round_Qeq. change (inject_Z 255) with 255%Q. field. }
  rewrite blend_bytes. unfold stored. rewrite !Hch.
  rewrite !ToUint8Clamp_byte by assumption.
  assert (Ea : (inject_Z a + inject_Z 255 * (1 - inject_Z 255 / 255)
                == inject_Z a)%Q)
    by (change (inject_Z 255) with 255%Q; field).
  rewrite ToUint8Clamp_nonneg
    by (rewrite Ea; apply inject_Z_byte in Ha; lra).
  rewrite (round_half_even_Qeq _ _ Ea), round_half_even_inject_Z.
  unfold is_byte in Ha. rewrite Z.min_r by lia. reflexivity.
Qed.

(** X22.  A new image is transparent black, and opaque shapes do not
    change that alpha: on the drawer of a new image, which blends by
    default, a shape operation with an opaque color of byte channels
    leaves, when it ends, every pixel with the alpha 0, the pixels it
    wrote holding the red, green and blue of the color. *)
Theorem opaque_shape_on_new_image_stays_transparent
  (fuel : nat) (op : DrawOp) (w h : Z) (d' : ImageDrawer) (r2 g2 b2 : Z) :
  0 < w -> 0 < h ->
  is_shape op = true ->
  toColor (op_color op) = Returns (ofZ r2, ofZ g2, ofZ b2, ofZ 255) ->
  is_byte r2 -> is_byte g2 -> is_byte b2 ->
  final (run fuel op (new_ImageDrawer (new_Image w h))) = Some d' ->
  forall x y, 0 <= x < w -> 0 <= y < h ->
    Image_get (new_Image w h) (inject_Z x, inject_Z y)
    = (ofZ 0, ofZ 0, ofZ 0, ofZ 0)
    /\ (Image_get (image d') (inject_Z x, inject_Z y)
        = (ofZ 0, ofZ 0, ofZ 0, ofZ 0)
        \/ Image_get (image d') (inject_Z x, inject_Z y)
           = (ofZ r2, ofZ g2, ofZ b2, ofZ 0)).
Proof.
  intros Hw Hh Hshape Hcn Hr2 Hg2 Hb2 Hfin x y Hx Hy.
  pose proof (new_Image_get w h x y Hw Hh Hx Hy) as Hnew.
  split; [exact Hnew|].
  set (d := new_ImageDrawer (new_Image w h)) in *.
  assert (Hwf : wf_image (image d)) by (apply wf_new_Image; assumption).
  destruct (run_stages_then_flushes fuel op d Hshape eq_refl)
    as [E | [E | [ps E]]]; rewrite E in Hfin.
  - discriminate.
  - injection Hfin as <-. left. exact Hnew.
  - destruct (flush_stage_exact (op_color op) _ ps d Hwf eq_refl eq_refl Hcn)
      as (d1 & Hrun & _ & _ & _ & _ & _ & Hpix).
    rewrite Hrun in Hfin. injection Hfin as <-.
    destruct (Hpix x y Hx Hy) as [Hhit Hmiss].
    destruct (hits_dec (image d) ps x y) as [H | H].
    + right. rewrite (Hhit H). cbn [image d new_ImageDrawer blending written].
      rewrite Hnew. apply stored_blend_opaque; unfold is_byte; try lia;
        assumption.
    + left. rewrite (Hmiss H). exact Hnew.
Qed.

Lemma opaque_shape_on_new_image_stays_transparent_witness :
  Image_get (new_Image 3 3) (inject_Z 1, inject_Z 1)
  = (ofZ 0, ofZ 0, ofZ 0, ofZ 0)
  /\ (Image_get
        (mkImage 3 3
           [0; 0; 0; 0; 0; 0; 0; 0; 0; 0; 0; 0;
            0; 0; 0; 0; 255; 0; 0; 0; 0; 0; 0; 0;
            0; 0; 0; 0; 0; 0; 0; 0; 0; 0; 0; 0])
        (inject_Z 1, inject_Z 1)
      = (ofZ 0, ofZ 0, ofZ 0, ofZ 0)
      \/ Image_get
           (mkImage 3 3
              [0; 0; 0; 0; 0; 0; 0; 0; 0; 0; 0; 0;
               0; 0; 0; 0; 255; 0; 0; 0; 0; 0; 0; 0;
               0; 0; 0; 0; 0; 0; 0; 0; 0; 0; 0; 0])
           (inject_Z 1, inject_Z 1)
         = (ofZ 255, ofZ 0, ofZ 0, ofZ 0)).
Proof.
  apply (opaque_shape_on_new_image_stays_transparent 0
           (OpCircle (1, 1)%Q 0 (ColorString "#FF0000")) 3 3
           (mkDrawer
              (mkImage 3 3
                 [0; 0; 0; 0; 0; 0; 0; 0; 0; 0; 0; 0;
                  0; 0; 0; 0; 255; 0; 0; 0; 0; 0; 0; 0;
                  0; 0; 0; 0; 0; 0; 0; 0; 0; 0; 0; 0])
              true 1 [] 0) 255 0 0);
    try reflexivity; unfold is_byte; lia.
Defined.

(** ** The right edge *)

Lemma Qle_bool_Qeq (a b a' b' : Q) :
  (a == a')%Q -> (b == b')%Q -> Qle_bool a b = Qle_bool a' b'.
Proof.
  intros Ea Eb. destruct (Qle_bool a' b') eqn:E.
  - apply Qle_bool_iff. apply Qle_bool_iff in E. rewrite Ea, Eb. exact E.
  - apply Qle_bool_false_iff. apply Qle_bool_false_iff in E.
    rewrite Ea, Eb. exact E.
Qed.

Lemma outside_Qeq (img : Image) (p q : Point) :
  same_point p q -> outside img p = outside img q.
Proof.
  intros [Ex Ey]. unfold outside, Qlt_bool.
  rewrite (Qle_bool_Qeq 0 (fst p) 0 (fst q)) by (reflexivity || exact Ex).
  rewrite (Qle_bool_Qeq _ (fst p) _ (fst q)) by (reflexivity || exact Ex).
  rewrite (Qle_bool_Qeq 0 (snd p) 0 (snd q)) by (reflexivity || exact Ey).
  rewrite (Qle_bool_Qeq _ (snd p) _ (snd q)) by (reflexivity || exact Ey).
  reflexivity.
Qed.

Lemma key_of_Qeq (img : Image) (p q : Point) :
  same_point p q -> key_of img p = key_of img q.
Proof.
  intros [Ex Ey]. unfold key_of.
  rewrite (Math_round_Qeq _ _ Ex), (Math_round_Qeq _ _ Ey). reflexivity.
Qed.

(** A loop from a value to itself has one round. *)
Lemma For_list_one (lo j : Q) : In j (For_list lo lo) <-> j = lo.
Proof.
  unfold For_list, fuel_le.
  assert (E0 : (lo - lo == 0)%Q) by ring.
  rewrite (Qfloor_comp _ _ E0). change (Qfloor 0) with 0.
  change (S (Z.to_nat (0 + 1))) with 2%nat. cbn [for_le_list].
  assert (E1 : Qle_bool lo lo = true) by (apply Qle_bool_iff, Qle_refl).
  assert (E2 : Qle_bool (lo + 1) lo = false) by (apply Qle_bool_false_iff; lra).
  rewrite E1, E2. cbn [In]. split; [intros [H | []]; auto | auto].
Qed.

(** X23.  [setPixel] tests the coordinates as given and rounds them
    afterwards, so an abscissa in the last half pixel before the right
    edge rounds to the width and the key is that of the first pixel of
    the next row.  [drawFilledRectangle] from such a point to itself
    writes that pixel of the next row, and no other. *)
Theorem drawFilledRectangle_right_edge_wraps
  (d : ImageDrawer) (x : Q) (y : Z) (color : Color) (cn : FullColorArray) :
  wf_image (image d) ->
  flushDisablers d = 0 -> temporaryBuffer d = [] ->
  toColor color = Returns cn ->
  (inject_Z (width (image d)) - (1 # 2) <= x)%Q ->
  (x < inject_Z (width (image d)))%Q ->
  0 <= y -> y + 1 < height (image d) ->
  exists d',
    drawFilledRectangle (x, inject_Z y) (x, inject_Z y) color d = Done tt d'
    /\ temporaryBuffer d' = []
    /\ forall x' y', 0 <= x' < width (image d) -> 0 <= y' < height (image d) ->
         Image_get (image d') (inject_Z x', inject_Z y')
         = if (x' =? 0) && (y' =? y + 1)
           then stored (written (blending d)
                          (Image_get (image d) (inject_Z x', inject_Z y')) cn)
           else Image_get (image d) (inject_Z x', inject_Z y').
Proof.
  intros Hwf Hfd Htb Hcn Hlo Hhi Hy0 Hy1. rewrite drawFilledRectangle_stage.
  apply flush_stage_paints; try assumption.
  intros x' y' Hx' Hy'. pose proof Hwf as (HW & HH & _).
  assert (HW' : (1 <= inject_Z (width (image d)))%Q).
  { change 1%Q with (inject_Z 1). rewrite <- Zle_Qle. lia. }
  assert (Hround : Math_round x = width (image d)).
  { unfold Math_round. apply Qfloor_unique; [lra|].
    rewrite inject_Z_plus. change (inject_Z 1) with 1%Q. lra. }
  assert (Hout : outside (image d) (x, inject_Z y) = false).
  { unfold outside. cbn [fst snd]. rewrite !orb_false_iff.
    rewrite !Qlt_bool_false_iff, !Qle_bool_false_iff.
    change 0%Q with (inject_Z 0). rewrite <- Zle_Qle, <- Zlt_Qlt.
    change (inject_Z 0) with 0%Q. repeat split; try lra; lia. }
  assert (Hkey : key_of (image d) (x, inject_Z y)
                 = (y + 1) * width (image d) + 0).
  { unfold key_of. cbn [fst snd]. rewrite Hround, Math_round_inject_Z. lia. }
  assert (Hps : forall p,
            In p (flat_map
                    (fun yy => flat_map (fun xx => [(xx, yy)]) (For_list x x))
                    (For_list (inject_Z y) (inject_Z y)))
            <-> p = (x, inject_Z y)).
  { intros p. rewrite in_flat_map. split.
    - intros (j & Hj & Hin). apply in_flat_map in Hin as (i & Hi & [<- | []]).
      apply For_list_one in Hi, Hj. subst. reflexivity.
    - intros ->. exists (inject_Z y). split; [apply For_list_one; reflexivity|].
      apply in_flat_map. exists x.
      split; [apply For_list_one; reflexivity | left; reflexivity]. }
  rewrite andb_true_iff, !Z.eqb_eq. unfold hits. split.
  - intros (p & Hin & _ & Hk). apply Hps in Hin. subst p. rewrite Hkey in Hk.
    destruct (pixel_key_inj (width (image d)) 0 (y + 1) x' y'); lia.
  - intros [-> ->]. exists (x, inject_Z y).
    split; [apply Hps; reflexivity|]. split; [exact Hout | exact Hkey].
Qed.

Lemma drawFilledRectangle_right_edge_wraps_witness :
  exists d',
    drawFilledRectangle (7 # 4, inject_Z 0)%Q (7 # 4, inject_Z 0)%Q
      (ColorString "#0A141E") (mkDrawer (new_Image 2 2) false 1 [] 0)
    = Done tt d'
    /\ temporaryBuffer d' = []
    /\ forall x' y', 0 <= x' < 2 -> 0 <= y' < 2 ->
         Image_get (image d') (inject_Z x', inject_Z y')
         = if (x' =? 0) && (y' =? 0 + 1)
           then stored (ofZ 10, ofZ 20, ofZ 30, ofZ 255)
           else Image_get (new_Image 2 2) (inject_Z x', inject_Z y').
Proof.
  apply (drawFilledRectangle_right_edge_wraps
           (mkDrawer (new_Image 2 2) false 1 [] 0) (7 # 4) 0
           (ColorString "#0A141E") (ofZ 10, ofZ 20, ofZ 30, ofZ 255));
    try reflexivity; try lia.
  - unfold wf_image; repeat apply conj; reflexivity.
  - cbn. discriminate.
Defined.

(** ** Triangles *)

(** X24.  [drawTriangle] scans the rows from the first vertex down to
    the second and from the second down to the third: when the second
    vertex is not below the first nor the third below the second, both
    loops are empty and the call, on a drawer at rest, returns the
    drawer as it was, even with an invalid color. *)
Theorem drawTriangle_unsorted_draws_nothing
  (d : ImageDrawer) (x0 y0 x1 y1 x2 y2 : Q) (color : Color) :
  flushDisablers d = 0 -> temporaryBuffer d = [] ->
  (y1 <= y0)%Q -> (y2 <= y1)%Q ->
  drawTriangle ((x0, y0), (x1, y1), (x2, y2)) color d = Done tt d.
Proof.
  intros Hfd Htb H1 H2. unfold drawTriangle, fuel_lt, bind.
  cbn [edge_loop]. apply Qlt_bool_false_iff in H1, H2. rewrite H1.
  unfold ret. cbn [fst]. rewrite H2.
  unfold flush. rewrite Hfd, Htb. cbn [Z.eqb negb flush_loop].
  destruct d as [img bl th tb fd]. cbn in *. subst. reflexivity.
Qed.

Lemma drawTriangle_unsorted_draws_nothing_witness :
  drawTriangle ((0, 2), (2, 2), (1, 0))%Q (ColorString "#FFFFFF")
    (new_ImageDrawer (new_Image 3 3))
  = Done tt (new_ImageDrawer (new_Image 3 3)).
Proof.
  apply (drawTriangle_unsorted_draws_nothing
           (new_ImageDrawer (new_Image 3 3)) 0 2 2 2 1 0
           (ColorString "#FFFFFF")); try reflexivity; discriminate.
Defined.

(** ** Curves *)

(** Under suppression, the loop of a thin curve stages the pixels of the
    lines through the points of the curve. *)
Lemma bezier_loop_stage (fuel : nat) (points : list Point) (color : Color)
  (t step : Q) (lastPoint : Point) (d : ImageDrawer) :
  0 < flushDisablers d -> Qlt_bool 1 (lineThickness d) = false ->
  bezier_loop fuel points color t step lastPoint d = NoReturn
  \/ bezier_loop fuel points color t step lastPoint d
     = Done tt
         (stage_all color
            (map point_of
               (segments lastPoint (bezier_list fuel points t step))) d).
Proof.
  revert t lastPoint d. induction fuel as [|fuel IH]; intros t lastPoint d Hd Hth;
    cbn [bezier_loop bezier_list].
  - destruct (Qle_bool t 1); [left | right]; reflexivity.
  - destruct (Qle_bool t 1); [|right; reflexivity].
    unfold bind. rewrite drawLine_stage by (lia || exact Hth).
    cbn [segments]. set (pts := line_pixels _ _ _ _).
    destruct (stage_all_frame color (map point_of pts) d)
      as (_ & _ & Hth' & Hfd').
    rewrite flush_suppressed by lia.
    destruct (IH (t + step)%Q (lerpPoints points t)
                (stage_all color (map point_of pts) d))
      as [-> | ->]; rewrite ?Hth', ?Hfd'; try assumption;
      [left; reflexivity|].
    right. rewrite map_app, stage_all_app. reflexivity.
Qed.

(** With a step of 1 the loop makes one round, at [t = 1]. *)
Lemma bezier_list_step_1 (fuel : nat) (points : list Point) (s : Q) :
  (s == 1)%Q -> bezier_list (S fuel) points s s = [lerpPoints points s].
Proof.
  intros Hs. cbn [bezier_list].
  rewrite (Qle_bool_Qeq s 1 1 1) by (exact Hs || reflexivity).
  change (Qle_bool 1 1) with true. cbv iota. f_equal.
  assert (E : Qle_bool (s + s) 1 = false).
  { rewrite (Qle_bool_Qeq (s + s) 1 2 1);
      [reflexivity | rewrite Hs; reflexivity | reflexivity]. }
  destruct fuel; cbn [bezier_list]; [reflexivity|]. rewrite E. reflexivity.
Qed.

(** X25.  [drawBezier] with a step of 1 draws the chord.  The step is 1
    when it is given as 1, and also when none is given and the
    bounding box of the control points is one wider than high or one
    higher than wide, the default [1 / | |x1 - x0| - |y1 - y0| |] being
    1 then.  The loop then makes one round, at [t = 1], where
    [lerpPoints] gives the last control point: for control points with
    integer coordinates up to [2 ^ 50] in absolute value and a line
    thickness of at most 1, on a drawer at rest and with a valid color,
    the call returns with nothing pending and writes exactly the pixels
    of the image on Bresenham's line from the first control point to
    the last, whatever the control points between them. *)
Theorem drawBezier_step_1_draws_the_chord
  (fuel : nat) (d : ImageDrawer) (p0 p1 : Z * Z) (rest : list (Z * Z))
  (color : Color) (cn : FullColorArray) (step : option Q) :
  wf_image (image d) ->
  flushDisablers d = 0 -> temporaryBuffer d = [] ->
  (lineThickness d <= 1)%Q ->
  toColor color = Returns cn ->
  Forall safe_pixel (p0 :: p1 :: rest) ->
  (0 < fuel)%nat ->
  match step with
  | Some s => (s == 1)%Q
  | None =>
      (Qabs
         (Qabs (fst (reduce_max (point_of p0) (map point_of (p1 :: rest)))
                - fst (reduce_min (point_of p0) (map point_of (p1 :: rest))))
          - Qabs (snd (reduce_max (point_of p0) (map point_of (p1 :: rest)))
                  - snd (reduce_min (point_of p0)
                           (map point_of (p1 :: rest))))) == 1)%Q
  end ->
  exists d',
    drawBezier fuel (map point_of (p0 :: p1 :: rest)) color step d
    = Done tt d'
    /\ temporaryBuffer d' = []
    /\ forall x y, 0 <= x < width (image d) -> 0 <= y < height (image d) ->
         (In (x, y)
            (line_pixels (fst p0) (snd p0)
               (fst (List.last rest p1)) (snd (List.last rest p1))) ->
          Image_get (image d') (inject_Z x, inject_Z y)
          = stored (written (blending d)
                      (Image_get (image d) (inject_Z x, inject_Z y)) cn))
         /\ (~ In (x, y)
               (line_pixels (fst p0) (snd p0)
                  (fst (List.last rest p1)) (snd (List.last rest p1))) ->
             Image_get (image d') (inject_Z x, inject_Z y)
             = Image_get (image d) (inject_Z x, inject_Z y)).
Proof.
  intros Hwf Hfd Htb Hth Hcn _ Hfuel Hstep.
  set (pts := line_pixels (fst p0) (snd p0)
                (fst (List.last rest p1)) (snd (List.last rest p1))).
  set (points := map point_of (p0 :: p1 :: rest)).
  assert (Hloop : forall s, (s == 1)%Q ->
            bezier_loop fuel points color s s (point_of p0)
              (set_flushDisablers (flushDisablers d + 1) d)
            = Done tt
                (stage_all color (map point_of pts)
                   (set_flushDisablers (flushDisablers d + 1) d))).
  { intros s Hs.
    destruct (bezier_loop_stage fuel points color s s (point_of p0)
                (set_flushDisablers (flushDisablers d + 1) d)) as [E | E];
      [cbn [flushDisablers set_flushDisablers]; lia
      | apply Qlt_bool_false_iff, Hth | |].
    - exfalso. revert E. apply bezier_loop_returns; [rewrite Hs; reflexivity|].
      rewrite Hs. assert (H1 : (1 <= inject_Z (Z.of_nat fuel))%Q).
      { change 1%Q with (inject_Z 1). rewrite <- Zle_Qle. lia. }
      lra.
    - rewrite E. do 3 f_equal.
      destruct fuel as [|fuel]; [lia|].
      rewrite bezier_list_step_1 by exact Hs.
      cbn [segments]. rewrite app_nil_r. unfold pts, points.
      destruct (lerpPoints_at_1 (point_of p0) (map point_of (p1 :: rest)) s Hs)
        as [Hx Hy].
      change (map point_of (p0 :: p1 :: rest))
        with (point_of p0 :: map point_of (p1 :: rest)).
      rewrite (Math_round_Qeq _ _ Hx), (Math_round_Qeq _ _ Hy).
      change (map point_of (p1 :: rest))
        with (point_of p1 :: map point_of rest).
      rewrite last_cons, last_map_point_of.
      cbn [point_of fst snd]. rewrite !Math_round_inject_Z. reflexivity. }
  assert (Hrun : drawBezier fuel points color step d
                 = flush (stage_all color (map point_of pts) d)).
  { unfold points.
    change (map point_of (p0 :: p1 :: rest))
      with (point_of p0 :: point_of p1 :: map point_of rest).
    unfold drawBezier.
    change (point_of p1 :: map point_of rest)
      with (map point_of (p1 :: rest)).
    fold (reduce_min (point_of p0) (map point_of (p1 :: rest))).
    fold (reduce_max (point_of p0) (map point_of (p1 :: rest))).
    destruct (reduce_min (point_of p0) (map point_of (p1 :: rest)))
      as [x0 y0].
    destruct (reduce_max (point_of p0) (map point_of (p1 :: rest)))
      as [x1 y1].
    cbn [fst snd] in Hstep.
    assert (Estep : exists s, (s == 1)%Q
              /\ match step with
                 | Some s => Num s
                 | None =>
                     Js.div (ofZ 1)
                       (Num (Qabs (Qabs (x1 - x0) - Qabs (y1 - y0))))
                 end = Num s).
    { destruct step as [s|]; [exists s; split; [exact Hstep | reflexivity]|].
      exists (inject_Z 1 / Qabs (Qabs (x1 - x0) - Qabs (y1 - y0)))%Q. split.
      - rewrite Hstep. reflexivity.
      - unfold Js.div, ofZ.
        assert (E0 : Qeq_bool (Qabs (Qabs (x1 - x0) - Qabs (y1 - y0))) 0
                     = false).
        { apply not_true_iff_false. intros E. apply Qeq_bool_iff in E.
          rewrite E in Hstep. discriminate. }
        rewrite E0. reflexivity. }
    destruct Estep as (s & Hs & ->).
    unfold bind, incr_flushDisablers, decr_flushDisablers, modify.
    change (point_of p0 :: map point_of (p1 :: rest)) with points.
    rewrite (Hloop s Hs). f_equal.
    rewrite stage_all_set_flushDisablers.
    cbn [flushDisablers set_flushDisablers].
    destruct (stage_all_frame color (map point_of pts) d) as (_ & _ & _ & Hfd').
    replace (flushDisablers d + 1 - 1) with
      (flushDisablers (stage_all color (map point_of pts) d)) by lia.
    apply set_flushDisablers_back. }
  fold points. rewrite Hrun.
  destruct (flush_stage_exact color cn (map point_of pts) d Hwf Hfd Htb Hcn)
    as (d' & Hflush & Htb' & _ & _ & _ & _ & Hpix).
  exists d'. split; [exact Hflush|]. split; [exact Htb'|].
  intros x y Hx Hy. rewrite <- (hits_map_point_of (image d) pts x y Hx Hy).
  apply Hpix; assumption.
Qed.

Lemma drawBezier_step_1_draws_the_chord_witness :
  exists d',
    drawBezier 1 (map point_of [(0, 0); (2, 2); (3, 0)])
      (ColorString "#0A141E") None (mkDrawer (new_Image 4 3) false 1 [] 0)
    = Done tt d'
    /\ temporaryBuffer d' = []
    /\ forall x y, 0 <= x < 4 -> 0 <= y < 3 ->
         (In (x, y) (line_pixels 0 0 3 0) ->
          Image_get (image d') (inject_Z x, inject_Z y)
          = stored (ofZ 10, ofZ 20, ofZ 30, ofZ 255))
         /\ (~ In (x, y) (line_pixels 0 0 3 0) ->
             Image_get (image d') (inject_Z x, inject_Z y)
             = Image_get (new_Image 4 3) (inject_Z x, inject_Z y)).
Proof.
  apply (drawBezier_step_1_draws_the_chord 1
           (mkDrawer (new_Image 4 3) false 1 [] 0) (0, 0) (2, 2) [(3, 0)]
           (ColorString "#0A141E") (ofZ 10, ofZ 20, ofZ 30, ofZ 255) None);
    try reflexivity.
  - unfold wf_image; repeat apply conj; reflexivity.
  - cbn. discriminate.
  - repeat constructor; vm_compute; discriminate.
  - lia.
Defined.

(** ** Thick lines *)

Lemma line_stage_thick (x0 y0 : Z) (color : Color) (thickness : Q)
  (d : ImageDrawer) :
  Qlt_bool 1 thickness = true ->
  line_stage x0 y0 color thickness d
  = stage_all color (disc_points (thickness / 2) (x0, y0)) d.
Proof.
  intros Hth. unfold line_stage, disc_points. rewrite Hth.
  apply circle_loop_stage. intros. apply circle_spans_stage.
Qed.

Lemma line_loop_trace_thick fuel x0 y0 x1 y1 dx dy sx sy err color d :
  0 <= flushDisablers d -> Qlt_bool 1 (lineThickness d) = true ->
  line_loop fuel x0 y0 x1 y1 dx dy sx sy err color d = NoReturn
  \/ line_loop fuel x0 y0 x1 y1 dx dy sx sy err color d
     = Done tt
         (stage_all color
            (flat_map (disc_points (lineThickness d / 2))
               (line_trace fuel x0 y0 x1 y1 dx dy sx sy err)) d).
Proof.
  revert x0 y0 err d. induction fuel as [|fuel IH]; intros x0 y0 err d Hd Hth;
    [left; reflexivity|].
  cbn [line_loop line_trace]. unfold bind.
  rewrite line_point_suppressed by exact Hd.
  rewrite line_stage_thick by exact Hth.
  set (R := (lineThickness d / 2)%Q).
  destruct (stage_all_frame color (disc_points R (x0, y0)) d)
    as (_ & _ & Hth' & Hfd').
  destruct ((x0 =? x1) && (y0 =? y1)).
  { right. cbn [flat_map]. rewrite app_nil_r. reflexivity. }
  cbv zeta.
  assert (Hnext : forall x0' y0' err',
            line_loop fuel x0' y0' x1 y1 dx dy sx sy err' color
              (stage_all color (disc_points R (x0, y0)) d) = NoReturn
            \/ line_loop fuel x0' y0' x1 y1 dx dy sx sy err' color
                 (stage_all color (disc_points R (x0, y0)) d)
               = Done tt
                   (stage_all color
                      (flat_map (disc_points R)
                         ((x0, y0)
                          :: line_trace fuel x0' y0' x1 y1 dx dy sx sy err'))
                      d)).
  { intros x0' y0' err'.
    destruct (IH x0' y0' err' (stage_all color (disc_points R (x0, y0)) d))
      as [E | E]; rewrite ?Hth', ?Hfd'; try assumption; [left; exact E|].
    right. rewrite E, Hth'. fold R. cbn [flat_map].
    rewrite stage_all_app. reflexivity. }
  destruct (2 * err >? - dy); destruct (2 * err <? dx); apply Hnext.
Qed.

Lemma drawLine_stage_thick (start end_ : Point) (color : Color)
  (d : ImageDrawer) :
  0 <= flushDisablers d -> Qlt_bool 1 (lineThickness d) = true ->
  drawLine start end_ color d
  = flush
      (stage_all color
         (flat_map (disc_points (lineThickness d / 2))
            (line_pixels (Math_round (fst start)) (Math_round (snd start))
               (Math_round (fst end_)) (Math_round (snd end_)))) d).
Proof.
  intros Hd Hth. pose proof (drawLine_returns start end_ color d) as Hret.
  revert Hret. unfold drawLine, line_pixels. cbv zeta. unfold bind.
  match goal with
  | |- context [line_loop ?f ?a ?b ?c ?e ?g ?h ?i ?j ?k color d] =>
      destruct (line_loop_trace_thick f a b c e g h i j k color d Hd Hth)
        as [-> | ->]
  end; [congruence | reflexivity].
Qed.

Lemma disc_points_box (R : Q) (r a b : Z) (p : Point) :
  (R == inject_Z r)%Q -> In p (disc_points R (a, b)) ->
  exists u v, (fst p == inject_Z u)%Q /\ (snd p == inject_Z v)%Q
              /\ a - r <= u <= a + r /\ b - r <= v <= b + r.
Proof.
  intros ER Hin. unfold disc_points in Hin. cbn [fst snd] in Hin.
  apply in_flat_map in Hin as (s & Hs & Hin).
  apply (circle_list_integers _ _ _ _ 0 r) in Hs
      as (i & j & Ei & Ej & Hi & Hj); [|reflexivity | exact ER].
  destruct (circle_spans_integer a b i j _ _ p Ei Ej Hi Hin)
    as (u & v & Eu & Ev & Hu & Hv).
  exists u, v. repeat split; try assumption; lia.
Qed.

Lemma disc_points_center (R : Q) (r a b : Z) :
  (R == inject_Z r)%Q -> 0 <= r ->
  exists p, In p (disc_points R (a, b))
            /\ (fst p == inject_Z a)%Q /\ (snd p == inject_Z b)%Q.
Proof.
  intros ER Hr.
  assert (HR : (0 <= R)%Q).
  { rewrite ER. change 0%Q with (inject_Z 0). rewrite <- Zle_Qle. exact Hr. }
  destruct (For_list_reach (inject_Z a - R) (inject_Z a + R)
              (a - r) (a + r) a) as (q & Hq & Eq);
    [apply Qeq_minus_Z, ER | apply Qeq_plus_Z, ER | lia |].
  exists (q, inject_Z b + 0)%Q. cbn [fst snd].
  split; [|split; [exact Eq | ring]].
  unfold disc_points. cbn [fst snd]. apply in_flat_map.
  exists (0%Q, R). split; [apply circle_list_first, HR|].
  unfold circle_spans_list. cbn [fst snd]. apply in_or_app. right.
  apply in_flat_map. exists q. split; [exact Hq | left; reflexivity].
Qed.

(** X26.  [drawLine] with an even line thickness [2 r], [r >= 1] up to
    [2 ^ 24], between points whose rounded coordinates are up to
    [2 ^ 50] in absolute value, on a drawer at rest and with a valid
    color, returns with nothing pending; it writes every pixel of the image that is a pixel of
    Bresenham's line between the rounded ends, and it leaves as it was
    every pixel that is more than [r] away, along one axis or the
    other, from all the pixels of that line. *)
Theorem drawLine_thick_covers_the_line
  (d : ImageDrawer) (start end_ : Point) (color : Color)
  (cn : FullColorArray) (r : Z) :
  wf_image (image d) ->
  flushDisablers d = 0 -> temporaryBuffer d = [] ->
  toColor color = Returns cn ->
  (lineThickness d == inject_Z (2 * r))%Q -> 1 <= r ->
  safe_factor r -> safe_point start -> safe_point end_ ->
  exists d',
    drawLine start end_ color d = Done tt d'
    /\ temporaryBuffer d' = []
    /\ forall x y, 0 <= x < width (image d) -> 0 <= y < height (image d) ->
         (In (x, y)
            (line_pixels (Math_round (fst start)) (Math_round (snd start))
               (Math_round (fst end_)) (Math_round (snd end_))) ->
          Image_get (image d') (inject_Z x, inject_Z y)
          = stored (written (blending d)
                      (Image_get (image d) (inject_Z x, inject_Z y)) cn))
         /\ ((forall a b,
                In (a, b)
                  (line_pixels (Math_round (fst start))
                     (Math_round (snd start)) (Math_round (fst end_))
                     (Math_round (snd end_))) ->
                r < Z.abs (x - a) \/ r < Z.abs (y - b)) ->
             Image_get (image d') (inject_Z x, inject_Z y)
             = Image_get (image d) (inject_Z x, inject_Z y)).
Proof.
  intros Hwf Hfd Htb Hcn Hth Hr _ _ _.
  assert (Hthick : Qlt_bool 1 (lineThickness d) = true).
  { apply Qlt_bool_iff. rewrite Hth. change 1%Q with (inject_Z 1).
    rewrite <- Zlt_Qlt. lia. }
  assert (ER : (lineThickness d / 2 == inject_Z r)%Q).
  { rewrite Hth, inject_Z_mult. change (inject_Z 2) with 2%Q. field. }
  rewrite drawLine_stage_thick by (lia || exact Hthick).
  set (pts := line_pixels _ _ _ _). set (R := (lineThickness d / 2)%Q) in *.
  destruct (flush_stage_exact color cn (flat_map (disc_points R) pts) d
              Hwf Hfd Htb Hcn)
    as (d' & Hrun & Htb' & _ & _ & _ & _ & Hpix).
  exists d'. split; [exact Hrun|]. split; [exact Htb'|].
  intros x y Hx Hy. destruct (Hpix x y Hx Hy) as [Hhit Hmiss]. split.
  - intros Hin. apply Hhit.
    destruct (disc_points_center R r x y ER) as (p & Hp & Ex & Ey); [lia|].
    apply (hits_point _ _ _ _ p); try assumption.
    apply in_flat_map. exists (x, y). split; [exact Hin | exact Hp].
  - intros Hfar. apply Hmiss. intros Hh.
    apply hits_integer_points in Hh as (p & Hp & Ex & Ey); try assumption.
    + apply in_flat_map in Hp as ([a b] & Hab & Hp).
      destruct (disc_points_box R r a b p ER Hp) as (u & v & Eu & Ev & Hu & Hv).
      rewrite Eu in Ex. rewrite Ev in Ey.
      rewrite inject_Z_injective in Ex, Ey. subst u v.
      specialize (Hfar a b Hab). lia.
    + intros p Hp. apply in_flat_map in Hp as ([a b] & Hab & Hp).
      destruct (disc_points_box R r a b p ER Hp) as (u & v & Eu & Ev & _).
      exists u, v. auto.
Qed.

Lemma drawLine_thick_covers_the_line_witness :
  exists d',
    drawLine (1, 1)%Q (3, 1)%Q (ColorString "#0A141E")
      (mkDrawer (new_Image 5 3) false (inject_Z (2 * 1)) [] 0) = Done tt d'
    /\ temporaryBuffer d' = []
    /\ forall x y, 0 <= x < 5 -> 0 <= y < 3 ->
         (In (x, y) (line_pixels 1 1 3 1) ->
          Image_get (image d') (inject_Z x, inject_Z y)
          = stored (ofZ 10, ofZ 20, ofZ 30, ofZ 255))
         /\ ((forall a b, In (a, b) (line_pixels 1 1 3 1) ->
                1 < Z.abs (x - a) \/ 1 < Z.abs (y - b)) ->
             Image_get (image d') (inject_Z x, inject_Z y)
             = Image_get (new_Image 5 3) (inject_Z x, inject_Z y)).
Proof.
  apply (drawLine_thick_covers_the_line
           (mkDrawer (new_Image 5 3) false (inject_Z (2 * 1)) [] 0)
           (1, 1)%Q (3, 1)%Q (ColorString "#0A141E")
           (ofZ 10, ofZ 20, ofZ 30, ofZ 255) 1);
    try reflexivity; try lia.
  - unfold wf_image; repeat apply conj; reflexivity.
  - vm_compute; discriminate.
  - split; vm_compute; discriminate.
  - split; vm_compute; discriminate.
Defined.

(** ** The rows of a triangle *)







(** ** Writing twice *)

Lemma typed_store_store (b : list Z) (i : Z) (v w : number) :
  typed_store (typed_store b i v) i w = typed_store b i w.
Proof.
  unfold typed_store. destruct (0 <=? i); [|reflexivity].
  apply list_insert_insert_eq.
Qed.

Lemma typed_store_commute (b : list Z) (i j : Z) (v w : number) :
  i <> j ->
  typed_store (typed_store b i v) j w = typed_store (typed_store b j w) i v.
Proof.
  intros Hij. unfold typed_store.
  destruct (0 <=? i) eqn:Ei, (0 <=? j) eqn:Ej; try reflexivity.
  apply Z.leb_le in Ei, Ej. apply list_insert_insert_ne. lia.
Qed.

Lemma typed_set4_set4 (b : list Z) (i : Z) (c1 c2 : FullColorArray) :
  typed_set4 (typed_set4 b i c1) i c2 = typed_set4 b i c2.
Proof.
  destruct c1 as [[[a0 a1] a2] a3], c2 as [[[d0 d1] d2] d3].
  unfold typed_set4.
  rewrite (typed_store_commute _ (i + 3) (i + 0)) by lia.
  rewrite (typed_store_commute _ (i + 2) (i + 0)) by lia.
  rewrite (typed_store_commute _ (i + 1) (i + 0)) by lia.
  rewrite typed_store_store.
  rewrite (typed_store_commute _ (i + 3) (i + 1)) by lia.
  rewrite (typed_store_commute _ (i + 2) (i + 1)) by lia.
  rewrite typed_store_store.
  rewrite (typed_store_commute _ (i + 3) (i + 2)) by lia.
  rewrite typed_store_store.
  rewrite typed_store_store. reflexivity.
Qed.

Lemma typed_set4_commute (b : list Z) (i j : Z) (c1 c2 : FullColorArray) :
  i + 3 < j \/ j + 3 < i ->
  typed_set4 (typed_set4 b i c1) j c2 = typed_set4 (typed_set4 b j c2) i c1.
Proof.
  intros Hij. destruct c1 as [[[a0 a1] a2] a3], c2 as [[[d0 d1] d2] d3].
  unfold typed_set4.
  repeat first
    [ rewrite (typed_store_commute _ (i + 3) (j + 0)) by lia
    | rewrite (typed_store_commute _ (i + 2) (j + 0)) by lia
    | rewrite (typed_store_commute _ (i + 1) (j + 0)) by lia
    | rewrite (typed_store_commute _ (i + 0) (j + 0)) by lia ].
  repeat first
    [ rewrite (typed_store_commute _ (i + 3) (j + 1)) by lia
    | rewrite (typed_store_commute _ (i + 2) (j + 1)) by lia
    | rewrite (typed_store_commute _ (i + 1) (j + 1)) by lia
    | rewrite (typed_store_commute _ (i + 0) (j + 1)) by lia ].
  repeat first
    [ rewrite (typed_store_commute _ (i + 3) (j + 2)) by lia
    | rewrite (typed_store_commute _ (i + 2) (j + 2)) by lia
    | rewrite (typed_store_commute _ (i + 1) (j + 2)) by lia
    | rewrite (typed_store_commute _ (i + 0) (j + 2)) by lia ].
  repeat first
    [ rewrite (typed_store_commute _ (i + 3) (j + 3)) by lia
    | rewrite (typed_store_commute _ (i + 2) (j + 3)) by lia
    | rewrite (typed_store_commute _ (i + 1) (j + 3)) by lia
    | rewrite (typed_store_commute _ (i + 0) (j + 3)) by lia ].
  reflexivity.
Qed.

(** X29.  Two calls of [Image.set] at points of the image, with valid
    colors: when the two points round to the same pixel the second
    call wins, the image being the one the second call alone gives;
    when they round to different pixels the two calls commute. *)
Theorem Image_set_twice
  (img : Image) (p q : Point) (c1 c2 : Color) (cn1 cn2 : FullColorArray) :
  wf_image img ->
  0 <= Math_round (fst p) < width img ->
  0 <= Math_round (snd p) < height img ->
  0 <= Math_round (fst q) < width img ->
  0 <= Math_round (snd q) < height img ->
  toColor c1 = Returns cn1 -> toColor c2 = Returns cn2 ->
  exists img1 img2 img12 img21,
    Image_set img p c1 = Returns img1
    /\ Image_set img1 q c2 = Returns img12
    /\ Image_set img q c2 = Returns img2
    /\ Image_set img2 p c1 = Returns img21
    /\ (Math_round (fst p) = Math_round (fst q) ->
        Math_round (snd p) = Math_round (snd q) -> img12 = img2)
    /\ (Math_round (fst p) <> Math_round (fst q)
        \/ Math_round (snd p) <> Math_round (snd q) -> img12 = img21).
Proof.
  intros Hwf Hpx Hpy Hqx Hqy Hc1 Hc2.
  destruct p as [px py], q as [qx qy]. cbn [fst snd] in *.
  rewrite (Image_set_rounds img px py), (Image_set_rounds img qx qy).
  rewrite (Image_set_in_range img _ _ c1 cn1 Hpx Hpy Hc1).
  rewrite (Image_set_in_range img _ _ c2 cn2 Hqx Hqy Hc2).
  do 4 eexists. split; [reflexivity|].
  rewrite Image_set_rounds. split;
    [apply Image_set_in_range; [exact Hqx | exact Hqy | exact Hc2]|].
  split; [reflexivity|].
  rewrite Image_set_rounds. split;
    [apply Image_set_in_range; [exact Hpx | exact Hpy | exact Hc1]|].
  cbn [width height buffer]. split.
  - intros -> ->. rewrite typed_set4_set4. reflexivity.
  - intros Hne. f_equal. apply typed_set4_commute.
    pose proof Hwf as (HW & _).
    assert (Math_round py * width img + Math_round px
            <> Math_round qy * width img + Math_round qx).
    { intros E.
      destruct (pixel_key_inj (width img) _ _ _ _ HW Hpx Hqx E). lia. }
    lia.
Qed.

Lemma Image_set_twice_witness :
  exists img1 img2 img12 img21,
    Image_set (new_Image 2 1) (0, 0)%Q (ColorString "#0A141E") = Returns img1
    /\ Image_set img1 (2 # 5, 0)%Q (ColorString "#FFFFFF") = Returns img12
    /\ Image_set (new_Image 2 1) (2 # 5, 0)%Q (ColorString "#FFFFFF")
       = Returns img2
    /\ Image_set img2 (0, 0)%Q (ColorString "#0A141E") = Returns img21
    /\ (Math_round 0 = Math_round (2 # 5) ->
        Math_round 0 = Math_round 0 -> img12 = img2)
    /\ (Math_round 0 <> Math_round (2 # 5)
        \/ Math_round 0 <> Math_round 0 -> img12 = img21).
Proof.
  apply (Image_set_twice (new_Image 2 1) (0, 0)%Q (2 # 5, 0)%Q
           (ColorString "#0A141E") (ColorString "#FFFFFF")
           (ofZ 10, ofZ 20, ofZ 30, ofZ 255)
           (ofZ 255, ofZ 255, ofZ 255, ofZ 255));
    try reflexivity;
    try (change (0 <= 0 < 2); lia); try (change (0 <= 0 < 1); lia).
  unfold wf_image; repeat apply conj; reflexivity.
Defined.
